(** * iv-ingestion: worker extraction, webhook dispatch and rate limiting

    A shallow embedding of the ingestion core of the repository:
    - [src/workers/processor.js]: pattern-based field extraction, the
      transactional persistence of one processed file, the job handler and
      the queue options;
    - [src/services/webhookService.js]: webhook registration and delivery
      with retries;
    - the rate-limiting middleware (class [RateLimiter]), its usage
      reports and its reset;
    - [migrations/004_create_processing_jobs_table.js]: the job table;
    - the migration of the findings table and
      [src/services/parsers/pdfParser.js]: the pages of a document.

    JavaScript text is modelled as [string] over code units below 256; the
    case mappings and the white-space class are the ASCII ones (plus the
    no-break space), which is all the patterns of the worker mention. *)

From Stdlib Require Import ZArith List Bool Ascii String Lia DecimalString.
From stdpp Require Import base option list gmap strings.

Import ListNotations.
Local Open Scope string_scope.

(* ===================================================================== *)
(** * JavaScript strings *)
(* ===================================================================== *)

Module JS.

Definition chars (s : string) : list ascii := list_ascii_of_string s.
Definition str (l : list ascii) : string := string_of_list_ascii l.

Definition code (c : ascii) : nat := nat_of_ascii c.

Definition is_upper (c : ascii) : bool := (65 <=? code c)%nat && (code c <=? 90)%nat.
Definition is_lower (c : ascii) : bool := (97 <=? code c)%nat && (code c <=? 122)%nat.

Definition lower (c : ascii) : ascii :=
  if is_upper c then ascii_of_nat (code c + 32) else c.
Definition upper (c : ascii) : ascii :=
  if is_lower c then ascii_of_nat (code c - 32) else c.

(** White space as [\s] and [trim] see it: TAB, LF, VT, FF, CR, SP, NBSP. *)
Definition is_space (c : ascii) : bool :=
  ((9 <=? code c)%nat && (code c <=? 13)%nat) || (code c =? 32)%nat || (code c =? 160)%nat.

(** [String.prototype.toLowerCase] *)
Definition toLowerCase (s : string) : string := str (map lower (chars s)).

Fixpoint is_prefix (p l : list ascii) : bool :=
  match p, l with
  | [], _ => true
  | a :: p', b :: l' => Ascii.eqb a b && is_prefix p' l'
  | _ :: _, [] => false
  end.

(** [String.prototype.startsWith] *)
Definition startsWith (s p : string) : bool := is_prefix (chars p) (chars s).

Fixpoint has_infix (p l : list ascii) : bool :=
  is_prefix p l ||
  match l with
  | [] => false
  | _ :: l' => has_infix p l'
  end.

(** [String.prototype.includes] *)
Definition includes (s p : string) : bool := has_infix (chars p) (chars s).

Fixpoint drop_space (l : list ascii) : list ascii :=
  match l with
  | c :: l' => if is_space c then drop_space l' else l
  | [] => []
  end.

(** [String.prototype.trim] *)
Definition trim (s : string) : string :=
  str (rev (drop_space (rev (drop_space (chars s))))).

(** [s.replace(/,/g, '')]: every occurrence of one character removed. *)
Definition remove_char (c : ascii) (s : string) : string :=
  str (List.filter (fun x => negb (Ascii.eqb x c)) (chars s)).

Definition is_digit (c : ascii) : bool := (48 <=? code c)%nat && (code c <=? 57)%nat.

Fixpoint digits_value (acc : N) (l : list ascii) : N * list ascii :=
  match l with
  | c :: l' =>
      if is_digit c then digits_value (10 * acc + N.of_nat (code c - 48))%N l'
      else (acc, l)
  | [] => (acc, [])
  end.

(** A Number that is a natural number, or [Infinity]. *)
Inductive number := Finite (n : N) | Infinity.

(** The Number a natural number is read as: the double nearest to it,
    the even significand on a tie, and [Infinity] from 2^1024 - 2^970 on.
    Below 2^53 every natural number is a double. *)
Definition to_double (n : N) : number :=
  if (n <? 2 ^ 53)%N then Finite n
  else
    let e := (N.log2 n - 52)%N in
    let q := N.shiftr n e in
    let r := N.land n (N.ones e) in
    let half := N.shiftl 1 (e - 1) in
    let q' := if (half <? r)%N || ((r =? half)%N && N.odd q) then (q + 1)%N else q in
    let v := N.shiftl q' e in
    if (2 ^ 1024 <=? v)%N then Infinity else Finite v.

(** [parseInt] on text that starts with a decimal digit (the only way
    the worker calls it): the digits are read as far as they go and their
    value is rounded to a double; [None] stands for [NaN]. *)
Definition parseInt (s : string) : option number :=
  match drop_space (chars s) with
  | c :: l => if is_digit c then Some (to_double (fst (digits_value 0%N (c :: l)))) else None
  | [] => None
  end.

(** The decimal numeral [int.frac] that [parseFloat] reads: the integer
    part, the value of the fractional digits and their count.  The Number
    returned is the double nearest to the numeral; the model keeps the
    numeral, which determines it. *)
Record decimal := { d_int : N; d_frac : N; d_frac_len : nat }.

Definition parseFloat (s : string) : option decimal :=
  match drop_space (chars s) with
  | c :: l =>
      if is_digit c then
        let '(i, rest) := digits_value 0%N (c :: l) in
        match rest with
        | "."%char :: f =>
            let '(fv, rest') := digits_value 0%N f in
            Some {| d_int := i; d_frac := fv;
                    d_frac_len := (List.length f - List.length rest')%nat |}
        | _ => Some {| d_int := i; d_frac := 0%N; d_frac_len := 0 |}
        end
      else None
  | [] => None
  end.

(** [String(n)], and [n] inside a template literal, for an integer. *)
Definition Number_toString (n : Z) : string := NilZero.string_of_int (Z.to_int n).

End JS.

(* ===================================================================== *)
(** * Regular expressions as the worker uses them *)
(* ===================================================================== *)

(** A backtracking matcher with the priorities of ECMAScript's [RegExp]:
    leftmost start, alternatives left to right, greedy quantifiers, and
    an iteration of a quantifier that consumes nothing is refused.  The
    patterns are kept as their source text and parsed by [parse]. *)
Module Regex.
Import JS.

(** A character class: ranges of code units, possibly negated. *)
Inductive cset := CSet (neg : bool) (ranges : list (nat * nat)).

Inductive re :=
| Eps
| Chr (c : cset)
| Seq (a b : re)
| Alt (a b : re)
| Rep (mn : nat) (mx : option nat) (a : re)
| Grp (i : nat) (a : re).

Definition in_ranges (rs : list (nat * nat)) (n : nat) : bool :=
  existsb (fun r => (fst r <=? n)%nat && (n <=? snd r)%nat) rs.

(** With the [i] flag a character belongs to a class when some member has
    the same canonical (upper-case) form. *)
Definition cset_mem (icase : bool) (cs : cset) (c : ascii) : bool :=
  let '(CSet neg rs) := cs in
  let hit :=
    if icase
    then in_ranges rs (code c) || in_ranges rs (code (upper c)) || in_ranges rs (code (lower c))
    else in_ranges rs (code c) in
  xorb neg hit.

Definition caps := list (nat * list ascii).
Definition outcome := option (list ascii * caps).
Definition cont := list ascii -> caps -> outcome.
Definition matcher := list ascii -> caps -> cont -> outcome.

(** Greedy repetition.  Every round either lowers [mn] or consumes input,
    so [budget = length s + mn + 1] rounds are never used up. *)
Fixpoint rep (ma : matcher) (budget mn : nat) (mx : option nat) : matcher :=
  fun s cs k =>
    match budget with
    | 0 => None
    | S b =>
        let more :=
          match mx with
          | Some 0 => None
          | _ =>
              ma s cs (fun s' cs' =>
                if (mn =? 0)%nat && (List.length s' =? List.length s)%nat then None
                else rep ma b (Nat.pred mn) (option_map Nat.pred mx) s' cs' k)
          end in
        if (mn =? 0)%nat then
          match more with
          | Some r => Some r
          | None => k s cs
          end
        else more
    end.

Fixpoint m (icase : bool) (r : re) : matcher :=
  match r with
  | Eps => fun s cs k => k s cs
  | Chr c => fun s cs k =>
      match s with
      | x :: s' => if cset_mem icase c x then k s' cs else None
      | [] => None
      end
  | Seq a b => fun s cs k => m icase a s cs (fun s' cs' => m icase b s' cs' k)
  | Alt a b => fun s cs k =>
      match m icase a s cs k with
      | Some r => Some r
      | None => m icase b s cs k
      end
  | Rep mn mx a => fun s cs k =>
      rep (m icase a) (List.length s + mn + 1) mn mx s cs k
  | Grp i a => fun s cs k =>
      m icase a s cs (fun s' cs' =>
        k s' ((i, firstn (List.length s - List.length s') s) :: cs'))
  end.

(** One match: where it starts, its text, its groups, the input after it. *)
Record found := {
  f_index : nat;
  f_text : list ascii;
  f_caps : caps;
  f_rest : list ascii
}.

Definition match_here (icase : bool) (r : re) (s : list ascii) : outcome :=
  m icase r s [] (fun s' cs => Some (s', cs)).

Fixpoint search_from (icase : bool) (r : re) (s : list ascii) (idx : nat) : option found :=
  match match_here icase r s with
  | Some (rest, cs) =>
      Some {| f_index := idx;
              f_text := firstn (List.length s - List.length rest) s;
              f_caps := cs;
              f_rest := rest |}
  | None =>
      match s with
      | [] => None
      | _ :: s' => search_from icase r s' (S idx)
      end
  end.

(** The successive matches of a [g] pattern: the next search starts where
    the last match ended, one further on after an empty match. *)
Fixpoint all_matches (fuel : nat) (icase : bool) (r : re) (s : list ascii) (idx : nat)
  : list found :=
  match fuel with
  | 0 => []
  | S f =>
      match search_from icase r s idx with
      | None => []
      | Some fd =>
          match f_text fd with
          | [] =>
              match f_rest fd with
              | [] => [fd]
              | _ :: t => fd :: all_matches f icase r t (S (f_index fd))
              end
          | _ :: _ =>
              fd :: all_matches f icase r (f_rest fd)
                      (f_index fd + List.length (f_text fd))
          end
      end
  end.

(** ** The pattern syntax *)

Definition ch_eq (c x : ascii) : bool := Ascii.eqb c x.

Definition is_alnum (c : ascii) : bool := is_digit c || is_upper c || is_lower c.

(** What [\c] denotes, in or out of a class; [None]: not supported. *)
Definition escape_ranges (c : ascii) : option (list (nat * nat)) :=
  if ch_eq c "d" then Some [(48, 57)]
  else if ch_eq c "s" then Some [(9, 13); (32, 32); (160, 160)]
  else if ch_eq c "w" then Some [(48, 57); (65, 90); (95, 95); (97, 122)]
  else if ch_eq c "n" then Some [(10, 10)]
  else if ch_eq c "t" then Some [(9, 9)]
  else if ch_eq c "r" then Some [(13, 13)]
  else if is_alnum c then None
  else Some [(code c, code c)].

Fixpoint parse_class (fuel : nat) (s : list ascii) (acc : list (nat * nat))
  : option (list (nat * nat) * list ascii) :=
  match fuel with
  | 0 => None
  | S f =>
      match s with
      | [] => None
      | a :: rest =>
          if ch_eq a "]" then Some (acc, rest)
          else if ch_eq a "\" then
            match rest with
            | e :: rest' =>
                match escape_ranges e with
                | Some rs => parse_class f rest' (acc ++ rs)
                | None => None
                end
            | [] => None
            end
          else
            match rest with
            | d :: b :: rest' =>
                if ch_eq d "-" && negb (ch_eq b "]") then
                  if ch_eq b "\" then None
                  else parse_class f rest' (acc ++ [(code a, code b)])
                else parse_class f rest (acc ++ [(code a, code a)])
            | _ => parse_class f rest (acc ++ [(code a, code a)])
            end
      end
  end.

Fixpoint parse_nat (s : list ascii) (acc : nat) : nat * list ascii :=
  match s with
  | c :: s' => if is_digit c then parse_nat s' (10 * acc + (code c - 48)) else (acc, s)
  | [] => (acc, [])
  end.

Definition starts_digit (s : list ascii) : bool :=
  match s with
  | c :: _ => is_digit c
  | [] => false
  end.

(** A quantifier, if one follows: [* + ? {n} {n,} {n,m}]. *)
Definition parse_quant (s : list ascii)
  : option (option (nat * option nat) * list ascii) :=
  match s with
  | c :: r =>
      if ch_eq c "*" then Some (Some (0, None), r)
      else if ch_eq c "+" then Some (Some (1, None), r)
      else if ch_eq c "?" then Some (Some (0, Some 1), r)
      else if ch_eq c "{" then
        if starts_digit r then
          let '(n, r1) := parse_nat r 0 in
          match r1 with
          | c1 :: r2 =>
              if ch_eq c1 "}" then Some (Some (n, Some n), r2)
              else if ch_eq c1 "," then
                match r2 with
                | c2 :: r3 =>
                    if ch_eq c2 "}" then Some (Some (n, None), r3)
                    else if is_digit c2 then
                      let '(k, r4) := parse_nat r2 0 in
                      match r4 with
                      | c3 :: r5 => if ch_eq c3 "}" then Some (Some (n, Some k), r5) else None
                      | [] => None
                      end
                    else None
                | [] => None
                end
              else None
          | [] => None
          end
        else None
      else Some (None, s)
  | [] => Some (None, [])
  end.

Definition quantify (q : option (nat * option nat)) (a : re) : re :=
  match q with
  | Some (mn, mx) => Rep mn mx a
  | None => a
  end.

Definition stops_sequence (s : list ascii) : bool :=
  match s with
  | [] => true
  | c :: _ => ch_eq c "|" || ch_eq c ")"
  end.

Definition is_syntax (c : ascii) : bool :=
  ch_eq c "*" || ch_eq c "+" || ch_eq c "?" || ch_eq c "{" || ch_eq c "}" || ch_eq c "^" || ch_eq c "$"
  || ch_eq c "]" || ch_eq c ")" || ch_eq c "|".

(** The three levels of the grammar; [g] counts the capturing groups
    opened so far, which numbers them from 1 in order of their [(]. *)
Fixpoint parse_alt (fuel : nat) (s : list ascii) (g : nat)
  : option (re * list ascii * nat) :=
  match fuel with
  | 0 => None
  | S f =>
      match parse_seq f s g with
      | Some (a, rest, g1) =>
          match rest with
          | c :: rest' =>
              if ch_eq c "|" then
                match parse_alt f rest' g1 with
                | Some (b, rest'', g2) => Some (Alt a b, rest'', g2)
                | None => None
                end
              else Some (a, rest, g1)
          | [] => Some (a, rest, g1)
          end
      | None => None
      end
  end
with parse_seq (fuel : nat) (s : list ascii) (g : nat)
  : option (re * list ascii * nat) :=
  match fuel with
  | 0 => None
  | S f =>
      if stops_sequence s then Some (Eps, s, g)
      else
        match parse_atom f s g with
        | Some (a, rest, g1) =>
            match parse_quant rest with
            | Some (q, rest1) =>
                match q, rest1 with
                | Some _, c :: _ =>
                    if ch_eq c "?" then None
                    else
                      match parse_seq f rest1 g1 with
                      | Some (b, rest2, g2) => Some (Seq (quantify q a) b, rest2, g2)
                      | None => None
                      end
                | _, _ =>
                    match parse_seq f rest1 g1 with
                    | Some (b, rest2, g2) => Some (Seq (quantify q a) b, rest2, g2)
                    | None => None
                    end
                end
            | None => None
            end
        | None => None
        end
  end
with parse_atom (fuel : nat) (s : list ascii) (g : nat)
  : option (re * list ascii * nat) :=
  match fuel with
  | 0 => None
  | S f =>
      match s with
      | [] => None
      | c :: rest =>
          if ch_eq c "(" then
            match rest with
            | q :: rest1 =>
                if ch_eq q "?" then
                  match rest1 with
                  | k :: rest2 =>
                      if ch_eq k ":" then
                        match parse_alt f rest2 g with
                        | Some (a, c' :: rest3, g1) =>
                            if ch_eq c' ")" then Some (a, rest3, g1) else None
                        | _ => None
                        end
                      else None
                  | [] => None
                  end
                else
                  match parse_alt f rest (S g) with
                  | Some (a, c' :: rest3, g1) =>
                      if ch_eq c' ")" then Some (Grp (S g) a, rest3, g1) else None
                  | _ => None
                  end
            | [] => None
            end
          else if ch_eq c "[" then
            match rest with
            | n :: rest1 =>
                if ch_eq n "^" then
                  match parse_class (S (List.length rest1)) rest1 [] with
                  | Some (rs, rest2) => Some (Chr (CSet true rs), rest2, g)
                  | None => None
                  end
                else
                  match parse_class (S (List.length rest)) rest [] with
                  | Some (rs, rest2) => Some (Chr (CSet false rs), rest2, g)
                  | None => None
                  end
            | [] => None
            end
          else if ch_eq c "\" then
            match rest with
            | e :: rest1 =>
                match escape_ranges e with
                | Some rs => Some (Chr (CSet false rs), rest1, g)
                | None => None
                end
            | [] => None
            end
          else if ch_eq c "." then Some (Chr (CSet true [(10, 10); (13, 13)]), rest, g)
          else if is_syntax c then None
          else Some (Chr (CSet false [(code c, code c)]), rest, g)
      end
  end.

Definition parse (src : string) : option re :=
  let s := chars src in
  match parse_alt (4 * List.length s + 4) s 0 with
  | Some (r, [], _) => Some r
  | _ => None
  end.

(** A pattern that matches nothing stands for text [parse] refuses; the
    worker's patterns all parse (see [worker_patterns_parse]). *)
Definition never : re := Chr (CSet false []).

Definition compile (src : string) : re :=
  match parse src with
  | Some r => r
  | None => never
  end.

(** ** RegExp objects and the [String] methods that take them *)

Record regexp := {
  source : string;
  ignoreCase : bool;
  global : bool
}.

(** The literal [/src/], [/src/i], [/src/g] and [/src/gi]. *)
Definition rx (src : string) : regexp :=
  {| source := src; ignoreCase := false; global := false |}.
Definition rx_i (src : string) : regexp :=
  {| source := src; ignoreCase := true; global := false |}.
Definition rx_gi (src : string) : regexp :=
  {| source := src; ignoreCase := true; global := true |}.

(** The array a match yields: index 0 is the matched text, index [n] is
    group [n].  A group that took no part reads as the empty text; the
    worker only reads groups every match of its pattern fills. *)
Definition nth_of (fd : found) (n : nat) : string :=
  match n with
  | 0 => str (f_text fd)
  | _ =>
      match List.find (fun p => (fst p =? n)%nat) (f_caps fd) with
      | Some p => str (snd p)
      | None => ""
      end
  end.

Definition first_match (p : regexp) (content : string) : option found :=
  search_from (ignoreCase p) (compile (source p)) (chars content) 0.

Definition matches (p : regexp) (content : string) : list found :=
  let s := chars content in
  all_matches (S (List.length s)) (ignoreCase p) (compile (source p)) s 0.

(** [content.match(p)]: [None] is [null]; the array is given as the
    function reading its indices.  Without [g], the first match with its
    groups; with [g], the texts of all matches. *)
Definition str_match (content : string) (p : regexp) : option (nat -> string) :=
  if global p then
    match matches p content with
    | [] => None
    | ms => Some (fun n => nth n (map (fun fd => str (f_text fd)) ms) "")
    end
  else
    match first_match p content with
    | Some fd => Some (nth_of fd)
    | None => None
    end.

(** [content.matchAll(p)] for a [g] pattern: the matches in order, each
    with its groups. *)
Definition str_matchAll (content : string) (p : regexp) : list (nat -> string) :=
  map nth_of (matches p content).

End Regex.

(* ===================================================================== *)
(** * Effects: state and exceptions *)
(* ===================================================================== *)

(** An [async] function is modelled as a computation over a world [W]
    that either returns or throws; what it did to the world before a
    [throw] stays done, as in JavaScript.  Awaited calls run to completion
    one after the other (no interleaving of other tasks). *)
Module Eff.

(** A thrown [Error], by its message. *)
Definition exn := string.

Definition M (W A : Type) : Type := W -> (exn + A) * W.

Definition ret {W A} (a : A) : M W A := fun w => (inr a, w).

Definition bind {W A B} (c : M W A) (k : A -> M W B) : M W B :=
  fun w =>
    match c w with
    | (inr a, w') => k a w'
    | (inl e, w') => (inl e, w')
    end.

Definition throw {W A} (e : exn) : M W A := fun w => (inl e, w).

(** [try { body } catch (error) { handler error }] *)
Definition try_catch {W A} (body : M W A) (handler : exn -> M W A) : M W A :=
  fun w =>
    match body w with
    | (inr a, w') => (inr a, w')
    | (inl e, w') => handler e w'
    end.

Definition get {W} : M W W := fun w => (inr w, w).
Definition modify {W} (f : W -> W) : M W unit := fun w => (inr tt, f w).

Definition when {W} (b : bool) (c : M W unit) : M W unit :=
  if b then c else ret tt.

Module Notations.
Notation "x <- c ;; k" := (bind c (fun x => k))
  (at level 100, c at next level, right associativity).
Notation "c ;;; k" := (bind c (fun _ => k))
  (at level 100, right associativity).
End Notations.

End Eff.

(* ===================================================================== *)
(** * The worker: field extraction ([src/workers/processor.js]) *)
(* ===================================================================== *)

Module Processor.
Import JS Regex.

Definition MAX_RETRIES : nat := 3.
Definition PROCESSING_TIMEOUT : Z := 300000.

(** The first pattern of a list that matches, with its match. *)
Fixpoint first_matching (content : string) (patterns : list regexp)
  : option (nat -> string) :=
  match patterns with
  | [] => None
  | p :: rest =>
      match str_match content p with
      | Some mt => Some mt
      | None => first_matching content rest
      end
  end.

(** ** extractPropertyInfo *)

Record propertyInfo := {
  address : option string;
  city : option string;
  state : option string;
  zipCode : option string;
  propertyType : option string;
  squareFootage : option number;
  yearBuilt : option number;
  bedrooms : option number;
  bathrooms : option decimal
}.

Definition addressPatterns : list regexp := [
  rx_gi "(\d+\s+[A-Za-z\s]+(?:Street|St|Avenue|Ave|Road|Rd|Boulevard|Blvd|Drive|Dr|Lane|Ln|Court|Ct|Place|Pl|Way|Circle|Cir))";
  rx_gi "(\d+\s+[A-Za-z\s]+(?:Street|St|Avenue|Ave|Road|Rd|Boulevard|Blvd|Drive|Dr|Lane|Ln|Court|Ct|Place|Pl|Way|Circle|Cir)[,\s]+[A-Za-z\s]+[,\s]+[A-Z]{2}[,\s]+\d{5})"
].

Definition cityStateZipPattern : regexp :=
  rx "([A-Za-z\s]+)[,\s]+([A-Z]{2})[,\s]+(\d{5})".

Definition propertyTypePatterns : list regexp := [
  rx_i "(single\s+family|multi\s+family|condominium|townhouse|apartment|commercial|residential)";
  rx_i "(house|home|condo|apartment|building|structure)"
].

Definition sqftPattern : regexp :=
  rx_i "(\d{1,3}(?:,\d{3})*)\s*(?:sq\s*ft|square\s*feet|sf)".

Definition yearPattern : regexp :=
  rx_i "(?:built|constructed|year)\s*(?:in\s*)?(\d{4})".

Definition bedroomPattern : regexp := rx_i "(\d+)\s*(?:bedroom|bed|br)".
Definition bathroomPattern : regexp := rx_i "(\d+(?:\.\d+)?)\s*(?:bathroom|bath|ba)".

(** Each numeric group starts with a digit, so [parseInt] and
    [parseFloat] never yield [NaN] here; [None] is the initial [null]. *)
Definition extractPropertyInfo (content : string) : propertyInfo :=
  let cityStateZipMatch := str_match content cityStateZipPattern in
  {| address := option_map (fun mt => trim (mt 0)) (first_matching content addressPatterns);
     city := option_map (fun mt => trim (mt 1)) cityStateZipMatch;
     state := option_map (fun mt => mt 2) cityStateZipMatch;
     zipCode := option_map (fun mt => mt 3) cityStateZipMatch;
     propertyType :=
       option_map (fun mt => toLowerCase (mt 1)) (first_matching content propertyTypePatterns);
     squareFootage :=
       match str_match content sqftPattern with
       | Some mt => parseInt (remove_char "," (mt 1))
       | None => None
       end;
     yearBuilt :=
       match str_match content yearPattern with
       | Some mt => parseInt (mt 1)
       | None => None
       end;
     bedrooms :=
       match str_match content bedroomPattern with
       | Some mt => parseInt (mt 1)
       | None => None
       end;
     bathrooms :=
       match str_match content bathroomPattern with
       | Some mt => parseFloat (mt 1)
       | None => None
       end |}.

(** ** extractInspectorInfo *)

Record inspectorInfo := {
  name : option string;
  license : option string;
  company : option string;
  phone : option string;
  email : option string;
  inspectionDate : option string
}.

Definition namePatterns : list regexp := [
  rx_i "(?:inspector|inspected\s+by|performed\s+by)\s*:?\s*([A-Za-z\s]+)";
  rx_i "([A-Z][a-z]+\s+[A-Z][a-z]+)\s*(?:inspector|inspected)"
].

Definition licensePatterns : list regexp := [
  rx_i "(?:license|lic\s*#|license\s*number)\s*:?\s*([A-Z0-9-]+)";
  rx_i "([A-Z]{2,3}\d{6,8})"
].

Definition companyPatterns : list regexp := [
  rx_i "(?:company|firm|agency)\s*:?\s*([A-Za-z\s&]+)";
  rx_i "([A-Z][a-z]+\s+(?:Inspections|Services|Company|Inc|LLC|Ltd))"
].

Definition phonePattern : regexp :=
  rx_i "(?:phone|tel|telephone)\s*:?\s*(\d{3}[-.\s]?\d{3}[-.\s]?\d{4})".

Definition emailPattern : regexp :=
  rx_i "([a-zA-Z0-9._%+-]+@[a-zA-Z0-9.-]+\.[a-zA-Z]{2,})".

Definition datePatterns : list regexp := [
  rx_i "(?:inspection\s+date|date\s+of\s+inspection|inspected\s+on)\s*:?\s*(\d{1,2}[\/\-]\d{1,2}[\/\-]\d{2,4})";
  rx_i "(\d{1,2}[\/\-]\d{1,2}[\/\-]\d{2,4})"
].

(** [moment_iso d] stands for
    [moment(d, ['MM/DD/YYYY', ...]).toISOString()], which is [null] for
    a date moment cannot read. *)
Definition extractInspectorInfo (moment_iso : string -> option string) (content : string)
  : inspectorInfo :=
  {| name := option_map (fun mt => trim (mt 1)) (first_matching content namePatterns);
     license := option_map (fun mt => trim (mt 1)) (first_matching content licensePatterns);
     company := option_map (fun mt => trim (mt 1)) (first_matching content companyPatterns);
     phone := option_map (fun mt => mt 1) (str_match content phonePattern);
     email := option_map (fun mt => mt 1) (str_match content emailPattern);
     inspectionDate :=
       match first_matching content datePatterns with
       | Some mt => moment_iso (mt 1)
       | None => None
       end |}.

(** ** extractFindings *)

Record finding := {
  id : string;
  description : string;
  severity : string;
  category : string;
  recommendation : option string;
  estimatedCost : option N;
  priority : string
}.

Definition findingPatterns : list regexp := [
  rx_gi "(?:finding|issue|problem|defect|deficiency)\s*:?\s*([^.\n]+)";
  rx_gi "(?:recommendation|recommend)\s*:?\s*([^.\n]+)";
  rx_gi "(?:repair|fix|replace)\s*:?\s*([^.\n]+)"
].

(** [Object.entries] lists the string keys in the order they were written. *)
Definition severityKeywords : list (string * list string) := [
  ("high", ["critical"; "urgent"; "safety"; "hazard"; "danger"; "emergency"; "immediate"]);
  ("medium", ["moderate"; "attention"; "concern"; "issue"; "problem"]);
  ("low", ["minor"; "cosmetic"; "maintenance"; "suggestion"; "recommendation"])
].

Definition categoryKeywords : list (string * list string) := [
  ("electrical", ["electrical"; "wiring"; "outlet"; "circuit"; "breaker"; "panel"]);
  ("plumbing", ["plumbing"; "pipe"; "leak"; "drain"; "faucet"; "toilet"]);
  ("structural", ["structural"; "foundation"; "wall"; "roof"; "beam"; "support"]);
  ("hvac", ["hvac"; "heating"; "cooling"; "furnace"; "ac"; "air conditioning"]);
  ("roofing", ["roof"; "shingle"; "gutter"; "chimney"; "flashing"]);
  ("exterior", ["exterior"; "siding"; "window"; "door"; "deck"; "patio"]);
  ("interior", ["interior"; "floor"; "ceiling"; "paint"; "drywall"])
].

(** [keywords.some(keyword => description.toLowerCase().includes(keyword))] *)
Definition some_keyword (descr : string) (keywords : list string) : bool :=
  existsb (fun keyword => includes (toLowerCase descr) keyword) keywords.

(** The loop over the entries: the first entry with a keyword in the
    description sets the label and breaks; without one the default stays. *)
Fixpoint classify (table : list (string * list string)) (default : string) (descr : string)
  : string :=
  match table with
  | [] => default
  | (label, keywords) :: rest =>
      if some_keyword descr keywords then label else classify rest default descr
  end.

Definition severity_of (descr : string) : string := classify severityKeywords "medium" descr.
Definition category_of (descr : string) : string := classify categoryKeywords "general" descr.

Definition make_finding (new_id : string) (mt : nat -> string) : finding :=
  let descr := trim (mt 1) in
  {| id := new_id;
     description := descr;
     severity := severity_of descr;
     category := category_of descr;
     recommendation := None;
     estimatedCost := None;
     priority := "medium" |}.

(** All matches of the first pattern, then of the second, then of the
    third.  [uuidv4 n] is the [n]-th identifier [uuidv4()] hands out
    during the call. *)
Definition extractFindings (uuidv4 : nat -> string) (content : string) : list finding :=
  imap (fun n mt => make_finding (uuidv4 n) mt)
       (concat (map (str_matchAll content) findingPatterns)).


(** ** The store and the services around the worker *)

(** A JSON-like value of an emitted event. *)
Inductive jsval := JNull | JNum (n : Z) | JStr (s : string).

Record property_row := {
  pr_id : string;
  pr_info : propertyInfo;
  pr_createdAt : Z;
  pr_updatedAt : Z
}.

Record inspection_row := {
  in_id : string;
  in_fileId : string;
  in_userId : string;
  in_propertyId : option string;
  in_inspector : inspectorInfo;
  in_status : string;
  in_rawContent : string;
  in_extractedData : string;
  in_createdAt : Z;
  in_updatedAt : Z
}.

Record finding_row := {
  fr_inspectionId : string;
  fr_description : string;
  fr_severity : string;
  fr_category : string;
  fr_recommendation : option string;
  fr_estimatedCost : option N;
  fr_priority : string;
  fr_createdAt : Z;
  fr_updatedAt : Z
}.

(** The columns of a [files] row the worker writes. *)
Record file_row := {
  fl_status : string;
  fl_progress : option Z;
  fl_error : option string;
  fl_processedAt : option Z;
  fl_updatedAt : Z
}.

Record database := {
  properties : list property_row;
  inspections : list inspection_row;
  findings : list finding_row;
  files : gmap string file_row
}.

(** The worker's world: the committed store, the private copy of the
    open transaction if there is one, how many statements were sent and
    how often the clock was read, and the events sent to Socket.IO. *)
Record world := {
  committed : database;
  pending : option database;
  statements : nat;
  clock_reads : nat;
  emitted : list (string * list (string * jsval))
}.

Definition set_committed (d : database) (w : world) : world :=
  {| committed := d; pending := pending w; statements := statements w;
     clock_reads := clock_reads w; emitted := emitted w |}.
Definition set_pending (p : option database) (w : world) : world :=
  {| committed := committed w; pending := p; statements := statements w;
     clock_reads := clock_reads w; emitted := emitted w |}.
Definition next_statement (w : world) : world :=
  {| committed := committed w; pending := pending w; statements := S (statements w);
     clock_reads := clock_reads w; emitted := emitted w |}.
Definition next_clock_read (w : world) : world :=
  {| committed := committed w; pending := pending w; statements := statements w;
     clock_reads := S (clock_reads w); emitted := emitted w |}.
Definition add_emitted (e : string * list (string * jsval)) (w : world) : world :=
  {| committed := committed w; pending := pending w; statements := statements w;
     clock_reads := clock_reads w; emitted := emitted w ++ [e] |}.

Definition add_property (r : property_row) (d : database) : database :=
  {| properties := properties d ++ [r]; inspections := inspections d;
     findings := findings d; files := files d |}.
Definition add_inspection (r : inspection_row) (d : database) : database :=
  {| properties := properties d; inspections := inspections d ++ [r];
     findings := findings d; files := files d |}.
Definition add_findings (rs : list finding_row) (d : database) : database :=
  {| properties := properties d; inspections := inspections d;
     findings := findings d ++ rs; files := files d |}.
(** [UPDATE files SET ... WHERE id = fileId]: no row, no change. *)
Definition update_file (fileId : string) (f : file_row -> file_row) (d : database) : database :=
  {| properties := properties d; inspections := inspections d;
     findings := findings d; files := alter f fileId (files d) |}.

(** What the text parsers return for a path: an error message or the text
    (for a workbook, the text and the JSON of its data).  [readFile] and
    [pdfParse] are [fs.readFile] and the pdf-parse library. *)
Record parsers := {
  readFile : string -> string + string;
  pdfParse : string -> string + string;
  wordParser_parse : string -> string + string;
  excelParser_parse : string -> string + (string * string);
  ocrParser_parse : string -> string + string
}.

Record processedData := {
  content : string;
  extractedData : string;
  pd_propertyInfo : propertyInfo;
  pd_inspectorInfo : inspectorInfo;
  pd_findings : list finding
}.

Record saveResult := {
  sr_inspectionId : string;
  sr_propertyId : option string;
  sr_findingsCount : nat
}.

Record jobData := {
  jd_fileId : string;
  jd_userId : string;
  jd_filePath : string;
  jd_fileType : string;
  jd_originalName : string
}.

Record jobResult := {
  jr_success : bool;
  jr_fileId : string;
  jr_inspectionId : string;
  jr_propertyId : option string;
  jr_findingsCount : nat
}.

Section Worker.
Import Eff Eff.Notations.

(** The surroundings of one run: which statements the database refuses,
    the identifiers it generates, the clock, the parsers, [uuidv4],
    moment, and whether a Socket.IO instance was set ([globalIO]). *)
Variable db_fault : nat -> bool.
Variable db_new_id : nat -> string.
Variable clock : nat -> Z.
Variable ps : parsers.
Variable uuidv4 : nat -> string.
Variable moment_iso : string -> option string.
Variable globalIO : bool.

Abbreviation W := (M world).

(** [new Date()] *)
Definition new_Date : W Z :=
  w <- get ;; modify next_clock_read ;;; ret (clock (clock_reads w)).

(** A statement reaches the database: refused, or given a number. *)
Definition statement : W nat :=
  w <- get ;;
  modify next_statement ;;;
  if db_fault (statements w) then throw "database error" else ret (statements w).

(** [db.transaction()]: BEGIN, a private copy of the store. *)
Definition db_transaction : W unit :=
  statement ;;;
  modify (fun w => set_pending (Some (committed w)) w).

(** A statement inside the transaction changes its private copy. *)
Definition trx_run (f : nat -> database -> database) : W nat :=
  n <- statement ;;
  w <- get ;;
  match pending w with
  | Some d => modify (set_pending (Some (f n d))) ;;; ret n
  | None => throw "Transaction query already complete"
  end.

(** COMMIT installs the private copy; a refused COMMIT installs nothing. *)
Definition trx_commit : W unit :=
  statement ;;;
  w <- get ;;
  match pending w with
  | Some d => modify (fun w => set_pending None (set_committed d w))
  | None => throw "Transaction query already complete"
  end.

(** ROLLBACK drops the private copy, also when the statement is refused
    (the connection is then lost and the server aborts). *)
Definition trx_rollback : W unit :=
  modify (set_pending None) ;;;
  statement ;;;
  ret tt.

(** A statement outside any transaction acts on the committed store. *)
Definition db_run (f : database -> database) : W unit :=
  statement ;;;
  modify (fun w => set_committed (f (committed w)) w).

(** *** emitStatusUpdate *)
Definition emitStatusUpdate (event : string) (data : list (string * jsval)) : W unit :=
  if globalIO then
    t <- new_Date ;;
    modify (add_emitted (event, ("timestamp", JNum t) :: data))
  else ret tt.

Definition opt_num (o : option Z) : jsval :=
  match o with Some n => JNum n | None => JNull end.
Definition opt_str (o : option string) : jsval :=
  match o with Some s => JStr s | None => JNull end.

(** *** updateFileStatus: never throws, a failure is only logged. *)
Definition updateFileStatus (fileId status : string)
           (progress : option Z) (error : option string) : W unit :=
  try_catch
    (t <- new_Date ;;
     db_run (update_file fileId (fun r =>
       {| fl_status := status;
          fl_progress := match progress with Some p => Some p | None => fl_progress r end;
          fl_error := match error with Some e => Some e | None => fl_error r end;
          fl_processedAt := fl_processedAt r;
          fl_updatedAt := t |})) ;;;
     emitStatusUpdate "file-status-updated"
       [("fileId", JStr fileId); ("status", JStr status);
        ("progress", opt_num progress); ("error", opt_str error)])
    (fun _ => ret tt).

(** *** pdfParser.parse ([src/services/parsers/pdfParser.js]) *)
Definition pdfParser_parse (filePath : string) : W string :=
  match readFile ps filePath with
  | inl msg => throw ("Failed to parse PDF: " ++ msg)
  | inr dataBuffer =>
      match pdfParse ps dataBuffer with
      | inl msg => throw ("Failed to parse PDF: " ++ msg)
      | inr text => ret text
      end
  end.

Definition lift_parser {A} (r : string + A) : W A :=
  match r with
  | inl msg => throw msg
  | inr a => ret a
  end.

Definition one_of (s : string) (l : list string) : bool :=
  existsb (String.eqb s) l.

(** *** processFile *)
Definition processFile (filePath fileType : string) : W processedData :=
  let kind := toLowerCase fileType in
  ce <- (if one_of kind ["pdf"] then
           c <- pdfParser_parse filePath ;; ret (c, "{}")
         else if one_of kind ["docx"; "doc"] then
           c <- lift_parser (wordParser_parse ps filePath) ;; ret (c, "{}")
         else if one_of kind ["xlsx"; "xls"] then
           lift_parser (excelParser_parse ps filePath)
         else if one_of kind ["jpg"; "jpeg"; "png"; "tiff"; "bmp"] then
           c <- lift_parser (ocrParser_parse ps filePath) ;; ret (c, "{}")
         else throw ("Unsupported file type: " ++ fileType)) ;;
  let c := fst ce in
  ret {| content := c;
         extractedData := snd ce;
         pd_propertyInfo := extractPropertyInfo c;
         pd_inspectorInfo := extractInspectorInfo moment_iso c;
         pd_findings := extractFindings uuidv4 c |}.

(** [if (propertyInfo.address)]: neither [null] nor the empty text. *)
Definition truthy (o : option string) : bool :=
  match o with
  | Some s => negb (String.eqb s "")
  | None => false
  end.

Definition finding_row_of (inspectionId : string) (created updated : Z) (f : finding)
  : finding_row :=
  {| fr_inspectionId := inspectionId;
     fr_description := description f;
     fr_severity := severity f;
     fr_category := category f;
     fr_recommendation := recommendation f;
     fr_estimatedCost := estimatedCost f;
     fr_priority := priority f;
     fr_createdAt := created;
     fr_updatedAt := updated |}.

(** [findings.map(finding => ({ ..., createdAt: new Date(), updatedAt:
    new Date() }))]: the clock is read twice for each finding. *)
Fixpoint findingsToInsert (inspectionId : string) (fs : list finding) : W (list finding_row) :=
  match fs with
  | [] => ret []
  | f :: rest =>
      created <- new_Date ;;
      updated <- new_Date ;;
      rows <- findingsToInsert inspectionId rest ;;
      ret (finding_row_of inspectionId created updated f :: rows)
  end.

(** The statements between BEGIN and the end of the [try] block.  Every
    [createdAt], [updatedAt] and [processedAt] is a [new Date()] of its
    own, read when the object of the row is built. *)
Definition saveProcessedData_body (fileId userId : string) (d : processedData)
  : W saveResult :=
  propertyId <-
    (if truthy (address (pd_propertyInfo d)) then
       created <- new_Date ;;
       updated <- new_Date ;;
       n <- trx_run (fun n => add_property
              {| pr_id := db_new_id n; pr_info := pd_propertyInfo d;
                 pr_createdAt := created; pr_updatedAt := updated |}) ;;
       ret (Some (db_new_id n))
     else ret None) ;;
  created <- new_Date ;;
  updated <- new_Date ;;
  n <- trx_run (fun n => add_inspection
         {| in_id := db_new_id n; in_fileId := fileId; in_userId := userId;
            in_propertyId := propertyId; in_inspector := pd_inspectorInfo d;
            in_status := "completed"; in_rawContent := content d;
            in_extractedData := extractedData d;
            in_createdAt := created; in_updatedAt := updated |}) ;;
  let inspectionId := db_new_id n in
  (if (0 <? List.length (pd_findings d))%nat then
     rows <- findingsToInsert inspectionId (pd_findings d) ;;
     trx_run (fun _ => add_findings rows) ;;;
     ret tt
   else ret tt) ;;;
  processedAt <- new_Date ;;
  updatedAt <- new_Date ;;
  trx_run (fun _ => update_file fileId (fun r =>
    {| fl_status := "processed"; fl_progress := fl_progress r; fl_error := fl_error r;
       fl_processedAt := Some processedAt; fl_updatedAt := updatedAt |})) ;;;
  trx_commit ;;;
  ret {| sr_inspectionId := inspectionId;
         sr_propertyId := propertyId;
         sr_findingsCount := List.length (pd_findings d) |}.

(** *** saveProcessedData *)
Definition saveProcessedData (fileId userId : string) (d : processedData) : W saveResult :=
  db_transaction ;;;
  try_catch (saveProcessedData_body fileId userId d)
            (fun error => trx_rollback ;;; throw error).

(** *** processFileJob *)
Definition processFileJob (job : jobData) : W jobResult :=
  let fileId := jd_fileId job in
  try_catch
    (updateFileStatus fileId "processing" (Some 10%Z) None ;;;
     emitStatusUpdate "file-processing-started"
       [("fileId", JStr fileId); ("fileName", JStr (jd_originalName job));
        ("fileType", JStr (jd_fileType job))] ;;;
     updateFileStatus fileId "processing" (Some 30%Z) None ;;;
     d <- processFile (jd_filePath job) (jd_fileType job) ;;
     updateFileStatus fileId "processing" (Some 70%Z) None ;;;
     r <- saveProcessedData fileId (jd_userId job) d ;;
     updateFileStatus fileId "processed" (Some 100%Z) None ;;;
     emitStatusUpdate "file-processing-completed"
       [("fileId", JStr fileId); ("fileName", JStr (jd_originalName job));
        ("inspectionId", JStr (sr_inspectionId r));
        ("propertyId", opt_str (sr_propertyId r));
        ("findingsCount", JNum (Z.of_nat (sr_findingsCount r)))] ;;;
     ret {| jr_success := true; jr_fileId := fileId;
            jr_inspectionId := sr_inspectionId r;
            jr_propertyId := sr_propertyId r;
            jr_findingsCount := sr_findingsCount r |})
    (fun error =>
       updateFileStatus fileId "failed" None (Some error) ;;;
       emitStatusUpdate "file-processing-failed"
         [("fileId", JStr fileId); ("fileName", JStr (jd_originalName job));
          ("error", JStr error)] ;;;
       throw error).

End Worker.

(** ** The queues *)

Record backoffOptions := { backoff_type : string; backoff_delay : Z }.

Record jobOptions := {
  removeOnComplete : nat;
  removeOnFail : nat;
  attempts : nat;
  backoff : backoffOptions
}.

(** [defaultJobOptions] of [fileProcessingQueue] (and, identically, of
    [dataExtractionQueue]). *)
Definition defaultJobOptions : jobOptions :=
  {| removeOnComplete := 100;
     removeOnFail := 50;
     attempts := MAX_RETRIES;
     backoff := {| backoff_type := "exponential"; backoff_delay := 2000 |} |}.

(** The queue library (Bull 4, a dependency, not code of the repository)
    turns the [backoff] option into a delay in milliseconds from the
    number of attempts made so far: the built-in strategy [fixed] is the
    delay itself, [exponential] is [(2^attemptsMade - 1) * delay]. *)
Definition bull_backoff (b : backoffOptions) (attemptsMade : nat) : Z :=
  if String.eqb (backoff_type b) "exponential"
  then (2 ^ Z.of_nat attemptsMade - 1) * backoff_delay b
  else backoff_delay b.

(** What Bull does with a job whose handler threw, [attemptsMade] being
    the attempts before this one: it counts the attempt, and retries after
    the back-off while the count is below [attempts], else the job is
    moved to its failed set. *)
Inductive after_failure := RetryAfter (delay : Z) | MoveToFailed.

Definition bull_on_failure (o : jobOptions) (attemptsMade : nat) : after_failure :=
  let made := S attemptsMade in
  if (made <? attempts o)%nat then RetryAfter (bull_backoff (backoff o) made)
  else MoveToFailed.

End Processor.

(* ===================================================================== *)
(** * The job table ([migrations/004_create_processing_jobs_table.js]) *)
(* ===================================================================== *)

Module ProcessingJobs.

(** [table.enum('status', [...]).defaultTo('queued')] *)
Definition status_values : list string :=
  ["queued"; "active"; "completed"; "failed"; "delayed"].
Definition status_default : string := "queued".

(** A row, by the columns that carry the job's life cycle.  A column that
    is not [notNullable] may hold NULL ([None]). *)
Record job := {
  job_type : string;
  status : option string;
  priority : option Z;
  progress : option Z;
  attempts : option Z;
  max_attempts : option Z;
  error_message : option string
}.

(** The values of an INSERT: a column left out takes its default. *)
Record new_job := {
  nj_job_type : option string;
  nj_status : option (option string);
  nj_priority : option (option Z);
  nj_progress : option (option Z);
  nj_attempts : option (option Z);
  nj_max_attempts : option (option Z);
  nj_error_message : option string
}.

(** The columns an UPDATE sets. *)
Record job_update := {
  ju_status : option (option string);
  ju_progress : option (option Z);
  ju_attempts : option (option Z);
  ju_max_attempts : option (option Z);
  ju_error_message : option (option string)
}.

(** The enum is a CHECK on the column: NULL passes, any other value must
    be listed. *)
Definition status_ok (s : option string) : bool :=
  match s with
  | None => true
  | Some v => existsb (String.eqb v) status_values
  end.

(** [table.check('progress >= 0 AND progress <= 100')] *)
Definition progress_ok (p : option Z) : bool :=
  match p with
  | None => true
  | Some v => (0 <=? v)%Z && (v <=? 100)%Z
  end.

(** [table.string('job_type', 50).notNullable()] *)
Definition job_type_ok (t : string) : bool := (String.length t <=? 50)%nat.

Definition row_ok (j : job) : bool :=
  job_type_ok (job_type j) && status_ok (status j) && progress_ok (progress j).

Definition or_default {A} (given : option A) (default : A) : A :=
  match given with
  | Some a => a
  | None => default
  end.

Definition with_defaults (n : new_job) : option job :=
  match nj_job_type n with
  | None => None
  | Some t =>
      Some {| job_type := t;
              status := or_default (nj_status n) (Some status_default);
              priority := or_default (nj_priority n) (Some 0%Z);
              progress := or_default (nj_progress n) (Some 0%Z);
              attempts := or_default (nj_attempts n) (Some 0%Z);
              max_attempts := or_default (nj_max_attempts n) (Some 3%Z);
              error_message := nj_error_message n |}
  end.

Definition updated (u : job_update) (j : job) : job :=
  {| job_type := job_type j;
     status := or_default (ju_status u) (status j);
     priority := priority j;
     progress := or_default (ju_progress u) (progress j);
     attempts := or_default (ju_attempts u) (attempts j);
     max_attempts := or_default (ju_max_attempts u) (max_attempts j);
     error_message := or_default (ju_error_message u) (error_message j) |}.

(** The statements that change the table.  A statement the constraints
    refuse leaves the table as it was. *)
Inductive statement :=
| Insert (id : string) (n : new_job)
| Update (id : string) (u : job_update)
| Delete (id : string).

Definition run (st : statement) (t : gmap string job) : gmap string job :=
  match st with
  | Insert id n =>
      match t !! id, with_defaults n with
      | None, Some j => if row_ok j then <[id := j]> t else t
      | _, _ => t
      end
  | Update id u =>
      match t !! id with
      | Some j => if row_ok (updated u j) then <[id := updated u j]> t else t
      | None => t
      end
  | Delete id => delete id t
  end.

Definition run_all (sts : list statement) (t : gmap string job) : gmap string job :=
  fold_left (fun t st => run st t) sts t.

End ProcessingJobs.

(* ===================================================================== *)
(** * The webhook service ([src/services/webhookService.js]) *)
(* ===================================================================== *)

Module Webhook.
Import JS Eff Eff.Notations.

(** The constructor's settings. *)
Definition retryDelays : list Z := [1000; 5000; 15000; 60000; 300000]%Z.
Definition maxRetries : nat := 5.

Record deliveryStats := {
  total : nat;
  successful : nat;
  failed : nat;
  lastDelivery : option Z
}.

Record webhook := {
  id : string;
  url : string;
  events : list string;
  description : string;
  userId : string;
  secret : string;
  isActive : bool;
  createdAt : Z;
  lastTriggered : option Z;
  stats : deliveryStats
}.

Record payload := {
  p_event : string;
  p_timestamp : string;
  p_data : string;
  p_id : string
}.

(** A pending [setTimeout] of [scheduleRetry]: when it is due and the
    arguments its callback passes to [deliverWebhook]. *)
Record timer := {
  due : Z;
  t_webhook : nat;
  t_payload : payload;
  t_attempt : nat
}.

(** One POST as it leaves: the time, the target and the headers that vary. *)
Record request := {
  r_time : Z;
  r_url : string;
  r_signature : string;
  r_event : string;
  r_delivery : string;
  r_attempt : nat
}.

(** How the endpoint answers: after [latency] ms, a status, or an error of
    the transport (a refused connection, the 30 s timeout). *)
Record reply := {
  latency : nat;
  answer : string + Z
}.

Record deliveryResult := {
  dr_success : bool;
  dr_deliveryId : string;
  dr_statusCode : option Z;
  dr_deliveryTime : Z;
  dr_error : option string
}.

(** The service and what surrounds it.  Webhook objects live in [heap] and
    are shared by reference: the [Map] [webhooks] and the pending timers
    point to the same object, whose counters [deliverWebhook] updates in
    place. *)
Record world := {
  heap : gmap nat webhook;
  next_ref : nat;
  webhooks : gmap string nat;
  emitted : list (string * nat);
  randoms : nat;
  now : Z;
  timers : list timer;
  sent : list request;
  log : list string
}.

Definition set_heap (h : gmap nat webhook) (w : world) : world :=
  {| heap := h; next_ref := next_ref w; webhooks := webhooks w; emitted := emitted w;
     randoms := randoms w; now := now w; timers := timers w; sent := sent w; log := log w |}.
Definition set_next_ref (n : nat) (w : world) : world :=
  {| heap := heap w; next_ref := n; webhooks := webhooks w; emitted := emitted w;
     randoms := randoms w; now := now w; timers := timers w; sent := sent w; log := log w |}.
Definition set_webhooks (m : gmap string nat) (w : world) : world :=
  {| heap := heap w; next_ref := next_ref w; webhooks := m; emitted := emitted w;
     randoms := randoms w; now := now w; timers := timers w; sent := sent w; log := log w |}.
Definition set_emitted (l : list (string * nat)) (w : world) : world :=
  {| heap := heap w; next_ref := next_ref w; webhooks := webhooks w; emitted := l;
     randoms := randoms w; now := now w; timers := timers w; sent := sent w; log := log w |}.
Definition set_randoms (n : nat) (w : world) : world :=
  {| heap := heap w; next_ref := next_ref w; webhooks := webhooks w; emitted := emitted w;
     randoms := n; now := now w; timers := timers w; sent := sent w; log := log w |}.
Definition set_now (t : Z) (w : world) : world :=
  {| heap := heap w; next_ref := next_ref w; webhooks := webhooks w; emitted := emitted w;
     randoms := randoms w; now := t; timers := timers w; sent := sent w; log := log w |}.
Definition set_timers (l : list timer) (w : world) : world :=
  {| heap := heap w; next_ref := next_ref w; webhooks := webhooks w; emitted := emitted w;
     randoms := randoms w; now := now w; timers := l; sent := sent w; log := log w |}.
Definition set_sent (l : list request) (w : world) : world :=
  {| heap := heap w; next_ref := next_ref w; webhooks := webhooks w; emitted := emitted w;
     randoms := randoms w; now := now w; timers := timers w; sent := l; log := log w |}.
Definition set_log (l : list string) (w : world) : world :=
  {| heap := heap w; next_ref := next_ref w; webhooks := webhooks w; emitted := emitted w;
     randoms := randoms w; now := now w; timers := timers w; sent := sent w; log := l |}.

(** What a caller may pass as [url] and as [events]: text or something
    else ([undefined], [null], a number, ...); an array of event names or
    something else. *)
Inductive url_arg := UrlText (s : string) | UrlOther.
Inductive events_arg := EventsArray (l : list string) | EventsOther.

Record webhookData := {
  wd_url : url_arg;
  wd_events : events_arg;
  wd_description : option string;
  wd_userId : string;
  wd_secret : option string
}.

Section Service.

(** [crypto.randomBytes(n).toString('hex')] at its [k]-th call; the
    protocol [new URL(url)] finds, [None] when it throws; [JSON.stringify];
    HMAC-SHA256 in hex of a message under a key; the endpoint's answer to
    the [k]-th request. *)
Variable randomBytes_hex : nat -> nat -> string.
Variable new_URL : string -> option string.
Variable JSON_stringify : payload -> string.
Variable hmac_sha256_hex : string -> string -> string.
Variable axios_post : nat -> request -> reply.

Abbreviation W := (M world).

Definition random_hex (n : nat) : W string :=
  w <- get ;;
  modify (set_randoms (S (randoms w))) ;;;
  ret (randomBytes_hex (randoms w) n).

Definition generateWebhookId : W string := h <- random_hex 16 ;; ret ("wh_" ++ h).
Definition generateEventId : W string := h <- random_hex 16 ;; ret ("evt_" ++ h).
Definition generateDeliveryId : W string := h <- random_hex 16 ;; ret ("del_" ++ h).
Definition generateSecret : W string := random_hex 32.

(** [Date.now()] and [new Date()] *)
Definition Date_now : W Z := w <- get ;; ret (now w).

Definition console (level message : string) : W unit :=
  modify (fun w => set_log (log w ++ [level ++ ": " ++ message]) w).

(** *** isValidUrl
    For a value that is not text either [new URL] throws or [startsWith]
    is not a function; both land in the [catch]. *)
Definition isValidUrl (u : url_arg) : bool :=
  match u with
  | UrlText url =>
      match new_URL url with
      | Some _ => startsWith url "http://" || startsWith url "https://"
      | None => false
      end
  | UrlOther => false
  end.

Definition url_text (u : url_arg) : string :=
  match u with
  | UrlText s => s
  | UrlOther => ""
  end.

(** *** registerWebhook *)
Definition registerWebhook (data : webhookData) : W webhook :=
  secret <- match wd_secret data with
            | Some s => ret s
            | None => generateSecret
            end ;;
  if negb (isValidUrl (wd_url data)) then throw "Invalid webhook URL"
  else
    match wd_events data with
    | EventsArray (e :: es) =>
        webhookId <- generateWebhookId ;;
        t <- Date_now ;;
        let webhook :=
          {| id := webhookId;
             url := url_text (wd_url data);
             events := e :: es;
             description := match wd_description data with Some d => d | None => "" end;
             userId := wd_userId data;
             secret := secret;
             isActive := true;
             createdAt := t;
             lastTriggered := None;
             stats := {| total := 0; successful := 0; failed := 0; lastDelivery := None |} |} in
        w <- get ;;
        let r := next_ref w in
        modify (fun w => set_next_ref (S r) (set_heap (<[r := webhook]> (heap w)) w)) ;;;
        modify (fun w => set_webhooks (<[webhookId := r]> (webhooks w)) w) ;;;
        modify (fun w => set_emitted (emitted w ++ [("webhook:registered", r)]) w) ;;;
        ret webhook
    | _ => throw "At least one event must be specified"
    end.

(** *** createSignature *)
Definition createSignature (p : payload) (secret : string) : string :=
  hmac_sha256_hex secret (JSON_stringify p).

(** [retryDelays[i]]: [undefined] off the array. *)
Definition retryDelay_at (i : Z) : option Z :=
  if (i <? 0)%Z then None else retryDelays !! Z.to_nat i.

(** *** scheduleRetry
    [setTimeout] takes a missing delay as 1 ms. *)
Definition scheduleRetry (wh : nat) (p : payload) (attempt : nat) : W unit :=
  let delay :=
    retryDelay_at (Z.min (Z.of_nat attempt - 1) (Z.of_nat (List.length retryDelays) - 1)) in
  modify (fun w =>
    set_timers (timers w ++ [{| due := now w + match delay with Some d => d | None => 1 end;
                                t_webhook := wh; t_payload := p; t_attempt := attempt |}]) w).

Definition update_stats (wh : nat) (f : webhook -> webhook) : W unit :=
  modify (fun w => set_heap (alter f wh (heap w)) w).

Definition count_delivery (t : Z) (ok : bool) (touch : bool) (h : webhook) : webhook :=
  {| id := id h; url := url h; events := events h; description := description h;
     userId := userId h; secret := secret h; isActive := isActive h; createdAt := createdAt h;
     lastTriggered := if ok then Some t else lastTriggered h;
     stats := {| total := S (total (stats h));
                 successful := if ok then S (successful (stats h)) else successful (stats h);
                 failed := if ok then failed (stats h) else S (failed (stats h));
                 lastDelivery := if touch then Some t else lastDelivery (stats h) |} |}.

(** [axios.post] with [validateStatus: () => true]: any status is a
    response; only the transport throws. *)
Definition post (rq : request) : W Z :=
  w <- get ;;
  let rp := axios_post (List.length (sent w)) rq in
  modify (fun w => set_now (now w + Z.of_nat (latency rp)) (set_sent (sent w ++ [rq]) w)) ;;;
  match answer rp with
  | inr status => ret status
  | inl message => throw message
  end.

(** *** deliverWebhook *)
Definition deliverWebhook (wh : nat) (p : payload) (attempt : nat) : W deliveryResult :=
  deliveryId <- generateDeliveryId ;;
  startTime <- Date_now ;;
  w0 <- get ;;
  match heap w0 !! wh with
  | None => throw "TypeError"
  | Some webhook =>
      try_catch
        (let signature := createSignature p (secret webhook) in
         status <- post {| r_time := startTime; r_url := url webhook;
                           r_signature := signature; r_event := p_event p;
                           r_delivery := deliveryId; r_attempt := attempt + 1 |} ;;
         t <- Date_now ;;
         let deliveryTime := (t - startTime)%Z in
         if (200 <=? status)%Z && (status <? 300)%Z then
           update_stats wh (count_delivery t true true) ;;;
           console "log" "Webhook delivered successfully" ;;;
           ret {| dr_success := true; dr_deliveryId := deliveryId;
                  dr_statusCode := Some status; dr_deliveryTime := deliveryTime;
                  dr_error := None |}
         else
           update_stats wh (count_delivery t false true) ;;;
           console "warn" "Webhook delivery failed" ;;;
           when (attempt <? maxRetries)%nat (scheduleRetry wh p (attempt + 1)) ;;;
           ret {| dr_success := false; dr_deliveryId := deliveryId;
                  dr_statusCode := Some status; dr_deliveryTime := deliveryTime;
                  dr_error := Some ("HTTP " ++ Number_toString status) |})
        (fun error =>
           t <- Date_now ;;
           let deliveryTime := (t - startTime)%Z in
           update_stats wh (count_delivery t false false) ;;;
           console "error" "Webhook delivery error" ;;;
           when (attempt <? maxRetries)%nat (scheduleRetry wh p (attempt + 1)) ;;;
           ret {| dr_success := false; dr_deliveryId := deliveryId;
                  dr_statusCode := None; dr_deliveryTime := deliveryTime;
                  dr_error := Some error |})
  end.

(** ** The timers
    The earliest timer fires first, the older of two due together. *)
Fixpoint earliest (best : timer) (before after rest : list timer)
  : timer * list timer :=
  match rest with
  | [] => (best, (before ++ after)%list)
  | t :: rest' =>
      if (due t <? due best)%Z
      then earliest t (before ++ best :: after)%list [] rest'
      else earliest best before (after ++ [t])%list rest'
  end.

(** One turn of the event loop: the clock reaches the timer's due time and
    its callback runs [deliverWebhook]. *)
Definition fire_next : W unit :=
  w <- get ;;
  match timers w with
  | [] => ret tt
  | t :: rest =>
      let '(t1, others) := earliest t [] [] rest in
      modify (fun w => set_now (Z.max (now w) (due t1)) (set_timers others w)) ;;;
      try_catch (deliverWebhook (t_webhook t1) (t_payload t1) (t_attempt t1) ;;; ret tt)
                (fun _ => ret tt)
  end.

Fixpoint run_timers (turns : nat) : W unit :=
  match turns with
  | 0 => ret tt
  | S n =>
      w <- get ;;
      match timers w with
      | [] => ret tt
      | _ :: _ => fire_next ;;; run_timers n
      end
  end.

End Service.

End Webhook.

(* ===================================================================== *)
(** * The rate limiter (class [RateLimiter]) *)
(* ===================================================================== *)

Module RateLimiter.
Import JS Eff Eff.Notations.

Record tierConfig := {
  requests : Z;
  window : Z;
  files : Z;
  fileWindow : Z
}.

(** The entries of [this.tiers], the object literal of the constructor. *)
Definition tiers (tier : string) : option tierConfig :=
  if String.eqb tier "free" then
    Some {| requests := 100; window := 15 * 60; files := 10; fileWindow := 24 * 60 * 60 |}
  else if String.eqb tier "pro" then
    Some {| requests := 1000; window := 15 * 60; files := 100; fileWindow := 24 * 60 * 60 |}
  else if String.eqb tier "enterprise" then
    Some {| requests := 10000; window := 15 * 60; files := 1000; fileWindow := 24 * 60 * 60 |}
  else None.

(** The names an object literal inherits from [Object.prototype]. *)
Definition Object_prototype_names : list string :=
  ["constructor"; "__defineGetter__"; "__defineSetter__"; "hasOwnProperty";
   "__lookupGetter__"; "__lookupSetter__"; "isPrototypeOf"; "propertyIsEnumerable";
   "toString"; "valueOf"; "__proto__"; "toLocaleString"].

(** [this.tiers[name]]: the limits of a tier of the table; for an
    inherited name a function, or the prototype for [__proto__] -- a
    value that is truthy and has none of the fields of a tier; and
    [undefined] for any other name. *)
Inductive tier_entry := Limits (c : tierConfig) | Inherited | Undefined.

Definition tiers_at (name : string) : tier_entry :=
  match tiers name with
  | Some c => Limits c
  | None => if existsb (String.eqb name) Object_prototype_names then Inherited else Undefined
  end.

(** A Redis sorted set: its members with their scores (a member occurs
    once), and when the key expires.  The limiter's members are
    [now.toString()]; a member is kept as the integer it spells. *)
Record zkey := {
  entries : list (Z * Z);
  expires_at : option Z
}.

(** Redis as the limiter uses it, the clock (milliseconds, shared by
    [Date.now()] and the key expiry), counters of the primitive steps and
    of the Redis commands so far, and the console. *)
Record world := {
  zsets : gmap string zkey;
  strings : gmap string string;
  time : Z;
  steps : nat;
  commands : nat;
  log : list string
}.

Definition set_zsets (z : gmap string zkey) (w : world) : world :=
  {| zsets := z; strings := strings w; time := time w; steps := steps w;
     commands := commands w; log := log w |}.
Definition set_strings (s : gmap string string) (w : world) : world :=
  {| zsets := zsets w; strings := s; time := time w; steps := steps w;
     commands := commands w; log := log w |}.
Definition set_log (l : list string) (w : world) : world :=
  {| zsets := zsets w; strings := strings w; time := time w; steps := steps w;
     commands := commands w; log := l |}.
Definition next_command (w : world) : world :=
  {| zsets := zsets w; strings := strings w; time := time w; steps := steps w;
     commands := S (commands w); log := log w |}.
(** [ms] milliseconds pass. *)
Definition advance (ms : nat) (w : world) : world :=
  {| zsets := zsets w; strings := strings w; time := time w + Z.of_nat ms; steps := steps w;
     commands := commands w; log := log w |}.
Definition next_step (ms : nat) (w : world) : world :=
  {| zsets := zsets w; strings := strings w; time := time w + Z.of_nat ms; steps := S (steps w);
     commands := commands w; log := log w |}.

(** The entries of a key that has not expired ([[]] for no key). *)
Definition live (w : world) (key : string) : list (Z * Z) :=
  match zsets w !! key with
  | Some k =>
      match expires_at k with
      | Some e => if (e <? time w)%Z then [] else entries k
      | None => entries k
      end
  | None => []
  end.

Definition live_expiry (w : world) (key : string) : option Z :=
  match zsets w !! key with
  | Some k =>
      match expires_at k with
      | Some e => if (e <? time w)%Z then None else Some e
      | None => None
      end
  | None => None
  end.

(** Storing the entries of a key; a sorted set left empty is no key. *)
Definition store (key : string) (es : list (Z * Z)) (e : option Z) (w : world) : world :=
  match es with
  | [] => set_zsets (delete key (zsets w)) w
  | _ :: _ => set_zsets (<[key := {| entries := es; expires_at := e |}]> (zsets w)) w
  end.

(** A request: the authenticated user if any, and the addresses. *)
Record user := { user_id : string; role : string }.
Record request := {
  req_user : option user;
  req_ip : option string;
  remoteAddress : string
}.

Record details := {
  d_limit : Z;
  d_remaining : Z;
  d_reset : Z
}.

(** What a middleware does with the request: [next()], with the
    [X-RateLimit-*] headers it set if any; a 429 with its code and details;
    the 403 of the admin check. *)
Inductive response :=
| Next (headers : option details)
| TooMany (code : string) (d : details)
| Forbidden.

Record rateLimitInfo := {
  count : Z;
  reset : Z;
  info_window : Z
}.

Inductive bucket := Api | Files | WebhookBucket | Admin.

Section Limiter.

(** The run's surroundings: the milliseconds that pass just before the
    [n]-th primitive step, and whether the [n]-th Redis command throws. *)
Variable elapse : nat -> nat.
Variable fault : nat -> bool.

Abbreviation W := (M world).

Definition step : W unit :=
  modify (fun w => next_step (elapse (steps w)) w).

(** [Date.now()] *)
Definition Date_now : W Z := step ;;; w <- get ;; ret (time w).

(** A command reaches Redis, or throws. *)
Definition command : W unit :=
  step ;;;
  w <- get ;;
  modify next_command ;;;
  if fault (commands w) then throw "redis error" else ret tt.

Definition console_error (message : string) : W unit :=
  modify (fun w => set_log (log w ++ ["error: " ++ message]) w).

(** ** The Redis commands *)

Definition redis_get (key : string) : W (option string) :=
  command ;;; w <- get ;; ret (strings w !! key).

Definition redis_set (key value : string) : W unit :=
  command ;;; modify (fun w => set_strings (<[key := value]> (strings w)) w).

(** [ZRANGEBYSCORE key min +inf]: the members scored [min] or more (only
    their number is used, so they are left in stored order). *)
Definition redis_zrangebyscore (key : string) (min : Z) : W (list Z) :=
  command ;;;
  w <- get ;;
  ret (map fst (List.filter (fun e => (min <=? snd e)%Z) (live w key))).

(** [ZADD key score member]: the member takes the score, new or not. *)
Definition redis_zadd (key : string) (score member : Z) : W unit :=
  command ;;;
  modify (fun w =>
    store key (List.filter (fun e => negb (fst e =? member)%Z) (live w key) ++ [(member, score)])
          (live_expiry w key) w).

(** [ZREMRANGEBYSCORE key -inf max] *)
Definition redis_zremrangebyscore (key : string) (max : Z) : W unit :=
  command ;;;
  modify (fun w =>
    store key (List.filter (fun e => (max <? snd e)%Z) (live w key)) (live_expiry w key) w).

(** [EXPIRE key seconds]: nothing for a key that is not there. *)
Definition redis_expire (key : string) (seconds : Z) : W unit :=
  command ;;;
  modify (fun w => store key (live w key) (Some (time w + seconds * 1000)%Z) w).

(** ** The limiter's methods *)

Definition nonempty (s : string) : bool := negb (String.eqb s "").

(** *** getUserTier *)
Definition getUserTier (userId : option string) : W string :=
  match userId with
  | None => ret "free"
  | Some uid =>
      if nonempty uid then
        try_catch
          (tier <- redis_get ("user:" ++ uid ++ ":tier") ;;
           match tier with
           | Some t => ret (if nonempty t then t else "free")
           | None => ret "free"
           end)
          (fun _ => console_error "Error getting user tier" ;;; ret "free")
      else ret "free"
  end.

(** *** setUserTier *)
Definition setUserTier (userId tier : string) : W unit :=
  match tiers_at tier with
  | Undefined => throw ("Invalid tier: " ++ tier)
  | _ => redis_set ("user:" ++ userId ++ ":tier") tier
  end.

(** *** getRateLimitInfo *)
Definition getRateLimitInfo (key : string) (window : Z) : W rateLimitInfo :=
  now <- Date_now ;;
  let windowStart := (now - window * 1000)%Z in
  requests <- redis_zrangebyscore key windowStart ;;
  ret {| count := Z.of_nat (List.length requests);
         reset := (now + window * 1000)%Z;
         info_window := window |}.

(** *** isAllowed *)
Definition isAllowed (key : string) (limit window : Z) : W bool :=
  info <- getRateLimitInfo key window ;;
  ret (count info <? limit)%Z.

(** *** recordRequest *)
Definition recordRequest (key : string) (window : Z) : W unit :=
  now <- Date_now ;;
  let windowStart := (now - window * 1000)%Z in
  redis_zadd key now now ;;;
  redis_zremrangebyscore key windowStart ;;;
  redis_expire key window.

(** *** getRemaining *)
Definition getRemaining (key : string) (limit window : Z) : W Z :=
  info <- getRateLimitInfo key window ;;
  ret (Z.max 0 (limit - count info)).

(** *** generateKey *)
Definition generateKey (type identifier : string) : string :=
  "rate_limit:" ++ type ++ ":" ++ identifier.

(** *** getClientIdentifier *)
Definition getClientIdentifier (req : request) : string :=
  match req_user req with
  | Some u =>
      if nonempty (user_id u) then "user:" ++ user_id u
      else "ip:" ++ match req_ip req with
                    | Some ip => if nonempty ip then ip else remoteAddress req
                    | None => remoteAddress req
                    end
  | None =>
      "ip:" ++ match req_ip req with
               | Some ip => if nonempty ip then ip else remoteAddress req
               | None => remoteAddress req
               end
  end.

(** [this.tiers[userTier]] and the reads of its limits.  For a name that
    is no property of the object the read of a limit off [undefined]
    throws a [TypeError].  For an inherited name the limits read
    [undefined], and the call that takes them next -- in both middlewares
    and in [getUserUsage] it is [getRateLimitInfo(key, undefined)] --
    reads the clock, computes the window start [NaN] and asks Redis for
    the scores from [NaN] on, which Redis refuses ([ERR min or max is not a
    float]); that call is part of this case, as it is all that follows. *)
Definition tier_config (userTier : string) : W tierConfig :=
  match tiers_at userTier with
  | Limits c => ret c
  | Undefined => throw "TypeError: Cannot read properties of undefined"
  | Inherited => Date_now ;;; command ;;; throw "ERR min or max is not a float"
  end.

(** *** middleware *)
Definition middleware (req : request) : W response :=
  try_catch
    (let clientId := getClientIdentifier req in
     userTier <- getUserTier (option_map user_id (req_user req)) ;;
     tierConfig <- tier_config userTier ;;
     let apiKey := generateKey "api" clientId in
     isApiAllowed <- isAllowed apiKey (requests tierConfig) (window tierConfig) ;;
     if negb isApiAllowed then
       remaining <- getRemaining apiKey (requests tierConfig) (window tierConfig) ;;
       reset <- getRateLimitInfo apiKey (window tierConfig) ;;
       ret (TooMany "RATE_LIMIT_EXCEEDED"
              {| d_limit := requests tierConfig; d_remaining := remaining;
                 d_reset := RateLimiter.reset reset |})
     else
       recordRequest apiKey (window tierConfig) ;;;
       remaining <- getRemaining apiKey (requests tierConfig) (window tierConfig) ;;
       reset <- getRateLimitInfo apiKey (window tierConfig) ;;
       ret (Next (Some {| d_limit := requests tierConfig; d_remaining := remaining;
                          d_reset := RateLimiter.reset reset |})))
    (fun _ => console_error "Rate limiting error" ;;; ret (Next None)).

(** *** fileUploadMiddleware *)
Definition fileUploadMiddleware (req : request) : W response :=
  try_catch
    (let clientId := getClientIdentifier req in
     userTier <- getUserTier (option_map user_id (req_user req)) ;;
     tierConfig <- tier_config userTier ;;
     let fileKey := generateKey "files" clientId in
     isFileAllowed <- isAllowed fileKey (files tierConfig) (fileWindow tierConfig) ;;
     if negb isFileAllowed then
       remaining <- getRemaining fileKey (files tierConfig) (fileWindow tierConfig) ;;
       reset <- getRateLimitInfo fileKey (fileWindow tierConfig) ;;
       ret (TooMany "FILE_LIMIT_EXCEEDED"
              {| d_limit := files tierConfig; d_remaining := remaining;
                 d_reset := RateLimiter.reset reset |})
     else
       recordRequest fileKey (fileWindow tierConfig) ;;;
       ret (Next None))
    (fun _ => console_error "File upload rate limiting error" ;;; ret (Next None)).

(** *** webhookMiddleware *)
Definition webhookMiddleware (req : request) : W response :=
  try_catch
    (let clientId := getClientIdentifier req in
     let webhookKey := generateKey "webhook" clientId in
     allowed <- isAllowed webhookKey 100 (60 * 60) ;;
     if negb allowed then
       remaining <- getRemaining webhookKey 100 (60 * 60) ;;
       reset <- getRateLimitInfo webhookKey (60 * 60) ;;
       ret (TooMany "WEBHOOK_LIMIT_EXCEEDED"
              {| d_limit := 100; d_remaining := remaining;
                 d_reset := RateLimiter.reset reset |})
     else
       recordRequest webhookKey (60 * 60) ;;;
       ret (Next None))
    (fun _ => console_error "Webhook rate limiting error" ;;; ret (Next None)).

(** *** adminMiddleware *)
Definition adminMiddleware (req : request) : W response :=
  try_catch
    (match req_user req with
     | Some u =>
         if String.eqb (role u) "admin" then
           let clientId := getClientIdentifier req in
           let adminKey := generateKey "admin" clientId in
           allowed <- isAllowed adminKey 1000 (15 * 60) ;;
           if negb allowed then
             remaining <- getRemaining adminKey 1000 (15 * 60) ;;
             reset <- getRateLimitInfo adminKey (15 * 60) ;;
             ret (TooMany "ADMIN_LIMIT_EXCEEDED"
                    {| d_limit := 1000; d_remaining := remaining;
                       d_reset := RateLimiter.reset reset |})
           else
             recordRequest adminKey (15 * 60) ;;;
             ret (Next None)
         else ret Forbidden
     | None => ret Forbidden
     end)
    (fun _ => console_error "Admin rate limiting error" ;;; ret (Next None)).

(** ** Requests one after the other *)

Definition handle (b : bucket) (req : request) : W response :=
  match b with
  | Api => middleware req
  | Files => fileUploadMiddleware req
  | WebhookBucket => webhookMiddleware req
  | Admin => adminMiddleware req
  end.

(** A request arrives [wait] ms after the one before it was answered. *)
Record arrival := {
  wait : nat;
  to : bucket;
  req : request
}.

(** What became of an arrival: when it was handled and the answer.  A
    middleware never throws, so the [inl] case only keeps [serve] total. *)
Record served := {
  at_time : Z;
  arrived : arrival;
  answer : response
}.

Fixpoint serve (arrivals : list arrival) : W (list served) :=
  match arrivals with
  | [] => ret []
  | a :: rest =>
      modify (advance (wait a)) ;;;
      w <- get ;;
      r <- handle (to a) (req a) ;;
      others <- serve rest ;;
      ret ({| at_time := time w; arrived := a; answer := r |} :: others)
  end.

End Limiter.

End RateLimiter.

(* ===================================================================== *)
(** * Verified properties *)
(* ===================================================================== *)

(** ** Scenario S1 *)

Definition S1_address_line : string := "Address: 123 Main St, Anytown, CA 90210".
Definition S1_inspector_line : string := "Inspector: Jane Smith, License NY789012".
Definition S1_finding_line : string := "critical electrical hazard at main panel".

(** The raw text of the S1 document: the three lines, one per line. *)
Definition S1_text : string :=
  S1_address_line ++ String "010" (S1_inspector_line ++ String "010" S1_finding_line).


Local Open Scope list_scope.

(** The patterns of the worker are within the syntax [Regex.parse] reads. *)
Lemma worker_patterns_parse :
  forallb (fun p => match Regex.parse (Regex.source p) with Some _ => true | None => false end)
    (Processor.addressPatterns ++ [Processor.cityStateZipPattern]
     ++ Processor.propertyTypePatterns
     ++ [Processor.sqftPattern; Processor.yearPattern; Processor.bedroomPattern;
         Processor.bathroomPattern]
     ++ Processor.namePatterns ++ Processor.licensePatterns ++ Processor.companyPatterns
     ++ [Processor.phonePattern; Processor.emailPattern]
     ++ Processor.datePatterns ++ Processor.findingPatterns) = true.
Proof. vm_compute. reflexivity. Qed.

Lemma S1_text_contains_the_lines :
  JS.includes S1_text S1_address_line = true
  /\ JS.includes S1_text S1_inspector_line = true
  /\ JS.includes S1_text S1_finding_line = true.
Proof. vm_compute. repeat split; reflexivity. Qed.




(** With a trigger word in front, the third line is a finding; its
    severity label is [high]. *)
Lemma S1_finding_line_with_trigger uuidv4 :
  Processor.extractFindings uuidv4 ("Finding: " ++ S1_finding_line)%string =
    [{| Processor.id := uuidv4 0;
        Processor.description := "critical electrical hazard at main panel";
        Processor.severity := "high";
        Processor.category := "electrical";
        Processor.recommendation := None;
        Processor.estimatedCost := None;
        Processor.priority := "medium" |}].
Proof. vm_compute. reflexivity. Qed.

(** ** Persistence of one processed file *)

Section Persistence.
Import Processor Eff.

Variable db_fault : nat -> bool.
Variable db_new_id : nat -> string.
Variable clock : nat -> Z.

(** The [files] row of a processed file after the transaction. *)
Definition marked_processed (processedAt updatedAt : Z) (r : file_row) : file_row :=
  {| fl_status := "processed"; fl_progress := fl_progress r; fl_error := fl_error r;
     fl_processedAt := Some processedAt; fl_updatedAt := updatedAt |}.

(** The rows of the findings, stamped with the readings of the clock from
    the [c]-th on, two for each finding. *)
Fixpoint stamped_findings (inspectionId : string) (c : nat) (fs : list finding)
  : list finding_row :=
  match fs with
  | [] => []
  | f :: rest =>
      finding_row_of inspectionId (clock c) (clock (S c)) f
        :: stamped_findings inspectionId (S (S c)) rest
  end.

(** The store [after] holds, on top of [before], exactly what one call of
    [saveProcessedData] writes for [d] and returns as [r], when the clock
    had been read [c] times before: every time stamp is a reading of its
    own, in the order the rows are built. *)
Definition fully_written (fileId userId : string) (d : processedData) (r : saveResult)
           (c : nat) (before after : database) : Prop :=
  let c1 := if truthy (address (pd_propertyInfo d)) then S (S c) else c in
  let c2 := S (S c1) in
  let c3 := 2 * List.length (pd_findings d) + c2 in
  properties after =
    properties before ++
      match sr_propertyId r with
      | Some pid => [{| pr_id := pid; pr_info := pd_propertyInfo d;
                        pr_createdAt := clock c; pr_updatedAt := clock (S c) |}]
      | None => []
      end
  /\ (sr_propertyId r = None <-> truthy (address (pd_propertyInfo d)) = false)
  /\ inspections after =
       inspections before ++
         [{| in_id := sr_inspectionId r; in_fileId := fileId; in_userId := userId;
             in_propertyId := sr_propertyId r; in_inspector := pd_inspectorInfo d;
             in_status := "completed"; in_rawContent := content d;
             in_extractedData := extractedData d;
             in_createdAt := clock c1; in_updatedAt := clock (S c1) |}]
  /\ findings after =
       findings before ++ stamped_findings (sr_inspectionId r) c2 (pd_findings d)
  /\ files after = alter (marked_processed (clock c3) (clock (S c3))) fileId (files before)
  /\ sr_findingsCount r = List.length (pd_findings d).

(** The statements one call sends when none is refused: BEGIN, the
    inserts, the update and COMMIT. *)
Definition statements_sent (d : processedData) : nat :=
  (if truthy (address (pd_propertyInfo d)) then 1 else 0)
  + (if (0 <? List.length (pd_findings d))%nat then 1 else 0)
  + 4.

Definition read_clock (n : nat) (w : world) : world :=
  {| committed := committed w; pending := pending w; statements := statements w;
     clock_reads := n + clock_reads w; emitted := emitted w |}.

Lemma findingsToInsert_run (inspectionId : string) (fs : list finding) (w : world) :
  findingsToInsert clock inspectionId fs w
  = (inr (stamped_findings inspectionId (clock_reads w) fs),
     read_clock (2 * List.length fs) w).
Proof.
  revert w. induction fs as [|f fs IH]; intros w.
  - destruct w; reflexivity.
  - cbn [findingsToInsert stamped_findings List.length].
    unfold new_Date. unfold bind, get, modify, ret. rewrite IH.
    cbn [clock_reads next_clock_read]. f_equal. unfold read_clock.
    cbn [committed pending statements clock_reads emitted next_clock_read].
    f_equal. lia.
Qed.

Ltac run_worker :=
  unfold saveProcessedData, saveProcessedData_body, db_transaction, trx_run, trx_commit,
    trx_rollback, db_run, statement, new_Date;
  unfold bind, ret, get, modify, throw, try_catch;
  cbn [committed pending statements clock_reads emitted set_pending set_committed
       next_statement next_clock_read add_emitted read_clock fst snd];
  rewrite ?findingsToInsert_run;
  cbn [committed pending statements clock_reads emitted set_pending set_committed
       next_statement next_clock_read add_emitted read_clock fst snd].

Ltac split_faults :=
  repeat (first [ rewrite findingsToInsert_run
                | match goal with
                  | |- context [db_fault ?n] =>
                      let F := fresh "F" in destruct (db_fault n) eqn:F
                  end ];
          cbn [committed pending statements clock_reads emitted set_pending set_committed
               next_statement next_clock_read add_emitted read_clock fst snd]).

(** What [saveProcessedData] does, statement by statement. *)
Lemma saveProcessedData_outcome (fileId userId : string) (d : processedData) (w : world) :
  match saveProcessedData db_fault db_new_id clock fileId userId d w with
  | (inr r, w') =>
      fully_written fileId userId d r (clock_reads w) (committed w) (committed w')
      /\ pending w' = None
      /\ forall n, statements w <= n < statements w + statements_sent d -> db_fault n = false
  | (inl _, w') =>
      committed w' = committed w
      /\ exists n, statements w <= n < statements w + statements_sent d /\ db_fault n = true
  end.
Proof.
  unfold fully_written, statements_sent.
  destruct (truthy (address (pd_propertyInfo d))) eqn:Ha;
    destruct (pd_findings d) as [|f fs] eqn:Hf;
    run_worker; rewrite ?Ha, ?Hf; cbn [List.length Nat.ltb Nat.leb];
    run_worker; split_faults;
    try (match goal with
         | F : db_fault ?k = true |- _ =>
             split; [reflexivity | exists k; split; [lia | exact F]]
         end);
    (split; [|split; [reflexivity|]]).
  all: try (intros n Hn;
            repeat match goal with
                   | F : db_fault ?k = false |- _ =>
                       destruct (Nat.eq_dec n k) as [Heq|]; [rewrite Heq; exact F|]; clear F
                   end; lia).
  all: cbn [sr_propertyId sr_inspectionId sr_findingsCount properties inspections findings
            files add_property add_inspection add_findings update_file map List.length
            stamped_findings];
    rewrite ?app_nil_r;
    repeat split; try reflexivity; try congruence; auto.
Qed.

(** C8. [saveProcessedData] is all or nothing.  When it returns, the
    property row (if an address was extracted), the inspection row, every
    finding row and the update of the file's row are committed together,
    each time stamp a clock reading of its own; when it throws --
    whichever statement, BEGIN, COMMIT or ROLLBACK included, was refused --
    the committed store is what it was.  And it returns exactly when the
    database refuses none of the statements the call sends. *)
Theorem saveProcessedData_atomic (fileId userId : string) (d : processedData) (w : world) :
  match saveProcessedData db_fault db_new_id clock fileId userId d w with
  | (inr r, w') =>
      fully_written fileId userId d r (clock_reads w) (committed w) (committed w')
      /\ pending w' = None
  | (inl _, w') => committed w' = committed w
  end
  /\ ((exists r w', saveProcessedData db_fault db_new_id clock fileId userId d w = (inr r, w'))
      <-> (forall n, statements w <= n < statements w + statements_sent d ->
                     db_fault n = false)).
Proof.
  pose proof (saveProcessedData_outcome fileId userId d w) as H.
  destruct (saveProcessedData db_fault db_new_id clock fileId userId d w) as [[e|r] w'].
  - destruct H as (Hc & n & Hn & Hf). split; [exact Hc|]. split.
    + intros (r & w'' & [=]).
    + intros Hall. rewrite (Hall n Hn) in Hf. discriminate.
  - destruct H as (Hw & Hp & Hall). split; [split; assumption|]. split.
    + intros _. exact Hall.
    + intros _. eauto.
Qed.

End Persistence.

(** ** Scenario S1 through the worker *)

Section S1.
Import Processor Eff.

Variable db_new_id : nat -> string.
Variable clock : nat -> Z.
Variable ps : parsers.
Variable uuidv4 : nat -> string.
Variable moment_iso : string -> option string.
Variable globalIO : bool.

Lemma bind_returns {A B} (c : M world A) (k : A -> M world B) (a : A) (w w' : world) :
  c w = (inr a, w') -> bind c k w = k a w'.
Proof. intros E. unfold bind. rewrite E. reflexivity. Qed.


(** An event sent to Socket.IO leaves the store alone. *)
Lemma emitStatusUpdate_run (event : string) (data : list (string * jsval)) (w : world) :
  exists w',
    emitStatusUpdate clock globalIO event data w = (inr tt, w')
    /\ committed w' = committed w.
Proof.
  unfold emitStatusUpdate, new_Date, bind, ret, get, modify.
  destruct globalIO; eexists; split; reflexivity.
Qed.

(** With a database that refuses nothing, [updateFileStatus] updates the
    file's row. *)
Lemma updateFileStatus_run (fileId status : string) (progress : option Z)
      (error : option string) (w : world) :
  exists w' t,
    updateFileStatus (fun _ => false) clock globalIO fileId status progress error w
      = (inr tt, w')
    /\ committed w' =
         update_file fileId (fun r =>
           {| fl_status := status;
              fl_progress := match progress with Some p => Some p | None => fl_progress r end;
              fl_error := match error with Some e => Some e | None => fl_error r end;
              fl_processedAt := fl_processedAt r;
              fl_updatedAt := t |}) (committed w).
Proof.
  unfold updateFileStatus, emitStatusUpdate, db_run, statement, new_Date.
  unfold bind, ret, get, modify, throw, try_catch.
  destruct globalIO; eexists _, _; split; reflexivity.
Qed.


End S1.

Definition S1_parsers : Processor.parsers :=
  {| Processor.readFile := fun _ => inr "%PDF-1.4";
     Processor.pdfParse := fun _ => inr S1_text;
     Processor.wordParser_parse := fun _ => inl "not a document";
     Processor.excelParser_parse := fun _ => inl "not a workbook";
     Processor.ocrParser_parse := fun _ => inl "not an image" |}.

Definition S1_job : Processor.jobData :=
  {| Processor.jd_fileId := "file-1"; Processor.jd_userId := "user-1";
     Processor.jd_filePath := "uploads/report.pdf"; Processor.jd_fileType := "pdf";
     Processor.jd_originalName := "report.pdf" |}.

Definition S1_world : Processor.world :=
  {| Processor.committed :=
       {| Processor.properties := []; Processor.inspections := [];
          Processor.findings := [];
          Processor.files :=
            {[ "file-1" := {| Processor.fl_status := "uploaded";
                              Processor.fl_progress := None; Processor.fl_error := None;
                              Processor.fl_processedAt := None;
                              Processor.fl_updatedAt := 0 |} ]} |};
     Processor.pending := None;
     Processor.statements := 0;
     Processor.clock_reads := 0;
     Processor.emitted := [] |}.

(** ** The severity of a finding *)

Section Severity.
Import Processor.

(** The classifier in the words of the specification: its keyword table,
    its labels, and [informational] when no keyword occurs. *)
Definition spec_severityKeywords : list (string * list string) := [
  ("critical", ["critical"; "urgent"; "hazard"; "danger"; "emergency"; "immediate"]);
  ("major", ["moderate"; "concern"; "issue"; "problem"; "attention"]);
  ("minor", ["minor"; "cosmetic"; "maintenance"; "suggestion"])
].

Definition spec_severity (descr : string) : string :=
  classify spec_severityKeywords "informational" descr.

Definition high_keywords : list string :=
  ["critical"; "urgent"; "safety"; "hazard"; "danger"; "emergency"; "immediate"].
Definition medium_keywords : list string :=
  ["moderate"; "attention"; "concern"; "issue"; "problem"].
Definition low_keywords : list string :=
  ["minor"; "cosmetic"; "maintenance"; "suggestion"; "recommendation"].

(** A keyword of the list occurs in the description, whatever the case of
    its letters. *)
Definition mentions (descr : string) (keywords : list string) : Prop :=
  exists keyword, In keyword keywords /\ JS.includes (JS.toLowerCase descr) keyword = true.

Lemma some_keyword_mentions (descr : string) (keywords : list string) :
  some_keyword descr keywords = true <-> mentions descr keywords.
Proof.
  unfold some_keyword, mentions. rewrite existsb_exists. reflexivity.
Qed.

Lemma some_keyword_silent (descr : string) (keywords : list string) :
  some_keyword descr keywords = false <-> ~ mentions descr keywords.
Proof.
  rewrite <- some_keyword_mentions. destruct (some_keyword descr keywords); split; congruence.
Qed.

(** The first hit decides, in the order high, medium, low; no hit leaves
    the default, which is [medium]. *)
Lemma severity_of_first_hit (descr : string) :
  (mentions descr high_keywords -> severity_of descr = "high")
  /\ (~ mentions descr high_keywords -> mentions descr medium_keywords ->
      severity_of descr = "medium")
  /\ (~ mentions descr high_keywords -> ~ mentions descr medium_keywords ->
      mentions descr low_keywords -> severity_of descr = "low")
  /\ (~ mentions descr high_keywords -> ~ mentions descr medium_keywords ->
      ~ mentions descr low_keywords -> severity_of descr = "medium").
Proof.
  unfold severity_of, severityKeywords. cbn [classify].
  fold high_keywords medium_keywords low_keywords.
  repeat split; intros;
    repeat match goal with
           | H : mentions _ _ |- _ => apply some_keyword_mentions in H; rewrite H
           | H : ~ mentions _ _ |- _ => apply some_keyword_silent in H; rewrite H
           end; reflexivity.
Qed.

Lemma make_finding_severity (new_id : string) (mt : nat -> string) :
  severity (make_finding new_id mt) = severity_of (description (make_finding new_id mt)).
Proof. reflexivity. Qed.

Lemma extractFindings_severity (uuidv4 : nat -> string) (content : string) (f : finding) :
  In f (extractFindings uuidv4 content) -> severity f = severity_of (description f).
Proof.
  unfold extractFindings.
  generalize (concat (map (Regex.str_matchAll content) findingPatterns)) as ms.
  intros ms. revert uuidv4.
  induction ms as [|mt ms IH]; intros uuidv4 Hin; [contradiction|].
  cbn [imap] in Hin. destruct Hin as [<- | Hin].
  - apply make_finding_severity.
  - rewrite <- list_elem_of_In in Hin.
    apply (IH (fun n => uuidv4 (S n))).
    rewrite <- list_elem_of_In.
    erewrite imap_ext; [exact Hin|]. reflexivity.
Qed.

(** C4, as the worker has it.  The severity of every extracted finding is
    the first hit over the worker's table: critical, urgent, safety,
    hazard, danger, emergency, immediate give [high]; else moderate,
    attention, concern, issue, problem give [medium]; else minor, cosmetic,
    maintenance, suggestion, recommendation give [low]; a description with
    none of them keeps the default [medium]. *)
Theorem finding_severity_first_hit
        (uuidv4 : nat -> string) (content : string) (f : finding) :
  In f (extractFindings uuidv4 content) ->
  (mentions (description f) high_keywords -> severity f = "high")
  /\ (~ mentions (description f) high_keywords -> mentions (description f) medium_keywords ->
      severity f = "medium")
  /\ (~ mentions (description f) high_keywords -> ~ mentions (description f) medium_keywords ->
      mentions (description f) low_keywords -> severity f = "low")
  /\ (~ mentions (description f) high_keywords -> ~ mentions (description f) medium_keywords ->
      ~ mentions (description f) low_keywords -> severity f = "medium").
Proof.
  intros Hin. rewrite (extractFindings_severity _ _ _ Hin).
  apply severity_of_first_hit.
Qed.

End Severity.

Definition a_finding : Processor.finding :=
  {| Processor.id := "uuid";
     Processor.description := "critical electrical hazard at main panel";
     Processor.severity := "high";
     Processor.category := "electrical";
     Processor.recommendation := None;
     Processor.estimatedCost := None;
     Processor.priority := "medium" |}.

Lemma finding_severity_first_hit_witness :
  In a_finding
     (Processor.extractFindings (fun _ => "uuid") ("Finding: " ++ S1_finding_line)%string)
  /\ (mentions (Processor.description a_finding) high_keywords ->
      Processor.severity a_finding = "high").
Proof.
  assert (H : In a_finding
                (Processor.extractFindings (fun _ => "uuid")
                   ("Finding: " ++ S1_finding_line)%string)).
  { rewrite S1_finding_line_with_trigger. left. reflexivity. }
  split; [exact H|].
  exact (proj1 (finding_severity_first_hit (fun _ => "uuid") _ a_finding H)).
Defined.

(** C4 as stated fails.  A description without any keyword is classified
    as the worker classifies "moderate ..." (the default is its middle
    label, not a fourth one), where the specification's table answers
    [informational]; and "safety", absent from the specification's table,
    puts a finding in the worker's top class. *)
Lemma severity_differs_from_spec :
  Processor.extractFindings (fun _ => "uuid") "Defect: loose handrail on stairs"
    = [{| Processor.id := "uuid";
          Processor.description := "loose handrail on stairs";
          Processor.severity := "medium";
          Processor.category := "general";
          Processor.recommendation := None;
          Processor.estimatedCost := None;
          Processor.priority := "medium" |}]
  /\ spec_severity "loose handrail on stairs" = "informational"
  /\ Processor.severity_of "loose handrail on stairs"
       = Processor.severity_of "moderate crack in slab"
  /\ spec_severity "loose handrail on stairs" <> spec_severity "moderate crack in slab"
  /\ Processor.severity_of "safety glass missing" = Processor.severity_of "urgent"
  /\ spec_severity "safety glass missing" <> spec_severity "urgent".
Proof. vm_compute. repeat split; try reflexivity; discriminate. Qed.

(** ** Retries of a failed job *)

Section JobBackoff.
Import Processor.

(** The retry schedule in the words of the specification: the base delay
    of retry [k], and the interval the jittered delay lies in. *)
Definition spec_base_delays : list Z := [1000; 5000; 15000; 60000; 300000]%Z.

Definition spec_base_delay (k : nat) : Z :=
  nth (Nat.min (k - 1) 4) spec_base_delays 0%Z.

Definition spec_delay_range (k : nat) (delay : Z) : Prop :=
  (spec_base_delay k <= delay <= spec_base_delay k + spec_base_delay k / 5)%Z.

(** C6, as the worker has it.  Both queues take [attempts: 3] and an
    exponential back-off of 2000 ms without jitter: after its [k]-th
    failed attempt ([k] = 1, 2) a job is retried after [(2^k - 1) * 2000]
    ms, that is 2 s before attempt 2 and 6 s before attempt 3 -- at least
    1 s and at least 5 s --, and after the third failed attempt it is not
    retried. *)
Theorem job_retry_delays :
  attempts defaultJobOptions = 3
  /\ bull_on_failure defaultJobOptions 0 = RetryAfter 2000
  /\ bull_on_failure defaultJobOptions 1 = RetryAfter 6000
  /\ (forall made : nat, 2 <= made -> bull_on_failure defaultJobOptions made = MoveToFailed)
  /\ (forall (made : nat) (delay : Z),
        bull_on_failure defaultJobOptions made = RetryAfter delay ->
        delay = ((2 ^ Z.of_nat (S made) - 1) * 2000)%Z
        /\ (made = 0 -> (1000 <= delay)%Z)
        /\ (made = 1 -> (5000 <= delay)%Z)).
Proof.
  split; [reflexivity|]. split; [reflexivity|]. split; [reflexivity|]. split.
  - intros made Hm. unfold bull_on_failure.
    cbn [attempts defaultJobOptions]. unfold MAX_RETRIES.
    destruct (Nat.ltb_spec (S made) 3); [lia | reflexivity].
  - intros made delay. unfold bull_on_failure.
    cbn [attempts defaultJobOptions backoff]. unfold MAX_RETRIES.
    destruct (Nat.ltb_spec (S made) 3) as [Hlt|Hge]; [|discriminate].
    intros [= <-].
    unfold bull_backoff. cbn [backoff_type backoff_delay String.eqb Ascii.eqb Bool.eqb].
    split; [reflexivity|].
    split; intros ->; vm_compute; discriminate.
Qed.

(** C6 as stated fails: the delay before attempt 2 is 2000 ms, outside
    the 1000 to 1200 ms that the first entry of the schedule with at most
    20 % of jitter allows. *)
Lemma job_retry_delay_outside_spec_range :
  bull_on_failure defaultJobOptions 0 = RetryAfter 2000
  /\ ~ spec_delay_range 1 2000.
Proof.
  split; [reflexivity|].
  unfold spec_delay_range. vm_compute. intros [_ H]. apply H. reflexivity.
Qed.

End JobBackoff.

(** ** The states of a job row *)

Section JobStates.
Import ProcessingJobs.

(** Every row satisfies the constraints of the table. *)
Definition table_ok (t : gmap string job) : Prop :=
  forall id j, t !! id = Some j -> row_ok j = true.

Lemma run_keeps_table_ok (st : statement) (t : gmap string job) :
  table_ok t -> table_ok (run st t).
Proof.
  intros Ht. destruct st as [id n | id u | id]; cbn [run].
  - destruct (t !! id) eqn:E; [exact Ht|].
    destruct (with_defaults n) as [j|]; [|exact Ht].
    destruct (row_ok j) eqn:Hj; [|exact Ht].
    intros id' j' H. destruct (decide (id = id')) as [<-|Hne].
    + rewrite lookup_insert_eq in H. congruence.
    + rewrite lookup_insert_ne in H by exact Hne. eauto.
  - destruct (t !! id) as [j|] eqn:E; [|exact Ht].
    destruct (row_ok (updated u j)) eqn:Hj; [|exact Ht].
    intros id' j' H. destruct (decide (id = id')) as [<-|Hne].
    + rewrite lookup_insert_eq in H. congruence.
    + rewrite lookup_insert_ne in H by exact Hne. eauto.
  - intros id' j' H. destruct (decide (id = id')) as [<-|Hne].
    + rewrite lookup_delete_eq in H. discriminate.
    + rewrite lookup_delete_ne in H by exact Hne. eauto.
Qed.

Lemma run_all_keeps_table_ok (sts : list statement) (t : gmap string job) :
  table_ok t -> table_ok (run_all sts t).
Proof.
  revert t. induction sts as [|st sts IH]; intros t Ht; [exact Ht|].
  apply IH, run_keeps_table_ok, Ht.
Qed.

Lemma status_ok_values (s : string) :
  status_ok (Some s) = true ->
  In s ["queued"; "active"; "completed"; "failed"; "delayed"].
Proof.
  unfold status_ok, status_values. rewrite existsb_exists.
  intros (v & Hv & E). apply String.eqb_eq in E. subst v. exact Hv.
Qed.

(** C5, as the table has it.  Whatever statements were run on the job
    table, the status of every row is NULL or one of queued, active,
    completed, failed, delayed; a row inserted without a status is
    [queued]; and [dead] is not among the statuses: a statement that would
    store it changes nothing. *)
Theorem job_status_values (sts : list statement) (id : string) (j : job) :
  run_all sts ∅ !! id = Some j ->
  (status j = None
   \/ exists s, status j = Some s
                /\ In s ["queued"; "active"; "completed"; "failed"; "delayed"])
  /\ status j <> Some "dead"
  /\ (forall (t : gmap string job) (id' : string) (u : job_update),
        ju_status u = Some (Some "dead") -> run (Update id' u) t = t)
  /\ (forall n j', nj_status n = None -> with_defaults n = Some j' -> status j' = Some "queued").
Proof.
  intros Hj.
  assert (Hok : row_ok j = true).
  { eapply (run_all_keeps_table_ok sts ∅); [|exact Hj].
    intros id' j' H. rewrite lookup_empty in H. discriminate. }
  unfold row_ok in Hok. apply andb_true_iff in Hok as [Hok _].
  apply andb_true_iff in Hok as [_ Hst].
  split; [|split; [|split]].
  - destruct (status j) as [s|]; [right|left; reflexivity].
    exists s. split; [reflexivity|]. apply status_ok_values, Hst.
  - intros E. rewrite E in Hst. vm_compute in Hst. discriminate.
  - intros t id' u Hu. cbn [run]. destruct (t !! id') as [j0|]; [|reflexivity].
    assert (E : row_ok (updated u j0) = false).
    { unfold row_ok, updated. cbn [status]. rewrite Hu. cbn [or_default].
      replace (status_ok (Some "dead")) with false by (vm_compute; reflexivity).
      rewrite andb_false_r. reflexivity. }
    rewrite E. reflexivity.
  - intros n j' Hn Hd. unfold with_defaults in Hd.
    destruct (nj_job_type n); [|discriminate].
    injection Hd as <-. cbn [status]. rewrite Hn. reflexivity.
Qed.

End JobStates.

Definition a_new_job : ProcessingJobs.new_job :=
  {| ProcessingJobs.nj_job_type := Some "process-file";
     ProcessingJobs.nj_status := None;
     ProcessingJobs.nj_priority := None;
     ProcessingJobs.nj_progress := None;
     ProcessingJobs.nj_attempts := None;
     ProcessingJobs.nj_max_attempts := None;
     ProcessingJobs.nj_error_message := None |}.

Definition set_status (s : string) : ProcessingJobs.job_update :=
  {| ProcessingJobs.ju_status := Some (Some s);
     ProcessingJobs.ju_progress := None;
     ProcessingJobs.ju_attempts := None;
     ProcessingJobs.ju_max_attempts := None;
     ProcessingJobs.ju_error_message := None |}.

Definition a_queued_job : ProcessingJobs.job :=
  {| ProcessingJobs.job_type := "process-file";
     ProcessingJobs.status := Some "queued";
     ProcessingJobs.priority := Some 0%Z;
     ProcessingJobs.progress := Some 0%Z;
     ProcessingJobs.attempts := Some 0%Z;
     ProcessingJobs.max_attempts := Some 3%Z;
     ProcessingJobs.error_message := None |}.

Lemma job_status_values_witness :
  ProcessingJobs.run_all [ProcessingJobs.Insert "job-1" a_new_job] ∅ !! "job-1"
    = Some a_queued_job
  /\ ProcessingJobs.status a_queued_job <> Some "dead".
Proof.
  assert (H : ProcessingJobs.run_all [ProcessingJobs.Insert "job-1" a_new_job] ∅ !! "job-1"
              = Some a_queued_job) by (vm_compute; reflexivity).
  split; [exact H|].
  exact (proj1 (proj2 (job_status_values _ _ _ H))).
Defined.

(** C5 as stated fails on the table: a job can be [delayed], which is not
    one of the five states of the claim, and it cannot be [dead]: the row
    keeps the status it had. *)
Lemma job_can_be_delayed_not_dead :
  ProcessingJobs.status
    <$> (ProcessingJobs.run_all
           [ProcessingJobs.Insert "job-1" a_new_job;
            ProcessingJobs.Update "job-1" (set_status "delayed")] ∅ !! "job-1")
    = Some (Some "delayed")
  /\ ~ In "delayed" ["queued"; "active"; "completed"; "failed"; "dead"]
  /\ ProcessingJobs.status
       <$> (ProcessingJobs.run_all
              [ProcessingJobs.Insert "job-1" a_new_job;
               ProcessingJobs.Update "job-1" (set_status "active");
               ProcessingJobs.Update "job-1" (set_status "dead")] ∅ !! "job-1")
       = Some (Some "active").
Proof.
  split; [vm_compute; reflexivity|]. split; [|vm_compute; reflexivity].
  cbn [In]. intros [H|[H|[H|[H|[H|[]]]]]]; discriminate.
Qed.

(** ** Registering a webhook *)

Section Registration.
Import Webhook Eff.

Variable randomBytes_hex : nat -> nat -> string.
Variable new_URL : string -> option string.

(** What the URL parser guarantees and the proof uses: the protocol of a
    text that starts with [http://] is [http:], that of a text that starts
    with [https://] is [https:]. *)
Hypothesis new_URL_protocol :
  forall (url protocol : string),
    new_URL url = Some protocol ->
    (JS.startsWith url "http://" = true -> protocol = "http:")
    /\ (JS.startsWith url "https://" = true -> protocol = "https:").

(** The target parses as an http or https URL. *)
Definition parses_as_http (u : url_arg) : Prop :=
  match u with
  | UrlText url => new_URL url = Some "http:" \/ new_URL url = Some "https:"
  | UrlOther => False
  end.

Definition nonempty_array (e : events_arg) : Prop :=
  exists x l, e = EventsArray (x :: l).

Lemma isValidUrl_parses (u : url_arg) :
  isValidUrl new_URL u = true -> parses_as_http u.
Proof.
  destruct u as [url|]; cbn [isValidUrl parses_as_http]; [|discriminate].
  destruct (new_URL url) as [protocol|] eqn:E; [|discriminate].
  destruct (new_URL_protocol url protocol E) as [Hhttp Hhttps].
  intros H. apply orb_true_iff in H as [H|H].
  - left. rewrite (Hhttp H). reflexivity.
  - right. rewrite (Hhttps H). reflexivity.
Qed.

(** C10. A call whose [url] does not parse as an http or https URL, or
    whose [events] is not a non-empty array, throws, and the registered
    webhooks, the webhook objects and the emitted events are what they
    were. *)
Theorem registerWebhook_rejects_invalid (data : webhookData) (w : world) :
  ~ parses_as_http (wd_url data) \/ ~ nonempty_array (wd_events data) ->
  exists (e : exn) (w' : world),
    registerWebhook randomBytes_hex new_URL data w = (inl e, w')
    /\ webhooks w' = webhooks w
    /\ heap w' = heap w
    /\ emitted w' = emitted w.
Proof.
  intros Hbad.
  unfold registerWebhook, generateSecret, random_hex.
  unfold bind, ret, get, modify, throw.
  destruct (isValidUrl new_URL (wd_url data)) eqn:Hu.
  - destruct Hbad as [Hbad|Hbad]; [destruct (Hbad (isValidUrl_parses _ Hu))|].
    destruct (wd_events data) as [[|x l]|] eqn:He.
    + destruct (wd_secret data); cbn; eauto 10.
    + destruct Hbad. exists x, l. reflexivity.
    + destruct (wd_secret data); cbn; eauto 10.
  - destruct (wd_secret data); cbn; eauto 10.
Qed.

End Registration.

(** A stand-in for the URL parser that accepts exactly the texts starting
    with one of the two prefixes. *)
Definition prefix_URL (url : string) : option string :=
  if JS.startsWith url "http://" then Some "http:"
  else if JS.startsWith url "https://" then Some "https:"
  else None.

Lemma http_prefix_not_https (url : string) :
  JS.startsWith url "http://" = true -> JS.startsWith url "https://" = false.
Proof.
  unfold JS.startsWith, JS.chars.
  destruct url as [|a [|b [|c [|d [|e url]]]]];
    cbn [list_ascii_of_string JS.is_prefix]; try discriminate;
    rewrite ?andb_false_r; try discriminate.
  intros H.
  apply andb_true_iff in H as [_ H]. apply andb_true_iff in H as [_ H].
  apply andb_true_iff in H as [_ H]. apply andb_true_iff in H as [_ H].
  apply andb_true_iff in H as [H _].
  apply Ascii.eqb_eq in H. subst e.
  cbn [Ascii.eqb Bool.eqb andb]. rewrite !andb_false_r. reflexivity.
Qed.

Lemma prefix_URL_protocol (url protocol : string) :
  prefix_URL url = Some protocol ->
  (JS.startsWith url "http://" = true -> protocol = "http:")
  /\ (JS.startsWith url "https://" = true -> protocol = "https:").
Proof.
  unfold prefix_URL.
  destruct (JS.startsWith url "http://") eqn:H1.
  - intros [= <-]. split; [reflexivity|].
    rewrite (http_prefix_not_https url H1). discriminate.
  - destruct (JS.startsWith url "https://") eqn:H2; [|discriminate].
    intros [= <-]. split; [discriminate | reflexivity].
Qed.

Definition empty_service : Webhook.world :=
  {| Webhook.heap := ∅; Webhook.next_ref := 0; Webhook.webhooks := ∅;
     Webhook.emitted := []; Webhook.randoms := 0; Webhook.now := 0;
     Webhook.timers := []; Webhook.sent := []; Webhook.log := [] |}.

Definition ftp_registration : Webhook.webhookData :=
  {| Webhook.wd_url := Webhook.UrlText "ftp://example.com/hook";
     Webhook.wd_events := Webhook.EventsArray ["processing.completed"];
     Webhook.wd_description := None;
     Webhook.wd_userId := "user-1";
     Webhook.wd_secret := None |}.

Lemma registerWebhook_rejects_invalid_witness :
  exists e w',
    Webhook.registerWebhook (fun _ _ => "00") prefix_URL ftp_registration empty_service
      = (inl e, w')
    /\ Webhook.webhooks w' = ∅.
Proof.
  destruct (registerWebhook_rejects_invalid (fun _ _ => "00") prefix_URL prefix_URL_protocol
              ftp_registration empty_service)
    as (e & w' & E & Hw & _).
  - left. cbn. intros [H|H]; vm_compute in H; discriminate.
  - exists e, w'. split; [exact E | exact Hw].
Defined.

(** ** Delivering a webhook, with its retries *)

Section Delivery.
Import Webhook Eff.

Variable randomBytes_hex : nat -> nat -> string.
Variable JSON_stringify : payload -> string.
Variable hmac_sha256_hex : string -> string -> string.
Variable axios_post : nat -> request -> reply.

Abbreviation deliver := (deliverWebhook randomBytes_hex JSON_stringify hmac_sha256_hex axios_post).
Abbreviation retries := (run_timers randomBytes_hex JSON_stringify hmac_sha256_hex axios_post).

(** The delivery counts as delivered: a response with a status in
    [200, 300). *)
Definition delivered (rp : reply) : bool :=
  match Webhook.answer rp with
  | inr status => (200 <=? status)%Z && (status <? 300)%Z
  | inl _ => false
  end.

Definition responded (rp : reply) : bool :=
  match Webhook.answer rp with
  | inr _ => true
  | inl _ => false
  end.

(** The delay of the retry that follows the attempt numbered [attempt]
    from 0: entry [min attempt 4] of the table. *)
Definition delay_after (attempt : nat) : Z := nth (Nat.min attempt 4) retryDelays 0%Z.

Definition the_request (w : world) (hook : webhook) (p : payload) (attempt : nat) : request :=
  {| r_time := now w;
     r_url := url hook;
     r_signature := createSignature JSON_stringify hmac_sha256_hex p (secret hook);
     r_event := p_event p;
     r_delivery := ("del_" ++ randomBytes_hex (randoms w) 16)%string;
     r_attempt := attempt + 1 |}.

Lemma scheduled_delay (attempt : nat) :
  match retryDelay_at (Z.min (Z.of_nat (attempt + 1) - 1)
                             (Z.of_nat (List.length retryDelays) - 1)) with
  | Some d => d
  | None => 1%Z
  end = delay_after attempt.
Proof.
  unfold delay_after.
  destruct attempt as [|[|[|[|[|n]]]]]; try reflexivity.
  replace (Z.min (Z.of_nat (S (S (S (S (S n)))) + 1) - 1)
                 (Z.of_nat (List.length retryDelays) - 1)) with 4%Z
    by (cbn [retryDelays List.length]; lia).
  replace (Nat.min (S (S (S (S (S n))))) 4) with 4 by lia.
  reflexivity.
Qed.

(** One call of [deliverWebhook]: it returns, one request has left, the
    counters of the webhook object are updated, and a retry is scheduled
    exactly when the delivery failed and [attempt < maxRetries]. *)
Lemma deliverWebhook_run (wh : nat) (p : payload) (attempt : nat) (w : world) (hook : webhook) :
  heap w !! wh = Some hook ->
  let rq := the_request w hook p attempt in
  let rp := axios_post (List.length (sent w)) rq in
  let t := (now w + Z.of_nat (latency rp))%Z in
  exists res w',
    deliver wh p attempt w = (inr res, w')
    /\ dr_success res = delivered rp
    /\ sent w' = sent w ++ [rq]
    /\ now w' = t
    /\ heap w' = alter (count_delivery t (delivered rp) (responded rp)) wh (heap w)
    /\ timers w' =
         (if delivered rp || negb (attempt <? maxRetries)%nat then timers w
          else timers w ++ [{| due := (t + delay_after attempt)%Z; t_webhook := wh;
                               t_payload := p; t_attempt := attempt + 1 |}]).
Proof.
  intros Hh rq rp t.
  unfold deliverWebhook, generateDeliveryId, random_hex, Date_now, post, update_stats, console,
    scheduleRetry, when.
  unfold bind, ret, get, modify, throw, try_catch.
  cbn [heap set_randoms]. rewrite Hh.
  cbn [heap next_ref webhooks emitted randoms now timers sent log
       set_heap set_now set_sent set_log set_timers set_randoms].
  fold (the_request w hook p attempt). fold rq. fold rp. fold t.
  rewrite (scheduled_delay attempt).
  unfold delivered, responded.
  destruct (Webhook.answer rp) as [msg|status].
  - destruct (attempt <? maxRetries)%nat;
      cbn [heap next_ref webhooks emitted randoms now timers sent log
           set_heap set_now set_sent set_log set_timers set_randoms orb negb];
      eexists _, _; repeat split; reflexivity.
  - destruct ((200 <=? status)%Z && (status <? 300)%Z);
      [|destruct (attempt <? maxRetries)%nat];
      cbn [heap next_ref webhooks emitted randoms now timers sent log
           set_heap set_now set_sent set_log set_timers set_randoms orb negb];
      eexists _, _; repeat split; reflexivity.
Qed.

(** The requests of one delivery with its retries, [k] requests having
    left before and the first of these being attempt [attempt] (from 0),
    not sent before [earliest]: each carries the next [X-Webhook-Attempt];
    a delivered one is the last; a failed one is followed by a retry,
    after at least the delay of the table, as long as [attempt] is below
    [maxRetries], and by nothing otherwise. *)
Fixpoint chain (k attempt : nat) (earliest : Z) (reqs : list request) : Prop :=
  match reqs with
  | [] => False
  | rq :: rest =>
      r_attempt rq = attempt + 1
      /\ (earliest <= r_time rq)%Z
      /\ if delivered (axios_post k rq) then rest = []
         else if (attempt <? maxRetries)%nat
              then chain (S k) (S attempt) (r_time rq + delay_after attempt) rest
              else rest = []
  end.

(** How many of the requests failed. *)
Fixpoint failures (k : nat) (reqs : list request) : nat :=
  match reqs with
  | [] => 0
  | rq :: rest => (if delivered (axios_post k rq) then 0 else 1) + failures (S k) rest
  end.

Lemma chain_length (reqs : list request) :
  forall k attempt earliest,
    chain k attempt earliest reqs ->
    1 <= List.length reqs /\ attempt + List.length reqs <= Nat.max (attempt + 1) (maxRetries + 1).
Proof.
  induction reqs as [|rq rest IH]; intros k attempt earliest H; [destruct H|].
  cbn [chain] in H. destruct H as (_ & _ & H). cbn [List.length].
  destruct (delivered (axios_post k rq)).
  - subst rest. cbn [List.length]. lia.
  - destruct (Nat.ltb_spec attempt maxRetries) as [Hlt|Hge].
    + destruct (IH _ _ _ H) as [_ Hlen]. unfold maxRetries in *. lia.
    + subst rest. cbn [List.length]. lia.
Qed.

Lemma chain_all_failed (reqs : list request) :
  forall k attempt earliest,
    chain k attempt earliest reqs ->
    (forall n rq, delivered (axios_post n rq) = false) ->
    attempt <= maxRetries ->
    attempt + List.length reqs = maxRetries + 1 /\ failures k reqs = List.length reqs.
Proof.
  induction reqs as [|rq rest IH]; intros k attempt earliest H Hfail Ha; [destruct H|].
  cbn [chain] in H. destruct H as (_ & _ & H). cbn [List.length failures].
  rewrite Hfail in *.
  destruct (Nat.ltb_spec attempt maxRetries) as [Hlt|Hge].
  - destruct (IH _ _ _ H Hfail) as [Hlen Hf]; [lia|]. lia.
  - subst rest. cbn [List.length failures]. lia.
Qed.

Lemma chain_earlier (reqs : list request) (k attempt : nat) (e e' : Z) :
  (e' <= e)%Z -> chain k attempt e reqs -> chain k attempt e' reqs.
Proof.
  destruct reqs as [|rq rest]; [intros _ []|].
  cbn [chain]. intros He (H1 & H2 & H3). repeat split; [exact H1 | lia | exact H3].
Qed.

(** The counters after a chain of requests. *)
Definition counted (k : nat) (reqs : list request) (before after : webhook) : Prop :=
  total (stats after) = total (stats before) + List.length reqs
  /\ failed (stats after) = failed (stats before) + failures k reqs
  /\ successful (stats after) + failures k reqs
     = successful (stats before) + List.length reqs.

(** The timers run until none is left: from one pending retry, the rest
    of the chain. *)
Lemma retries_run (wh : nat) (p : payload) (n : nat) :
  forall (attempt : nat) (w : world) (hook : webhook) (tm : timer),
    heap w !! wh = Some hook ->
    timers w = [tm] ->
    t_webhook tm = wh -> t_payload tm = p -> t_attempt tm = attempt ->
    attempt + n = maxRetries + 1 -> 1 <= n ->
    exists w' reqs hook',
      retries n w = (inr tt, w')
      /\ sent w' = sent w ++ reqs
      /\ timers w' = []
      /\ heap w' !! wh = Some hook'
      /\ chain (List.length (sent w)) attempt (due tm) reqs
      /\ counted (List.length (sent w)) reqs hook hook'.
Proof.
  induction n as [|n IH]; intros attempt w hook tm Hh Ht Hwh Hp Ha Hn H1; [lia|].
  cbn [run_timers]. unfold bind at 1, get at 1. rewrite Ht.
  unfold fire_next. unfold bind at 1, bind at 1, get at 1. rewrite Ht.
  cbn [earliest app]. unfold bind at 1, modify at 1.
  set (w1 := set_now (Z.max (now w) (due tm)) (set_timers [] w)).
  assert (Hh1 : heap w1 !! wh = Some hook) by exact Hh.
  destruct (deliverWebhook_run wh p attempt w1 hook Hh1)
    as (res & w2 & E & _ & Hs & Hnow & Hheap & Htm).
  rewrite Hwh, Hp, Ha.
  unfold try_catch at 1, bind at 1. rewrite E. unfold ret at 1.
  set (rq := the_request w1 hook p attempt) in *.
  assert (Hk : List.length (sent w1) = List.length (sent w)) by reflexivity.
  rewrite Hk in *.
  assert (Hh2 : heap w2 !! wh
                = Some (count_delivery (now w2) (delivered (axios_post (List.length (sent w)) rq))
                          (responded (axios_post (List.length (sent w)) rq)) hook)).
  { rewrite Hheap, lookup_alter_eq, Hh1, Hnow. reflexivity. }
  assert (Hdue : (due tm <= r_time rq)%Z) by (cbn; lia).
  assert (Hlat : (r_time rq <= now w2)%Z) by (rewrite Hnow; cbn; lia).
  destruct (delivered (axios_post (List.length (sent w)) rq)) eqn:Hd.
  - (* delivered: no timer is left *)
    cbn [orb] in Htm.
    exists w2, [rq], (count_delivery (now w2) true
                        (responded (axios_post (List.length (sent w)) rq)) hook).
    split.
    { destruct n; [reflexivity|]. cbn [run_timers]. unfold bind, get. rewrite Htm.
      reflexivity. }
    split; [exact Hs|]. split; [exact Htm|]. split; [exact Hh2|]. split.
    + cbn [chain]. rewrite Hd. repeat split; try reflexivity; exact Hdue.
    + unfold counted. cbn [failures List.length count_delivery stats total failed successful].
      rewrite Hd. lia.
  - cbn [orb] in Htm.
    destruct (Nat.ltb_spec attempt maxRetries) as [Hlt|Hge]; cbn [negb] in Htm.
    + (* failed, a retry is pending *)
      assert (Hn' : 1 <= n) by (unfold maxRetries in *; lia).
      assert (Htm' : timers w2 =
                [{| due := (now w2 + delay_after attempt)%Z; t_webhook := wh;
                    t_payload := p; t_attempt := attempt + 1 |}])
        by (rewrite Htm, Hnow; reflexivity).
      destruct (IH (attempt + 1) w2 _ _ Hh2 Htm' eq_refl eq_refl eq_refl) as
        (w3 & reqs & hook3 & E3 & Hs3 & Ht3 & Hh3 & Hc3 & Hcount3); [lia | exact Hn' |].
      exists w3, (rq :: reqs), hook3.
      split; [exact E3|].
      split; [rewrite Hs3, Hs, <- app_assoc; reflexivity|].
      split; [exact Ht3|]. split; [exact Hh3|].
      rewrite Hs in Hc3, Hcount3. rewrite length_app in Hc3, Hcount3.
      cbn [List.length] in Hc3, Hcount3.
      change (List.length (sent w1)) with (List.length (sent w)) in Hc3, Hcount3.
      replace (List.length (sent w) + 1) with (S (List.length (sent w))) in * by lia.
      replace (attempt + 1) with (S attempt) in Hc3 by lia.
      split.
      * cbn [chain]. rewrite Hd.
        destruct (Nat.ltb_spec attempt maxRetries) as [_|Hge]; [|lia].
        split; [reflexivity|]. split; [exact Hdue|].
        eapply chain_earlier; [|exact Hc3]. cbn [due]. lia.
      * unfold counted in *.
        cbn [failures List.length count_delivery stats total failed successful] in *.
        rewrite Hd. lia.
    + (* failed for the last time: nothing is scheduled *)
      exists w2, [rq], (count_delivery (now w2) false
                          (responded (axios_post (List.length (sent w)) rq)) hook).
      split.
      { destruct n; [reflexivity|]. cbn [run_timers]. unfold bind, get. rewrite Htm.
        reflexivity. }
      split; [exact Hs|]. split; [exact Htm|]. split; [exact Hh2|]. split.
      * cbn [chain]. rewrite Hd.
        destruct (Nat.ltb_spec attempt maxRetries) as [Hlt|_]; [lia|].
        repeat split; try reflexivity; exact Hdue.
      * unfold counted. cbn [failures List.length count_delivery stats total failed successful].
        rewrite Hd. lia.
Qed.

(** The first delivery of an event to a webhook, then the event loop
    until no retry is pending. *)
Definition deliver_with_retries (wh : nat) (p : payload) : M world unit :=
  bind (deliver wh p 0) (fun _ => retries maxRetries).

(** C2, as the service has it.  A delivery that fails -- a status outside
    [200, 300), a transport error or a timeout -- is retried while fewer
    than 5 retries were made, retry [k] after entry [min (k-1) 4] of 1, 5,
    15, 60, 300 s; so an event is sent to a subscription at most 6 times
    (the first attempt and 5 retries, [X-Webhook-Attempt] 1 to 6), every
    failed attempt is counted in the failure counter, and after the sixth
    failure nothing more is scheduled. *)
Theorem webhook_retry_schedule (wh : nat) (p : payload) (w : world) (hook : webhook) :
  heap w !! wh = Some hook ->
  timers w = [] ->
  exists w' reqs hook',
    deliver_with_retries wh p w = (inr tt, w')
    /\ sent w' = sent w ++ reqs
    /\ timers w' = []
    /\ heap w' !! wh = Some hook'
    /\ chain (List.length (sent w)) 0 (now w) reqs
    /\ counted (List.length (sent w)) reqs hook hook'
    /\ 1 <= List.length reqs <= maxRetries + 1
    /\ ((forall n rq, delivered (axios_post n rq) = false) ->
        List.length reqs = 6 /\ failed (stats hook') = failed (stats hook) + 6)
    /\ map delay_after [0; 1; 2; 3; 4] = [1000; 5000; 15000; 60000; 300000]%Z
    /\ (forall attempt, 4 <= attempt -> delay_after attempt = 300000%Z).
Proof.
  intros Hh Ht.
  assert (Hdelays : map delay_after [0; 1; 2; 3; 4] = [1000; 5000; 15000; 60000; 300000]%Z
                    /\ (forall attempt, 4 <= attempt -> delay_after attempt = 300000%Z)).
  { split; [reflexivity|]. intros attempt Ha. unfold delay_after.
    replace (Nat.min attempt 4) with 4 by lia. reflexivity. }
  destruct (deliverWebhook_run wh p 0 w hook Hh)
    as (res & w1 & E & _ & Hs & Hnow & Hheap & Htm).
  set (rq := the_request w hook p 0) in *.
  assert (Hh1 : heap w1 !! wh
                = Some (count_delivery (now w1) (delivered (axios_post (List.length (sent w)) rq))
                          (responded (axios_post (List.length (sent w)) rq)) hook)).
  { rewrite Hheap, lookup_alter_eq, Hh, Hnow. reflexivity. }
  unfold deliver_with_retries. unfold bind at 1. rewrite E.
  rewrite Ht in Htm. cbn [app negb Nat.ltb Nat.leb maxRetries] in Htm.
  destruct (delivered (axios_post (List.length (sent w)) rq)) eqn:Hd; cbn [orb] in Htm.
  - exists w1, [rq], (count_delivery (now w1) true
                        (responded (axios_post (List.length (sent w)) rq)) hook).
    assert (Hc : chain (List.length (sent w)) 0 (now w) [rq]).
    { cbn [chain]. rewrite Hd. repeat split; try reflexivity; cbn; lia. }
    split; [unfold maxRetries; cbn [run_timers]; unfold bind, get; rewrite Htm; reflexivity|].
    split; [exact Hs|]. split; [exact Htm|]. split; [exact Hh1|]. split; [exact Hc|].
    split.
    { unfold counted. cbn [failures List.length count_delivery stats total failed successful].
      rewrite Hd. lia. }
    split; [cbn; lia|]. split; [|exact Hdelays].
    intros Hfail. rewrite Hfail in Hd. discriminate.
  - destruct (retries_run wh p maxRetries 1 w1 _ _ Hh1 Htm eq_refl eq_refl eq_refl)
      as (w2 & reqs & hook2 & E2 & Hs2 & Ht2 & Hh2 & Hc2 & Hcount2);
      [reflexivity | unfold maxRetries; lia |].
    rewrite Hs, length_app in Hc2, Hcount2. cbn [List.length] in Hc2, Hcount2.
    replace (List.length (sent w) + 1) with (S (List.length (sent w))) in * by lia.
    assert (Hc : chain (List.length (sent w)) 0 (now w) (rq :: reqs)).
    { cbn [chain]. rewrite Hd. cbn [Nat.ltb Nat.leb maxRetries].
      split; [reflexivity|]. split; [cbn; lia|].
      eapply chain_earlier; [|exact Hc2]. subst rq. cbn [due r_time the_request]. lia. }
    assert (Hcount : counted (List.length (sent w)) (rq :: reqs) hook hook2).
    { unfold counted in *.
      cbn [failures List.length count_delivery stats total failed successful] in *.
      rewrite Hd. lia. }
    exists w2, (rq :: reqs), hook2.
    split; [exact E2|].
    split; [rewrite Hs2, Hs, <- app_assoc; reflexivity|].
    split; [exact Ht2|]. split; [exact Hh2|]. split; [exact Hc|]. split; [exact Hcount|].
    split; [destruct (chain_length _ _ _ _ Hc) as [? ?]; unfold maxRetries in *; lia|].
    split; [|exact Hdelays].
    intros Hfail.
    destruct (chain_all_failed _ _ _ _ Hc Hfail) as [Hlen Hf]; [unfold maxRetries; lia|].
    unfold maxRetries in Hlen. split; [lia|].
    destruct Hcount as (_ & Hfailed & _). lia.
Qed.

End Delivery.

(** An endpoint that answers 500 to everything, within 20 ms. *)
Definition always_500 (n : nat) (rq : Webhook.request) : Webhook.reply :=
  {| Webhook.latency := 20; Webhook.answer := inr 500%Z |}.

Definition a_webhook : Webhook.webhook :=
  {| Webhook.id := "wh_1";
     Webhook.url := "https://example.com/hook";
     Webhook.events := ["processing.completed"];
     Webhook.description := "";
     Webhook.userId := "user-1";
     Webhook.secret := "s3cret";
     Webhook.isActive := true;
     Webhook.createdAt := 0;
     Webhook.lastTriggered := None;
     Webhook.stats := {| Webhook.total := 0; Webhook.successful := 0; Webhook.failed := 0;
                         Webhook.lastDelivery := None |} |}.

Definition a_service : Webhook.world :=
  {| Webhook.heap := {[ 0 := a_webhook ]}; Webhook.next_ref := 1;
     Webhook.webhooks := {[ "wh_1" := 0 ]};
     Webhook.emitted := []; Webhook.randoms := 0; Webhook.now := 0;
     Webhook.timers := []; Webhook.sent := []; Webhook.log := [] |}.

Definition an_event : Webhook.payload :=
  {| Webhook.p_event := "processing.completed";
     Webhook.p_timestamp := "2025-01-01T00:00:00.000Z";
     Webhook.p_data := "{}";
     Webhook.p_id := "evt_1" |}.

Lemma webhook_retry_schedule_witness :
  exists w' reqs,
    deliver_with_retries (fun _ _ => "00") (fun _ => "{}") (fun _ _ => "sig") always_500
      0 an_event a_service = (inr tt, w')
    /\ Webhook.sent w' = reqs
    /\ List.length reqs = 6.
Proof.
  destruct (webhook_retry_schedule (fun _ _ => "00") (fun _ => "{}") (fun _ _ => "sig")
              always_500 0 an_event a_service a_webhook)
    as (w' & reqs & hook' & E & Hs & _ & _ & _ & _ & _ & Hall & _);
    [reflexivity | reflexivity |].
  exists w', reqs. split; [exact E|]. split; [exact Hs|].
  apply Hall. intros n rq. reflexivity.
Defined.

(** C2 as stated fails: to an endpoint that always answers 500, one event
    is sent six times to the subscription, not at most five: after the
    first attempt come five retries, 1, 5, 15, 60 and 300 s (plus the 20 ms
    the endpoint takes) after the attempt before. *)
Lemma six_attempts_are_made :
  let w' := snd (deliver_with_retries (fun _ _ => "00") (fun _ => "{}") (fun _ _ => "sig")
                   always_500 0 an_event a_service) in
  map Webhook.r_attempt (Webhook.sent w') = [1; 2; 3; 4; 5; 6]
  /\ map Webhook.r_time (Webhook.sent w') = [0; 1020; 6040; 21060; 81080; 381100]%Z
  /\ ~ List.length (Webhook.sent w') <= 5
  /\ Webhook.failed <$> (Webhook.stats <$> (Webhook.heap w' !! 0)) = Some 6
  /\ Webhook.timers w' = [].
Proof.
  vm_compute. repeat split; try reflexivity. lia.
Qed.

(** ** The rate limiter *)

Section LimiterFacts.
Import RateLimiter Eff.

Variable elapse : nat -> nat.
Variable fault : nat -> bool.

Abbreviation L := (M world).

(** ** The four middlewares have one shape *)

Definition bucket_name (b : bucket) : string :=
  match b with
  | Api => "api"
  | Files => "files"
  | WebhookBucket => "webhook"
  | Admin => "admin"
  end.

Definition code_of (b : bucket) : string :=
  match b with
  | Api => "RATE_LIMIT_EXCEEDED"
  | Files => "FILE_LIMIT_EXCEEDED"
  | WebhookBucket => "WEBHOOK_LIMIT_EXCEEDED"
  | Admin => "ADMIN_LIMIT_EXCEEDED"
  end.

Definition message_of (b : bucket) : string :=
  match b with
  | Api => "Rate limiting error"
  | Files => "File upload rate limiting error"
  | WebhookBucket => "Webhook rate limiting error"
  | Admin => "Admin rate limiting error"
  end.

(** The key a middleware counts the request under. *)
Definition key_of (b : bucket) (r : request) : string :=
  generateKey (bucket_name b) (getClientIdentifier r).

(** The admission test with the 429 it answers, and [proceed] for what a
    middleware does with an allowed request. *)
Definition gate (key : string) (limit window : Z) (code : string) (proceed : L response)
  : L response :=
  bind (isAllowed elapse fault key limit window) (fun allowed =>
    if negb allowed then
      bind (getRemaining elapse fault key limit window) (fun remaining =>
      bind (getRateLimitInfo elapse fault key window) (fun info =>
      ret (TooMany code {| d_limit := limit; d_remaining := remaining;
                           d_reset := reset info |})))
    else proceed).

(** What precedes the test: the limit and the window of the request, or
    the 403 of the admin check. *)
Definition with_settings (b : bucket) (r : request) (k : Z -> Z -> L response) : L response :=
  match b with
  | Api =>
      bind (getUserTier elapse fault (option_map user_id (req_user r))) (fun userTier =>
      bind (tier_config elapse fault userTier) (fun c => k (requests c) (window c)))
  | Files =>
      bind (getUserTier elapse fault (option_map user_id (req_user r))) (fun userTier =>
      bind (tier_config elapse fault userTier) (fun c => k (files c) (fileWindow c)))
  | WebhookBucket => k 100%Z (60 * 60)%Z
  | Admin =>
      match req_user r with
      | Some u => if String.eqb (role u) "admin" then k 1000%Z (15 * 60)%Z else ret Forbidden
      | None => ret Forbidden
      end
  end.

(** What follows the test for an allowed request. *)
Definition admit_tail (b : bucket) (key : string) (limit window : Z) : L response :=
  bind (recordRequest elapse fault key window) (fun _ =>
    match b with
    | Api =>
        bind (getRemaining elapse fault key limit window) (fun remaining =>
        bind (getRateLimitInfo elapse fault key window) (fun info =>
        ret (Next (Some {| d_limit := limit; d_remaining := remaining;
                           d_reset := reset info |}))))
    | _ => ret (Next None)
    end).

Definition guarded (b : bucket) (r : request) : L response :=
  with_settings b r (fun limit window =>
    gate (key_of b r) limit window (code_of b) (admit_tail b (key_of b r) limit window)).

Lemma handle_shape (b : bucket) (r : request) :
  handle elapse fault b r =
    try_catch (guarded b r) (fun _ => bind (console_error (message_of b)) (fun _ => ret (Next None))).
Proof.
  destruct b; reflexivity.
Qed.

(** ** Reads *)

(** [w'] is [w] after some reads: the data is the same, the clock may have
    moved on (not if no time elapses), and every command issued in between
    went through. *)
Record passes (w w' : world) : Prop := {
  p_zsets : zsets w' = zsets w;
  p_strings : strings w' = strings w;
  p_log : log w' = log w;
  p_time : (time w <= time w')%Z;
  p_still : (forall n, elapse n = 0) -> time w' = time w;
  p_commands : commands w <= commands w';
  p_clean : forall n, commands w <= n < commands w' -> fault n = false
}.

Lemma passes_refl (w : world) : passes w w.
Proof. split; try reflexivity; intros; lia. Qed.

Lemma passes_trans (w1 w2 w3 : world) : passes w1 w2 -> passes w2 w3 -> passes w1 w3.
Proof.
  intros [] []. split; try congruence; try lia.
  - intros H. rewrite p_still1, p_still0 by exact H. reflexivity.
  - intros n Hn. destruct (Nat.lt_ge_cases n (commands w2)); [apply p_clean0 | apply p_clean1]; lia.
Qed.

Lemma bind_inr_inv {A B} (c : L A) (k : A -> L B) (w : world) (b : B) (w' : world) :
  bind c k w = (inr b, w') ->
  exists a w1, c w = (inr a, w1) /\ k a w1 = (inr b, w').
Proof.
  unfold bind. destruct (c w) as [[e|a] w1]; [discriminate|]. eauto.
Qed.

Lemma step_passes (w : world) : passes w (next_step (elapse (steps w)) w).
Proof.
  split; cbn [zsets strings log time commands next_step]; intros;
    try reflexivity; try lia.
  match goal with H : forall n, elapse n = 0 |- _ => rewrite H; lia end.
Qed.

Lemma Date_now_spec (w : world) (t : Z) (w' : world) :
  Date_now elapse w = (inr t, w') -> passes w w' /\ t = time w'.
Proof.
  unfold Date_now, step, bind, ret, get, modify. intros [= <- <-].
  split; [apply step_passes | reflexivity].
Qed.

Lemma command_spec (w : world) (u : unit) (w' : world) :
  command elapse fault w = (inr u, w') -> passes w w'.
Proof.
  unfold command, step, bind, ret, get, modify, throw.
  cbn [commands next_step].
  destruct (fault (commands w)) eqn:F; [discriminate|]. intros [= _ <-].
  split; cbn [zsets strings log time commands next_step next_command]; intros;
    try reflexivity; try lia.
  - match goal with H : forall n, elapse n = 0 |- _ => rewrite H; lia end.
  - match goal with |- fault ?n = false => replace n with (commands w) by lia end. exact F.
Qed.

Lemma command_count (w : world) (u : unit) (w' : world) :
  command elapse fault w = (inr u, w') -> commands w' = S (commands w).
Proof.
  unfold command, step, bind, ret, get, modify, throw.
  cbn [commands next_step].
  destruct (fault (commands w)); [discriminate|]. intros [= _ <-]. reflexivity.
Qed.

Lemma Date_now_count (w : world) (t : Z) (w' : world) :
  Date_now elapse w = (inr t, w') -> commands w' = commands w.
Proof.
  unfold Date_now, step, bind, ret, get, modify. intros [= _ <-]. reflexivity.
Qed.

(** How many members of the live set of [key] score [lo] or more. *)
Definition count_in (w : world) (key : string) (lo : Z) : Z :=
  Z.of_nat (List.length (List.filter (fun e : Z * Z => (lo <=? snd e)%Z) (live w key))).

Lemma live_same (w w' : world) (key : string) :
  zsets w' = zsets w -> time w' = time w -> live w' key = live w key.
Proof. unfold live. intros -> ->. reflexivity. Qed.

Lemma live_expiry_same (w w' : world) (key : string) :
  zsets w' = zsets w -> time w' = time w -> live_expiry w' key = live_expiry w key.
Proof. unfold live_expiry. intros -> ->. reflexivity. Qed.

Lemma getRateLimitInfo_spec (key : string) (window : Z) (w : world)
      (info : rateLimitInfo) (w' : world) :
  getRateLimitInfo elapse fault key window w = (inr info, w') ->
  passes w w'
  /\ commands w' = S (commands w)
  /\ exists t, (time w <= t <= time w')%Z
               /\ reset info = (t + window * 1000)%Z
               /\ count info = count_in w' key (t - window * 1000).
Proof.
  unfold getRateLimitInfo, redis_zrangebyscore. intros H.
  apply bind_inr_inv in H as (t & w1 & Hn & H).
  apply bind_inr_inv in H as (l & w2 & Hz & H).
  apply bind_inr_inv in Hz as (u & w3 & Hc & Hz).
  pose proof Hn as Hn'.
  unfold bind, get, ret in Hz. injection Hz as <- <-.
  unfold ret in H. injection H as <- <-.
  apply Date_now_spec in Hn as [P1 ->].
  pose proof (command_count _ _ _ Hc) as Hcount. apply command_spec in Hc as P2.
  split; [eapply passes_trans; eassumption|].
  split; [rewrite Hcount; f_equal; apply (Date_now_count w (time w1) w1 Hn')|].
  exists (time w1). split; [destruct P1, P2; lia|].
  split; [reflexivity|]. cbn [count]. unfold count_in. rewrite length_map. reflexivity.
Qed.

Lemma isAllowed_spec (key : string) (limit window : Z) (w : world) (a : bool) (w' : world) :
  isAllowed elapse fault key limit window w = (inr a, w') ->
  passes w w'
  /\ commands w' = S (commands w)
  /\ exists t, (time w <= t <= time w')%Z
               /\ a = (count_in w' key (t - window * 1000) <? limit)%Z.
Proof.
  unfold isAllowed. intros H.
  apply bind_inr_inv in H as (info & w1 & Hi & H). unfold ret in H. injection H as <- <-.
  apply getRateLimitInfo_spec in Hi as (P & Hn & t & Ht & _ & Hc).
  split; [exact P|]. split; [exact Hn|]. exists t. rewrite Hc. auto.
Qed.

Lemma getRemaining_spec (key : string) (limit window : Z) (w : world) (r : Z) (w' : world) :
  getRemaining elapse fault key limit window w = (inr r, w') ->
  passes w w'
  /\ exists t, (time w <= t <= time w')%Z
               /\ r = Z.max 0 (limit - count_in w' key (t - window * 1000)).
Proof.
  unfold getRemaining. intros H.
  apply bind_inr_inv in H as (info & w1 & Hi & H). unfold ret in H. injection H as <- <-.
  apply getRateLimitInfo_spec in Hi as (P & _ & t & Ht & _ & Hc).
  split; [exact P|]. exists t. rewrite Hc. auto.
Qed.

Lemma count_in_still (w w' : world) (key : string) (t : Z) :
  passes w w' -> (forall n, elapse n = 0) -> (time w <= t <= time w')%Z ->
  forall window, count_in w' key (t - window) = count_in w key (time w - window).
Proof.
  intros P He Ht window. unfold count_in.
  assert (Hs : time w' = time w) by (apply (p_still _ _ P), He).
  rewrite (live_same w w' key (p_zsets _ _ P) Hs).
  replace t with (time w) by lia. reflexivity.
Qed.

(** The test answers 429, or hands the request to [proceed]. *)
Lemma gate_spec (key : string) (limit window : Z) (code : string) (proceed : L response)
      (w : world) (r : response) (w' : world) :
  gate key limit window code proceed w = (inr r, w') ->
  (exists d, r = TooMany code d
             /\ passes w w'
             /\ commands w < commands w'
             /\ d_limit d = limit
             /\ (exists t, (time w <= t <= time w')%Z /\ d_reset d = (t + window * 1000)%Z)
             /\ ((forall n, elapse n = 0) ->
                 d_remaining d = 0%Z
                 /\ (limit <= count_in w key (time w - window * 1000))%Z))
  \/ (exists w1, passes w w1
                 /\ commands w1 = S (commands w)
                 /\ ((forall n, elapse n = 0) ->
                     (count_in w key (time w - window * 1000) < limit)%Z)
                 /\ proceed w1 = (inr r, w')).
Proof.
  unfold gate. intros H.
  apply bind_inr_inv in H as (allowed & w1 & Ha & H).
  apply isAllowed_spec in Ha as (P1 & Hn1 & t1 & Ht1 & Ha).
  destruct allowed; cbn [negb] in H.
  - right. exists w1. split; [exact P1|]. split; [exact Hn1|]. split; [|exact H].
    intros He. rewrite (count_in_still w w1 key t1 P1 He Ht1) in Ha.
    symmetry in Ha. apply Z.ltb_lt in Ha. exact Ha.
  - left.
    apply bind_inr_inv in H as (remaining & w2 & Hr & H).
    apply bind_inr_inv in H as (info & w3 & Hi & H).
    unfold ret in H. injection H as <- <-.
    apply getRemaining_spec in Hr as (P2 & t2 & Ht2 & Hr).
    apply getRateLimitInfo_spec in Hi as (P3 & _ & t3 & Ht3 & Hreset & _).
    pose proof (passes_trans _ _ _ P1 P2) as P12.
    pose proof (passes_trans _ _ _ P12 P3) as P13.
    eexists. split; [reflexivity|]. split; [exact P13|].
    split; [destruct P2, P3; lia|]. split; [reflexivity|].
    split.
    + exists t3. split; [destruct P12, P3; lia | exact Hreset].
    + intros He. cbn [d_remaining].
      rewrite (count_in_still w w1 key t1 P1 He Ht1) in Ha.
      symmetry in Ha. apply Z.ltb_ge in Ha.
      split; [|exact Ha].
      assert (Ht2' : (time w <= t2 <= time w2)%Z) by (destruct P1; lia).
      rewrite (count_in_still w w2 key t2 P12 He Ht2') in Hr. lia.
Qed.

(** ** Commands that went through *)

(** Between [w] and [w'] every command that was issued went through. *)
Definition clean (w w' : world) : Prop :=
  commands w <= commands w' /\ forall n, commands w <= n < commands w' -> fault n = false.

Lemma passes_clean (w w' : world) : passes w w' -> clean w w'.
Proof. intros []. split; assumption. Qed.

Lemma clean_refl (w : world) : clean w w.
Proof. split; [lia|]. intros n Hn. lia. Qed.

Lemma clean_trans (w1 w2 w3 : world) : clean w1 w2 -> clean w2 w3 -> clean w1 w3.
Proof.
  intros [H1 C1] [H2 C2]. split; [lia|].
  intros n Hn. destruct (Nat.lt_ge_cases n (commands w2)); [apply C1 | apply C2]; lia.
Qed.

Lemma store_commands (key : string) (es : list (Z * Z)) (e : option Z) (w : world) :
  commands (store key es e w) = commands w
  /\ strings (store key es e w) = strings w
  /\ log (store key es e w) = log w
  /\ time (store key es e w) = time w.
Proof. destruct es; repeat split; reflexivity. Qed.

(** A write to a sorted set: the command, then the new contents. *)
Lemma write_spec (f : world -> world) (w : world) (u : unit) (w' : world) :
  (forall w0, commands (f w0) = commands w0 /\ strings (f w0) = strings w0
              /\ log (f w0) = log w0 /\ time (f w0) = time w0) ->
  bind (command elapse fault) (fun _ => modify f) w = (inr u, w') ->
  exists w1, passes w w1 /\ commands w1 = S (commands w) /\ w' = f w1.
Proof.
  intros Hf H. apply bind_inr_inv in H as (u1 & w1 & Hc & H).
  unfold modify in H. assert (Hw : w' = f w1) by congruence. subst w'.
  exists w1. split; [eapply command_spec, Hc|]. split; [eapply command_count, Hc | reflexivity].
Qed.

Lemma write_clean (f : world -> world) (w : world) (u : unit) (w' : world) :
  (forall w0, commands (f w0) = commands w0 /\ strings (f w0) = strings w0
              /\ log (f w0) = log w0 /\ time (f w0) = time w0) ->
  bind (command elapse fault) (fun _ => modify f) w = (inr u, w') ->
  clean w w' /\ strings w' = strings w /\ log w' = log w.
Proof.
  intros Hf H. destruct (write_spec f w u w' Hf H) as (w1 & P & Hn & ->).
  destruct (Hf w1) as (Hc & Hs & Hl & _). destruct P.
  split; [split|split]; try congruence; try lia.
  intros n Hn'. apply p_clean0. lia.
Qed.

Lemma recordRequest_clean (key : string) (window : Z) (w : world) (u : unit) (w' : world) :
  recordRequest elapse fault key window w = (inr u, w') ->
  clean w w' /\ strings w' = strings w /\ log w' = log w.
Proof.
  unfold recordRequest, redis_zadd, redis_zremrangebyscore, redis_expire. intros H.
  apply bind_inr_inv in H as (t & w1 & Hn & H).
  apply bind_inr_inv in H as (u1 & w2 & Ha & H).
  apply bind_inr_inv in H as (u2 & w3 & Hr & H).
  apply Date_now_spec in Hn as [P0 _].
  apply write_clean in Ha as (C1 & S1 & L1); [|intros; apply store_commands].
  apply write_clean in Hr as (C2 & S2 & L2); [|intros; apply store_commands].
  apply write_clean in H as (C3 & S3 & L3); [|intros; apply store_commands].
  split; [|destruct P0; split; congruence].
  eapply clean_trans; [apply passes_clean, P0|].
  eapply clean_trans; [exact C1|]. eapply clean_trans; eassumption.
Qed.

Lemma admit_tail_spec (b : bucket) (key : string) (limit window : Z)
      (w : world) (r : response) (w' : world) :
  admit_tail b key limit window w = (inr r, w') ->
  (exists h, r = Next h) /\ clean w w' /\ strings w' = strings w /\ log w' = log w.
Proof.
  unfold admit_tail. intros H.
  apply bind_inr_inv in H as (u & w1 & Hr & H).
  apply recordRequest_clean in Hr as (C1 & S1 & L1).
  destruct b; try (unfold ret in H; injection H as <- <-; eauto).
  apply bind_inr_inv in H as (remaining & w2 & Hrem & H).
  apply bind_inr_inv in H as (info & w3 & Hi & H).
  unfold ret in H. injection H as <- <-.
  apply getRemaining_spec in Hrem as (P2 & _).
  apply getRateLimitInfo_spec in Hi as (P3 & _).
  split; [eauto|].
  split; [eapply clean_trans; [exact C1|]; eapply clean_trans; apply passes_clean; eassumption|].
  destruct P2, P3. split; congruence.
Qed.

(** ** The settings of a request *)

Definition window_of (b : bucket) : Z :=
  match b with
  | Api => 15 * 60
  | Files => 24 * 60 * 60
  | WebhookBucket => 60 * 60
  | Admin => 15 * 60
  end.

(** How many tier lookups the middleware of a bucket makes (one, for a
    request of an authenticated user, in the two tiered buckets). *)
Definition lookups (b : bucket) (r : request) : nat :=
  match b with
  | Api | Files =>
      match req_user r with
      | Some u => if nonempty (user_id u) then 1 else 0
      | None => 0
      end
  | _ => 0
  end.

Lemma tiers_windows (t : string) (c : tierConfig) :
  tiers t = Some c -> window c = (15 * 60)%Z /\ fileWindow c = (24 * 60 * 60)%Z.
Proof.
  unfold tiers.
  destruct (String.eqb t "free"); [intros [= <-]; split; reflexivity|].
  destruct (String.eqb t "pro"); [intros [= <-]; split; reflexivity|].
  destruct (String.eqb t "enterprise"); [intros [= <-]; split; reflexivity|].
  discriminate.
Qed.

(** The tier lookup never throws; it issues at most one command and
    leaves the data alone. *)
Lemma getUserTier_spec (uid : option string) (w : world) :
  exists tier w1,
    getUserTier elapse fault uid w = (inr tier, w1)
    /\ zsets w1 = zsets w /\ strings w1 = strings w
    /\ (time w <= time w1)%Z
    /\ ((forall n, elapse n = 0) -> time w1 = time w)
    /\ commands w <= commands w1
    /\ commands w1 <= commands w + match uid with
                                   | Some u => if nonempty u then 1 else 0
                                   | None => 0
                                   end.
Proof.
  unfold getUserTier.
  destruct uid as [u|]; [|exists "free", w; unfold ret; repeat split; (reflexivity || lia)].
  destruct (nonempty u); [|exists "free", w; unfold ret; repeat split; (reflexivity || lia)].
  unfold try_catch, redis_get, command, step, console_error, bind, ret, get, modify, throw.
  cbn [commands next_step].
  destruct (fault (commands w)).
  - eexists _, _. split; [reflexivity|].
    cbn [zsets strings time commands set_log next_step next_command].
    repeat split; try reflexivity; try lia. intros H. rewrite H. lia.
  - cbn [strings next_command].
    destruct (strings (next_step (elapse (steps w)) w) !! ("user:" ++ u ++ ":tier")%string);
      eexists _, _; (split; [reflexivity|]);
      cbn [zsets strings time commands set_log next_step next_command];
      repeat split; try reflexivity; try lia; intros H; rewrite H; lia.
Qed.

Lemma tier_config_returns (tier : string) (w : world) (c : tierConfig) (w' : world) :
  tier_config elapse fault tier w = (inr c, w') -> tiers tier = Some c /\ w' = w.
Proof.
  unfold tier_config, tiers_at. destruct (tiers tier) as [c0|].
  - unfold ret. intros [= <- <-]. split; reflexivity.
  - destruct (existsb _ _); [|discriminate].
    unfold Date_now, command, step, bind, ret, get, modify, throw.
    destruct (fault _); discriminate.
Qed.

Lemma with_settings_spec (b : bucket) (r : request) (k : Z -> Z -> L response)
      (w : world) (res : response) (w' : world) :
  with_settings b r k w = (inr res, w') ->
  (res = Forbidden /\ w' = w)
  \/ (exists limit w1,
        k limit (window_of b) w1 = (inr res, w')
        /\ zsets w1 = zsets w /\ strings w1 = strings w
        /\ (time w <= time w1)%Z
        /\ ((forall n, elapse n = 0) -> time w1 = time w)
        /\ commands w <= commands w1 <= commands w + lookups b r).
Proof.
  destruct b; cbn [with_settings window_of lookups].
  - intros H. right.
    destruct (getUserTier_spec (option_map user_id (req_user r)) w)
      as (tier & w1 & E & Hz & Hs & Ht & Hst & Hc1 & Hc2).
    unfold bind at 1 in H. rewrite E in H.
    apply bind_inr_inv in H as (c & w2 & Hcfg & H).
    apply tier_config_returns in Hcfg as [Ec ->].
    destruct (tiers_windows _ _ Ec) as [Hw _]. rewrite Hw in H.
    exists (requests c), w1. repeat split; try assumption.
    destruct (req_user r); exact Hc2.
  - intros H. right.
    destruct (getUserTier_spec (option_map user_id (req_user r)) w)
      as (tier & w1 & E & Hz & Hs & Ht & Hst & Hc1 & Hc2).
    unfold bind at 1 in H. rewrite E in H.
    apply bind_inr_inv in H as (c & w2 & Hcfg & H).
    apply tier_config_returns in Hcfg as [Ec ->].
    destruct (tiers_windows _ _ Ec) as [_ Hw]. rewrite Hw in H.
    exists (files c), w1. repeat split; try assumption.
    destruct (req_user r); exact Hc2.
  - intros H. right. exists 100%Z, w. repeat split; try assumption; try reflexivity; lia.
  - intros H. destruct (req_user r) as [u|].
    + destruct (String.eqb (role u) "admin").
      * right. exists 1000%Z, w. repeat split; try assumption; try reflexivity; lia.
      * left. unfold ret in H. injection H as <- <-. split; reflexivity.
    + left. unfold ret in H. injection H as <- <-. split; reflexivity.
Qed.

Lemma guarded_spec (b : bucket) (r : request) (w : world) (res : response) (w' : world) :
  guarded b r w = (inr res, w') ->
  (res = Forbidden /\ w' = w)
  \/ (exists limit w1,
        commands w1 <= commands w + lookups b r
        /\ (time w <= time w1)%Z
        /\ ((forall n, elapse n = 0) -> time w1 = time w)
        /\ clean w1 w'
        /\ ((exists h, res = Next h)
            \/ exists d, res = TooMany (code_of b) d
                         /\ passes w1 w'
                         /\ commands w1 < commands w'
                         /\ d_limit d = limit
                         /\ (exists t, (time w1 <= t <= time w')%Z
                                       /\ d_reset d = (t + window_of b * 1000)%Z)
                         /\ ((forall n, elapse n = 0) -> d_remaining d = 0%Z))).
Proof.
  unfold guarded. intros H.
  apply with_settings_spec in H as [H | (limit & w1 & H & _ & _ & Ht & Hst & _ & Hc)];
    [left; exact H|].
  right. exists limit, w1. split; [exact Hc|]. split; [exact Ht|]. split; [exact Hst|].
  apply gate_spec in H as [(d & -> & P & Hn & Hl & Hr & H0) | (w2 & P & _ & _ & H)].
  - split; [apply passes_clean, P|]. right. exists d.
    split; [reflexivity|]. split; [exact P|]. split; [exact Hn|]. split; [exact Hl|].
    split; [exact Hr|]. intros He. apply H0, He.
  - apply admit_tail_spec in H as (Hnext & C & _).
    split; [eapply clean_trans; [apply passes_clean, P | exact C]|].
    left. exact Hnext.
Qed.

(** C3, as the limiter has it.  A denial carries as [reset] a clock
    reading taken while the request was handled plus the window length --
    the time of the query, not of the oldest entry -- and, when the clock
    does not move while the request is handled, [remaining] is 0 and
    [reset] is the time of the request plus the window. *)
Theorem denial_details (b : bucket) (r : request) (w : world)
        (code : string) (d : details) (w' : world) :
  handle elapse fault b r w = (inr (TooMany code d), w') ->
  (exists t, (time w <= t <= time w')%Z /\ d_reset d = (t + window_of b * 1000)%Z)
  /\ ((forall n, elapse n = 0) ->
      d_remaining d = 0%Z /\ d_reset d = (time w + window_of b * 1000)%Z).
Proof.
  rewrite handle_shape. unfold try_catch.
  destruct (guarded b r w) as [[e|res] w1] eqn:E.
  - unfold bind, console_error, modify, ret. discriminate.
  - intros [= -> ->].
    apply guarded_spec in E as [[E _] | (limit & w1 & _ & Ht & Hst & _ & [[h E] | E])];
      try discriminate.
    destruct E as (d' & [= _ <-] & P & _ & _ & (t & Ht' & Hr) & H0).
    split.
    + exists t. split; [lia | exact Hr].
    + intros He. split; [apply H0, He|].
      rewrite Hr. f_equal.
      pose proof (p_still _ _ P He). pose proof (Hst He). lia.
Qed.

(** C9, as the limiter has it.  When a limiter operation other than the
    tier lookup throws, the request proceeds ([next()] is called) and the
    error is logged; and when every limiter operation throws, no request
    is answered 429.  The tier lookup is the exception: its failure is
    logged and the free tier's limits are applied. *)
Theorem fail_open (b : bucket) (r : request) (w : world)
        (res : exn + response) (w' : world) :
  handle elapse fault b r w = (res, w') ->
  ((exists n, commands w + lookups b r <= n < commands w' /\ fault n = true) ->
   res = inr (Next None)
   /\ exists l, log w' = l ++ [("error: " ++ message_of b)%string])
  /\ ((forall n, fault n = true) -> forall code d, res <> inr (TooMany code d)).
Proof.
  rewrite handle_shape. unfold try_catch.
  destruct (guarded b r w) as [[e|res1] w1] eqn:E.
  - unfold bind, console_error, modify, ret. intros [= <- <-].
    split; [|discriminate].
    intros _. split; [reflexivity|]. cbn [log set_log]. eauto.
  - intros [= <- <-].
    apply guarded_spec in E as [[-> ->] | (limit & w2 & Hc & _ & _ & [Hle Hclean] & Hres)].
    + split; [|discriminate]. intros (n & Hn & _). lia.
    + split.
      * intros (n & Hn & Hf). rewrite Hclean in Hf by lia. discriminate.
      * intros Hall code d [= ->].
        destruct Hres as [[h Hh] | (d' & _ & _ & Hlt & _)]; [discriminate|].
        specialize (Hclean (commands w2)). rewrite Hall in Hclean.
        assert (true = false) by (apply Hclean; lia). discriminate.
Qed.

End LimiterFacts.

(** ** Admission when nothing fails *)

Section Quota.
Import RateLimiter Eff.

(** No time elapses while a request is handled, and no Redis command
    throws. *)
Definition instantly (n : nat) : nat := 0.
Definition never_fails (n : nat) : bool := false.

Lemma instantly_0 : forall n, instantly n = 0.
Proof. reflexivity. Qed.

(** [w'] holds the data of [w] at the time of [w]. *)
Definition same (w w' : world) : Prop :=
  zsets w' = zsets w /\ strings w' = strings w /\ time w' = time w.

Lemma same_refl (w : world) : same w w.
Proof. repeat split. Qed.

Lemma same_trans (w1 w2 w3 : world) : same w1 w2 -> same w2 w3 -> same w1 w3.
Proof. unfold same. intros (? & ? & ?) (? & ? & ?). repeat split; congruence. Qed.

Lemma passes_same (w w' : world) : passes instantly never_fails w w' -> same w w'.
Proof.
  intros P. split; [apply (p_zsets _ _ _ _ P)|]. split; [apply (p_strings _ _ _ _ P)|].
  apply (p_still _ _ _ _ P), instantly_0.
Qed.

Lemma count_in_same (w w' : world) (key : string) (lo : Z) :
  same w w' -> count_in w' key lo = count_in w key lo.
Proof.
  intros (Hz & _ & Ht). unfold count_in. rewrite (live_same w w' key Hz Ht). reflexivity.
Qed.

(** Every stored tier is a tier of the table (the empty text reads as
    [free]).  [setUserTier] also stores the names [this.tiers] inherits,
    so this is an assumption on the store, not an invariant. *)
Definition tiers_valid (strs : gmap string string) : Prop :=
  forall k t, strs !! k = Some t -> nonempty t = true -> is_Some (tiers t).

(** The tier the lookup yields. *)
Definition tier_of (strs : gmap string string) (r : request) : string :=
  match req_user r with
  | Some u =>
      if nonempty (user_id u) then
        match strs !! ("user:" ++ user_id u ++ ":tier")%string with
        | Some t => if nonempty t then t else "free"
        | None => "free"
        end
      else "free"
  | None => "free"
  end.

(** The quota of a request in a bucket: that of its tier in the two tiered
    buckets. *)
Definition quota (strs : gmap string string) (b : bucket) (r : request) : option Z :=
  match b with
  | Api => option_map requests (tiers (tier_of strs r))
  | Files => option_map files (tiers (tier_of strs r))
  | WebhookBucket => Some 100%Z
  | Admin => Some 1000%Z
  end.

Lemma tier_of_valid (strs : gmap string string) (r : request) :
  tiers_valid strs -> is_Some (tiers (tier_of strs r)).
Proof.
  intros Hv. unfold tier_of.
  destruct (req_user r) as [u|]; [|eexists; reflexivity].
  destruct (nonempty (user_id u)); [|eexists; reflexivity].
  destruct (strs !! ("user:" ++ user_id u ++ ":tier")%string) as [t|] eqn:E;
    [|eexists; reflexivity].
  destruct (nonempty t) eqn:Hn; [|eexists; reflexivity].
  exact (Hv _ _ E Hn).
Qed.

Lemma getUserTier_run (r : request) (w : world) :
  exists w1,
    getUserTier instantly never_fails (option_map user_id (req_user r)) w
      = (inr (tier_of (strings w) r), w1)
    /\ same w w1.
Proof.
  unfold getUserTier, tier_of.
  destruct (req_user r) as [u|]; cbn [option_map];
    [|exists w; split; [reflexivity | apply same_refl]].
  destruct (nonempty (user_id u));
    [|exists w; split; [reflexivity | apply same_refl]].
  unfold try_catch, redis_get, command, step, console_error, bind, ret, get, modify, throw.
  cbn [never_fails instantly commands strings next_step next_command].
  destruct (strings w !! ("user:" ++ user_id u ++ ":tier")%string) as [t|];
    eexists; (split; [reflexivity|]);
    unfold same; cbn [zsets strings time next_step next_command instantly];
    repeat split; try reflexivity; unfold instantly; lia.
Qed.

Lemma getRateLimitInfo_run (key : string) (window : Z) (w : world) :
  exists w1,
    getRateLimitInfo instantly never_fails key window w
      = (inr {| count := count_in w key (time w - window * 1000);
                reset := (time w + window * 1000)%Z;
                info_window := window |}, w1)
    /\ same w w1.
Proof.
  destruct (getRateLimitInfo instantly never_fails key window w) as [[e|info] w1] eqn:E;
    [unfold getRateLimitInfo, redis_zrangebyscore, command, Date_now, step, bind, ret, get,
       modify, throw in E; discriminate|].
  destruct (getRateLimitInfo_spec _ _ _ _ _ _ _ E) as (P & _ & t & Ht & Hr & Hc).
  pose proof (passes_same _ _ P) as Hs.
  assert (t = time w) by (destruct Hs as (_ & _ & Hs); lia). subst t.
  rewrite (count_in_same w w1 key _ Hs) in Hc.
  exists w1. split; [|exact Hs].
  destruct info as [c rs iw]. cbn [count reset] in Hc, Hr. subst c rs.
  f_equal. f_equal. f_equal.
  unfold getRateLimitInfo, redis_zrangebyscore, command, Date_now, step, bind, ret, get,
    modify, throw in E. cbn in E. congruence.
Qed.

Lemma isAllowed_run (key : string) (limit window : Z) (w : world) :
  exists w1,
    isAllowed instantly never_fails key limit window w
      = (inr (count_in w key (time w - window * 1000) <? limit)%Z, w1)
    /\ same w w1.
Proof.
  destruct (getRateLimitInfo_run key window w) as (w1 & E & Hs).
  exists w1. split; [|exact Hs]. unfold isAllowed, bind. rewrite E. reflexivity.
Qed.

Lemma getRemaining_run (key : string) (limit window : Z) (w : world) :
  exists w1,
    getRemaining instantly never_fails key limit window w
      = (inr (Z.max 0 (limit - count_in w key (time w - window * 1000))), w1)
    /\ same w w1.
Proof.
  destruct (getRateLimitInfo_run key window w) as (w1 & E & Hs).
  exists w1. split; [|exact Hs]. unfold getRemaining, bind. rewrite E. reflexivity.
Qed.

(** The sorted set of a key after a request was recorded at [t]: the
    members of the window and the new one, expiring a window later. *)
Definition recorded (t window : Z) (es : list (Z * Z)) : zkey :=
  {| entries := List.filter (fun e : Z * Z => (t - window * 1000 <? snd e)%Z)
                       (List.filter (fun e : Z * Z => negb (fst e =? t)%Z) es ++ [(t, t)]);
     expires_at := Some (t + window * 1000)%Z |}.

Lemma live_expiry_fresh (w : world) (key : string) (x : Z) :
  live_expiry w key = Some x -> (time w <= x)%Z.
Proof.
  unfold live_expiry. destruct (zsets w !! key) as [k|]; [|discriminate].
  destruct (expires_at k) as [e|]; [|discriminate].
  destruct (Z.ltb_spec e (time w)); [discriminate|]. intros [= <-]. exact H.
Qed.

(** A key after a non-empty set was stored under it with an expiry that
    has not passed. *)
Lemma store_nonempty (key : string) (es : list (Z * Z)) (e : option Z) (w w' : world) :
  es <> [] ->
  (forall x, e = Some x -> (time w <= x)%Z) ->
  same (store key es e w) w' ->
  zsets w' = <[key := {| entries := es; expires_at := e |}]> (zsets w)
  /\ strings w' = strings w
  /\ time w' = time w
  /\ live w' key = es
  /\ live_expiry w' key = e.
Proof.
  intros Hne He (Hz & Hs & Ht).
  destruct es as [|x es]; [congruence|]. cbn [store zsets strings time set_zsets] in *.
  split; [exact Hz|]. split; [exact Hs|]. split; [exact Ht|].
  unfold live, live_expiry. rewrite Hz, Ht, lookup_insert_eq. cbn [expires_at entries].
  destruct e as [x0|]; [|split; reflexivity].
  destruct (Z.ltb_spec x0 (time w)) as [Hlt|_]; [|split; reflexivity].
  specialize (He x0 eq_refl). lia.
Qed.

Lemma recordRequest_run (key : string) (window : Z) (w : world) :
  (0 < window)%Z ->
  exists w',
    recordRequest instantly never_fails key window w = (inr tt, w')
    /\ strings w' = strings w
    /\ time w' = time w
    /\ zsets w' = <[key := recorded (time w) window (live w key)]> (zsets w).
Proof.
  intros Hw.
  destruct (recordRequest instantly never_fails key window w) as [[e|u] w'] eqn:E;
    [unfold recordRequest, redis_zadd, redis_zremrangebyscore, redis_expire, command,
       Date_now, step, bind, ret, get, modify, throw in E; discriminate|].
  destruct u. exists w'. split; [reflexivity|].
  unfold recordRequest, redis_zadd, redis_zremrangebyscore, redis_expire in E.
  apply bind_inr_inv in E as (t & w1 & Hn & E).
  apply bind_inr_inv in E as (u1 & w2 & Ha & E).
  apply bind_inr_inv in E as (u2 & w3 & Hr & E).
  apply (Date_now_spec instantly never_fails) in Hn as [P0 ->].
  apply passes_same in P0 as S0.
  apply write_spec in Ha as (w1' & P1 & _ & ->); [|intros; apply store_commands].
  apply passes_same in P1 as S1. pose proof (same_trans _ _ _ S0 S1) as S01.
  apply write_spec in Hr as (w2' & P2 & _ & ->); [|intros; apply store_commands].
  apply passes_same in P2 as S2.
  apply write_spec in E as (w3' & P3 & _ & ->); [|intros; apply store_commands].
  apply passes_same in P3 as S3.
  destruct S0 as (_ & _ & T0). rewrite T0 in *.
  destruct S01 as (Z1 & St1 & T1).
  rewrite (live_same w w1' key Z1 T1), (live_expiry_same w w1' key Z1 T1) in *.
  set (E1 := List.filter (fun e : Z * Z => negb (fst e =? time w)%Z) (live w key) ++ [(time w, time w)])
    in *.
  assert (N1 : E1 <> [])
    by (subst E1; intros Hnil; apply app_eq_nil in Hnil as [_ Hnil]; discriminate).
  assert (X1 : forall x, live_expiry w key = Some x -> (time w1' <= x)%Z)
    by (intros x Hx; rewrite T1; exact (live_expiry_fresh _ _ _ Hx)).
  destruct (store_nonempty key E1 (live_expiry w key) w1' w2' N1 X1 S2)
    as (Z2 & St2 & T2 & L2 & X2).
  rewrite L2, X2 in *.
  set (E2 := List.filter (fun e : Z * Z => (time w - window * 1000 <? snd e)%Z) E1) in *.
  assert (N2 : E2 <> []).
  { subst E2 E1. rewrite List.filter_app. cbn [List.filter snd].
    destruct (Z.ltb_spec (time w - window * 1000) (time w)) as [_|Hge]; [|lia].
    intros Hnil. apply app_eq_nil in Hnil as [_ Hnil]. discriminate. }
  assert (X2' : forall x, live_expiry w key = Some x -> (time w2' <= x)%Z)
    by (intros x Hx; rewrite T2, T1; exact (live_expiry_fresh _ _ _ Hx)).
  destruct (store_nonempty key E2 (live_expiry w key) w2' w3' N2 X2' S3)
    as (Z3 & St3 & T3 & L3 & X3).
  rewrite L3 in *. rewrite T3, T2, T1 in *.
  destruct (store_nonempty key E2 (Some (time w + window * 1000)%Z) w3' _ N2
              ltac:(intros x [= <-]; lia) (same_refl _))
    as (Z4 & St4 & T4 & _).
  split; [congruence|]. split; [congruence|].
  rewrite Z4, Z3, Z2, Z1, !insert_insert_eq. reflexivity.
Qed.

Lemma admit_tail_run (b : bucket) (key : string) (limit window : Z) (w : world) :
  (0 < window)%Z ->
  exists h w',
    admit_tail instantly never_fails b key limit window w = (inr (Next h), w')
    /\ strings w' = strings w
    /\ time w' = time w
    /\ zsets w' = <[key := recorded (time w) window (live w key)]> (zsets w).
Proof.
  intros Hw. destruct (recordRequest_run key window w Hw) as (w1 & E & Hs & Ht & Hz).
  unfold admit_tail. unfold bind at 1. rewrite E. cbn beta iota.
  destruct b; try (exists None, w1; split; [reflexivity|]; auto).
  destruct (getRemaining_run key limit window w1) as (w2 & E2 & S2).
  destruct (getRateLimitInfo_run key window w2) as (w3 & E3 & S3).
  unfold bind. rewrite E2, E3. unfold ret.
  eexists _, w3. split; [reflexivity|].
  destruct (same_trans _ _ _ S2 S3) as (Hz3 & Hs3 & Ht3).
  repeat split; congruence.
Qed.

Lemma gate_run (key : string) (limit window : Z) (code : string)
      (proceed : M world response) (w : world) :
  exists w1,
    same w w1
    /\ if (count_in w key (time w - window * 1000) <? limit)%Z
       then gate instantly never_fails key limit window code proceed w = proceed w1
       else exists d, gate instantly never_fails key limit window code proceed w
                      = (inr (TooMany code d), w1).
Proof.
  destruct (isAllowed_run key limit window w) as (w1 & E & S1).
  destruct (count_in w key (time w - window * 1000) <? limit)%Z eqn:Hc.
  - exists w1. split; [exact S1|].
    unfold gate. unfold bind at 1. rewrite E. reflexivity.
  - destruct (getRemaining_run key limit window w1) as (w2 & E2 & S2).
    destruct (getRateLimitInfo_run key window w2) as (w3 & E3 & S3).
    exists w3. split; [eapply same_trans; [exact S1|]; eapply same_trans; eassumption|].
    unfold gate. unfold bind at 1. rewrite E. cbn [negb]. cbn beta iota.
    unfold bind. rewrite E2, E3. unfold ret. eauto.
Qed.

Lemma window_of_positive (b : bucket) : (0 < window_of b)%Z.
Proof. destruct b; reflexivity. Qed.

(** A request handled when nothing fails: it is admitted exactly when
    the members of its key in the window are fewer than its quota, and is
    then recorded; otherwise the sorted sets stay as they are. *)
Lemma handle_run (b : bucket) (r : request) (w : world) :
  tiers_valid (strings w) ->
  exists res w',
    handle instantly never_fails b r w = (inr res, w')
    /\ strings w' = strings w
    /\ time w' = time w
    /\ ((exists h limit,
           res = Next h
           /\ quota (strings w) b r = Some limit
           /\ (count_in w (key_of b r) (time w - window_of b * 1000) < limit)%Z
           /\ zsets w' = <[key_of b r := recorded (time w) (window_of b) (live w (key_of b r))]>
                           (zsets w))
        \/ ((forall h, res <> Next h) /\ zsets w' = zsets w)).
Proof.
  intros Hv.
  assert (Hk : forall limit w1, same w w1 -> quota (strings w) b r = Some limit ->
               exists res w',
                 try_catch
                   (gate instantly never_fails (key_of b r) limit (window_of b) (code_of b)
                      (admit_tail instantly never_fails b (key_of b r) limit (window_of b)))
                   (fun _ => bind (console_error (message_of b)) (fun _ => ret (Next None))) w1
                   = (inr res, w')
                 /\ strings w' = strings w
                 /\ time w' = time w
                 /\ ((exists h limit,
                        res = Next h
                        /\ quota (strings w) b r = Some limit
                        /\ (count_in w (key_of b r) (time w - window_of b * 1000) < limit)%Z
                        /\ zsets w' = <[key_of b r := recorded (time w) (window_of b)
                                                        (live w (key_of b r))]> (zsets w))
                     \/ ((forall h, res <> Next h) /\ zsets w' = zsets w))).
  { intros limit w1 S1 Hq.
    destruct (gate_run (key_of b r) limit (window_of b) (code_of b)
                (admit_tail instantly never_fails b (key_of b r) limit (window_of b)) w1)
      as (w2 & S2 & Hg).
    pose proof (same_trans _ _ _ S1 S2) as S12.
    rewrite (count_in_same w w1 _ _ S1) in Hg.
    destruct S1 as (_ & _ & T1). rewrite T1 in Hg.
    destruct (Z.ltb_spec (count_in w (key_of b r) (time w - window_of b * 1000)) limit)
      as [Hlt|Hge].
    - destruct (admit_tail_run b (key_of b r) limit (window_of b) w2 (window_of_positive b))
        as (h & w3 & E3 & Hs3 & Ht3 & Hz3).
      exists (Next h), w3. unfold try_catch. rewrite Hg, E3.
      destruct S12 as (Z12 & St12 & T12).
      split; [reflexivity|]. split; [congruence|]. split; [congruence|].
      left. exists h, limit. split; [reflexivity|]. split; [exact Hq|]. split; [exact Hlt|].
      rewrite Hz3, T12, Z12, (live_same w w2 _ Z12 T12). reflexivity.
    - destruct Hg as (d & Hg).
      exists (TooMany (code_of b) d), w2. unfold try_catch. rewrite Hg.
      destruct S12 as (Z12 & St12 & T12).
      split; [reflexivity|]. split; [exact St12|]. split; [exact T12|].
      right. split; [discriminate | exact Z12]. }
  rewrite handle_shape. unfold guarded.
  destruct b; cbn [with_settings].
  - destruct (getUserTier_run r w) as (w1 & E & S1).
    destruct (tier_of_valid (strings w) r Hv) as [c Hc].
    destruct (tiers_windows _ _ Hc) as [Hwin _].
    destruct (Hk (requests c) w1 S1) as (res & w' & E' & Hrest);
      [cbn [quota]; rewrite Hc; reflexivity|].
    exists res, w'. split; [|exact Hrest].
    rewrite <- E'. unfold try_catch, bind at 1. rewrite E.
    unfold bind at 1, tier_config, tiers_at. rewrite Hc. unfold ret at 1. rewrite Hwin. reflexivity.
  - destruct (getUserTier_run r w) as (w1 & E & S1).
    destruct (tier_of_valid (strings w) r Hv) as [c Hc].
    destruct (tiers_windows _ _ Hc) as [_ Hwin].
    destruct (Hk (files c) w1 S1) as (res & w' & E' & Hrest);
      [cbn [quota]; rewrite Hc; reflexivity|].
    exists res, w'. split; [|exact Hrest].
    rewrite <- E'. unfold try_catch, bind at 1. rewrite E.
    unfold bind at 1, tier_config, tiers_at. rewrite Hc. unfold ret at 1. rewrite Hwin. reflexivity.
  - exact (Hk 100%Z w (same_refl w) eq_refl).
  - destruct (req_user r) as [u|].
    + destruct (String.eqb (role u) "admin").
      * exact (Hk 1000%Z w (same_refl w) eq_refl).
      * exists Forbidden, w. repeat split; try reflexivity. right. split; [discriminate|reflexivity].
    + exists Forbidden, w. repeat split; try reflexivity. right. split; [discriminate|reflexivity].
Qed.

(** ** Keys tell buckets and identities apart *)

Lemma append_cancel (p a b : string) : (p ++ a)%string = (p ++ b)%string -> a = b.
Proof.
  induction p as [|c p IH]; cbn [String.append]; [auto|].
  intros [= H]. auto.
Qed.

Lemma key_of_inj (b1 b2 : bucket) (r1 r2 : request) :
  key_of b1 r1 = key_of b2 r2 ->
  b1 = b2 /\ getClientIdentifier r1 = getClientIdentifier r2.
Proof.
  unfold key_of, generateKey. intros H. apply append_cancel in H.
  destruct b1, b2; cbn [bucket_name String.append] in H; try discriminate;
    (split; [reflexivity|]); injection H as H; exact H.
Qed.

Lemma same_identity_same_tier (strs : gmap string string) (r1 r2 : request) :
  getClientIdentifier r1 = getClientIdentifier r2 -> tier_of strs r1 = tier_of strs r2.
Proof.
  unfold getClientIdentifier, tier_of.
  destruct (req_user r1) as [u1|], (req_user r2) as [u2|];
    try destruct (nonempty (user_id u1)); try destruct (nonempty (user_id u2));
    intros H; try reflexivity; try (cbn [String.append] in H; discriminate).
  apply append_cancel in H. rewrite H. reflexivity.
Qed.

Lemma same_identity_same_quota (strs : gmap string string) (b : bucket) (r1 r2 : request) :
  getClientIdentifier r1 = getClientIdentifier r2 -> quota strs b r1 = quota strs b r2.
Proof.
  intros H. unfold quota. rewrite (same_identity_same_tier strs r1 r2 H). reflexivity.
Qed.

Lemma quota_nonneg (strs : gmap string string) (b : bucket) (r : request) (limit : Z) :
  quota strs b r = Some limit -> (0 <= limit)%Z.
Proof.
  unfold quota, tiers.
  destruct b; try (intros [= <-]; lia);
    destruct (String.eqb (tier_of strs r) "free"); try (intros [= <-]; cbn; lia);
    destruct (String.eqb (tier_of strs r) "pro"); try (intros [= <-]; cbn; lia);
    destruct (String.eqb (tier_of strs r) "enterprise"); try (intros [= <-]; cbn; lia);
    discriminate.
Qed.

(** ** The members of a key and the requests admitted under it *)

Section Counter.

Variable key : string.
Variable window limit : Z.
Hypothesis window_positive : (0 < window)%Z.

(** [x] lies in the window of length [window] seconds that starts at [t]. *)
Definition within (t x : Z) : bool := (t <=? x)%Z && (x <? t + window * 1000)%Z.

(** No window holds more than [limit] of the times [A]. *)
Definition bounded (A : list Z) : Prop :=
  forall t, (Z.of_nat (List.length (List.filter (within t) A)) <= limit)%Z.

(** The sorted set of [key] still holds every admission [A] of the last
    window, and will not expire before these leave the window. *)
Definition kept (w : world) (A : list Z) : Prop :=
  (forall x, In x A -> (x <= time w)%Z)
  /\ (forall x, In x A -> (time w - window * 1000 < x)%Z ->
      exists zk, zsets w !! key = Some zk
                 /\ In (x, x) (entries zk)
                 /\ (forall e, expires_at zk = Some e -> (x + window * 1000 <= e)%Z)).

Lemma kept_live (w : world) (A : list Z) (x : Z) :
  kept w A -> In x A -> (time w - window * 1000 < x)%Z -> In (x, x) (live w key).
Proof.
  intros [_ Hk] Hin Hx. destruct (Hk x Hin Hx) as (zk & Hz & He & Hexp).
  unfold live. rewrite Hz. destruct (expires_at zk) as [e|]; [|exact He].
  specialize (Hexp e eq_refl). destruct (Z.ltb_spec e (time w)); [lia | exact He].
Qed.

Lemma kept_later (w w' : world) (A : list Z) :
  kept w A -> zsets w' !! key = zsets w !! key -> (time w <= time w')%Z -> kept w' A.
Proof.
  intros [Hle Hk] Hz Ht. split.
  - intros x Hx. specialize (Hle x Hx). lia.
  - intros x Hx Hrecent. rewrite Hz. apply Hk; [exact Hx | lia].
Qed.

Lemma filter_length_le {X} (p q : X -> bool) (l : list X) :
  (forall x, In x l -> p x = true -> q x = true) ->
  List.length (List.filter p l) <= List.length (List.filter q l).
Proof.
  induction l as [|x l IH]; intros H; [reflexivity|]. cbn [List.filter].
  assert (IH' : List.length (List.filter p l) <= List.length (List.filter q l))
    by (apply IH; intros y Hy; apply H; right; exact Hy).
  destruct (p x) eqn:Hp.
  - rewrite (H x (or_introl eq_refl) Hp). cbn [List.length]. lia.
  - destruct (q x); cbn [List.length]; lia.
Qed.

Lemma NoDup_diagonal (l : list Z) : List.NoDup l -> List.NoDup (map (fun x => (x, x)) l).
Proof.
  induction 1 as [|x l Hx Hl IH]; cbn [map]; constructor; [|exact IH].
  intros Hin. apply in_map_iff in Hin as (y & [= <- _] & Hy). exact (Hx Hy).
Qed.

(** The admissions of the last window are among the members counted. *)
Lemma recent_counted (w : world) (A : list Z) :
  kept w A -> List.NoDup A ->
  (Z.of_nat (List.length (List.filter (fun x => (time w - window * 1000 <? x)%Z) A))
   <= count_in w key (time w - window * 1000))%Z.
Proof.
  intros Hk Hnd. unfold count_in. apply Nat2Z.inj_le.
  rewrite <- (length_map (fun x => (x, x))).
  apply List.NoDup_incl_length.
  - apply NoDup_diagonal, List.NoDup_filter, Hnd.
  - intros e He. apply in_map_iff in He as (x & <- & Hx).
    apply List.filter_In in Hx as [Hx Hrecent]. apply Z.ltb_lt in Hrecent.
    apply List.filter_In. split; [eapply kept_live; eassumption|].
    apply Z.leb_le. cbn [snd]. lia.
Qed.

Lemma bounded_admit (w : world) (A : list Z) :
  kept w A -> List.NoDup A -> bounded A ->
  (count_in w key (time w - window * 1000) < limit)%Z ->
  bounded (A ++ [time w]).
Proof.
  intros Hk Hnd Hb Hc t. rewrite List.filter_app, length_app. cbn [List.filter].
  destruct (within t (time w)) eqn:Hin; cbn [List.length]; [|specialize (Hb t); lia].
  pose proof (recent_counted w A Hk Hnd) as Hrecent.
  assert (Hle : List.length (List.filter (within t) A)
                <= List.length (List.filter (fun x => (time w - window * 1000 <? x)%Z) A)).
  { apply filter_length_le. intros x _ Hx. unfold within in *.
    apply andb_true_iff in Hin as [H1 H2]. apply andb_true_iff in Hx as [H3 H4].
    apply Z.leb_le in H1, H3. apply Z.ltb_lt in H2, H4. apply Z.ltb_lt. lia. }
  lia.
Qed.

Lemma kept_admit (w w' : world) (A : list Z) :
  kept w A -> ~ In (time w) A ->
  zsets w' = <[key := recorded (time w) window (live w key)]> (zsets w) ->
  time w' = time w ->
  kept w' (A ++ [time w]).
Proof.
  intros Hk Hnew Hz Ht. pose proof Hk as [Hle _]. split.
  - intros x Hx. rewrite Ht. apply in_app_iff in Hx as [Hx | [<- | []]]; [auto | lia].
  - intros x Hx Hrecent. rewrite Ht in Hrecent.
    exists (recorded (time w) window (live w key)).
    split; [rewrite Hz; apply lookup_insert_eq|].
    cbn [recorded entries expires_at]. split.
    + apply List.filter_In. split; [|apply Z.ltb_lt; cbn [snd]; lia].
      apply in_app_iff. apply in_app_iff in Hx as [Hx | [<- | []]].
      * left. apply List.filter_In. split; [eapply kept_live; eassumption|].
        cbn [fst]. apply negb_true_iff, Z.eqb_neq. intros ->. exact (Hnew Hx).
      * right. left. reflexivity.
    + intros e [= <-].
      apply in_app_iff in Hx as [Hx | [<- | []]]; [specialize (Hle x Hx)|]; lia.
Qed.

End Counter.

(** ** Requests one after the other *)

(** The request proceeded. *)
Definition admitted (s : served) : bool :=
  match RateLimiter.answer s with
  | Next _ => true
  | _ => false
  end.

Definition bucket_eqb (a b : bucket) : bool :=
  match a, b with
  | Api, Api | Files, Files | WebhookBucket, WebhookBucket | Admin, Admin => true
  | _, _ => false
  end.

Lemma bucket_eqb_eq (a b : bucket) : bucket_eqb a b = true <-> a = b.
Proof. destruct a, b; cbn; split; congruence. Qed.

(** An admitted request of the identity in the bucket. *)
Definition counts_for (b : bucket) (identity : string) (s : served) : bool :=
  admitted s
  && bucket_eqb (to (arrived s)) b
  && String.eqb (getClientIdentifier (req (arrived s))) identity.

(** When the requests of an identity in a bucket were admitted. *)
Definition admitted_times (b : bucket) (identity : string) (out : list served) : list Z :=
  map at_time (List.filter (counts_for b identity) out).

Lemma serve_cons (a : arrival) (rest : list arrival) (w : world)
      (out : list served) (w' : world) :
  serve instantly never_fails (a :: rest) w = (inr out, w') ->
  exists res w2 others,
    handle instantly never_fails (to a) (req a) (advance (wait a) w) = (inr res, w2)
    /\ serve instantly never_fails rest w2 = (inr others, w')
    /\ out = {| at_time := time (advance (wait a) w); arrived := a;
                RateLimiter.answer := res |} :: others.
Proof.
  cbn [serve]. intros H.
  apply bind_inr_inv in H as (u & w1 & Hm & H).
  unfold modify in Hm. assert (w1 = advance (wait a) w) by congruence. subst w1.
  apply bind_inr_inv in H as (wg & w1' & Hg & H).
  unfold get in Hg.
  assert (wg = advance (wait a) w) by congruence.
  assert (w1' = advance (wait a) w) by congruence. subst wg w1'.
  apply bind_inr_inv in H as (res & w2 & Hh & H).
  apply bind_inr_inv in H as (others & w3 & Hs & H).
  unfold ret in H. assert (w3 = w') by congruence. subst w3.
  assert (out = {| at_time := time (advance (wait a) w); arrived := a;
                   RateLimiter.answer := res |} :: others) by congruence. subst out.
  exists res, w2, others. split; [exact Hh|]. split; [exact Hs | reflexivity].
Qed.

Lemma admitted_times_cons (b : bucket) (identity : string) (s : served) (others : list served) :
  admitted_times b identity (s :: others) =
    if counts_for b identity s then at_time s :: admitted_times b identity others
    else admitted_times b identity others.
Proof.
  unfold admitted_times. cbn [List.filter]. destruct (counts_for b identity s); reflexivity.
Qed.

Lemma serve_bounded (b : bucket) (r : request) (limit : Z) (arrivals : list arrival) :
  forall (w : world) (A : list Z) (out : list served) (w' : world),
    serve instantly never_fails arrivals w = (inr out, w') ->
    tiers_valid (strings w) ->
    quota (strings w) b r = Some limit ->
    kept (key_of b r) (window_of b) w A ->
    bounded (window_of b) limit A ->
    List.NoDup (A ++ admitted_times b (getClientIdentifier r) out) ->
    bounded (window_of b) limit (A ++ admitted_times b (getClientIdentifier r) out).
Proof.
  induction arrivals as [|a rest IH]; intros w A out w' H Hv Hq Hk Hb Hnd.
  - cbn [serve] in H. unfold ret in H. injection H as <- <-.
    unfold admitted_times. cbn [List.filter map]. rewrite app_nil_r. exact Hb.
  - apply serve_cons in H as (res & w2 & others & Hh & Hs & ->).
    set (w1 := advance (wait a) w) in *.
    assert (Hk1 : kept (key_of b r) (window_of b) w1 A)
      by (eapply kept_later; [exact Hk | reflexivity | cbn; lia]).
    destruct (handle_run (to a) (req a) w1 Hv)
      as (res0 & w2' & Hh' & Hs2 & Ht2 & Hcase).
    rewrite Hh' in Hh. injection Hh as -> ->.
    assert (Hv2 : tiers_valid (strings w2)) by (rewrite Hs2; exact Hv).
    assert (Hq2 : quota (strings w2) b r = Some limit) by (rewrite Hs2; exact Hq).
    rewrite admitted_times_cons in *.
    set (s := {| at_time := time w1; arrived := a; RateLimiter.answer := res |}) in *.
    destruct (counts_for b (getClientIdentifier r) s) eqn:Ec.
    + (* an admission of the identity in the bucket *)
      unfold counts_for in Ec. apply andb_true_iff in Ec as [Ec Ei].
      apply andb_true_iff in Ec as [Ea Eb].
      apply bucket_eqb_eq in Eb. apply String.eqb_eq in Ei.
      cbn [s arrived at_time] in *.
      destruct Hcase as [(h & limit_a & -> & Hqa & Hcount & Hz) | (Hno & Hz)];
        [|destruct res; try discriminate; destruct (Hno headers); reflexivity].
      assert (Hkey : key_of (to a) (req a) = key_of b r)
        by (unfold key_of; rewrite Eb, Ei; reflexivity).
      rewrite Hkey in *.
      assert (limit_a = limit).
      { rewrite Eb, (same_identity_same_quota _ b _ _ Ei) in Hqa.
        change (strings w1) with (strings w) in Hqa. congruence. }
      subst limit_a. rewrite Eb in Hz, Hcount.
      replace (A ++ time w1 :: admitted_times b (getClientIdentifier r) others)
        with ((A ++ [time w1]) ++ admitted_times b (getClientIdentifier r) others)
        in * by (rewrite <- app_assoc; reflexivity).
      assert (Hnd1 : List.NoDup (A ++ [time w1])) by (eapply List.NoDup_app_remove_r, Hnd).
      assert (HndA : List.NoDup A) by (eapply List.NoDup_app_remove_r, Hnd1).
      assert (Hnew : ~ In (time w1) A).
      { apply List.NoDup_remove_2 in Hnd1. rewrite app_nil_r in Hnd1. exact Hnd1. }
      apply (IH w2 (A ++ [time w1]) others w'); try assumption.
      * eapply (kept_admit _ _ w1 w2); eassumption.
      * eapply (bounded_admit _ _ _ w1); eassumption.
    + (* any other request leaves the sorted set of the key alone *)
      apply (IH w2 A others w'); try assumption.
      eapply kept_later; [exact Hk1 | | lia].
      destruct Hcase as [(h & limit_a & -> & Hqa & Hcount & Hz) | (Hno & Hz)];
        [|rewrite Hz; reflexivity].
      rewrite Hz. apply lookup_insert_ne. intros Hkey.
      apply key_of_inj in Hkey as [Hbk Hid].
      unfold counts_for in Ec. cbn [s admitted arrived RateLimiter.answer andb] in Ec.
      apply bucket_eqb_eq in Hbk. apply String.eqb_eq in Hid.
      rewrite Hbk, Hid in Ec. discriminate.
Qed.

(** C7, as the limiter has it.  When no limiter operation fails, the clock
    does not move while a request is handled, every stored tier is a tier
    of the table and the admitted requests of an identity in a bucket are
    handled at pairwise different milliseconds, then no window of the
    bucket's length holds more admitted requests of that identity than the
    quota of its tier for the bucket. *)
Theorem admitted_within_quota (arrivals : list arrival) (w0 : world)
        (out : list served) (w' : world) (b : bucket) (r : request) (limit t : Z) :
  serve instantly never_fails arrivals w0 = (inr out, w') ->
  tiers_valid (strings w0) ->
  quota (strings w0) b r = Some limit ->
  List.NoDup (admitted_times b (getClientIdentifier r) out) ->
  (Z.of_nat (List.length (List.filter (within (window_of b) t)
                            (admitted_times b (getClientIdentifier r) out)))
   <= limit)%Z.
Proof.
  intros H Hv Hq Hnd.
  apply (serve_bounded b r limit arrivals w0 [] out w' H Hv Hq).
  - split; intros x [].
  - intros t0. cbn. eapply quota_nonneg, Hq.
  - exact Hnd.
Qed.

End Quota.

(* ===================================================================== *)
(** * The limiter on concrete runs *)
(* ===================================================================== *)

Section LimiterRuns.
Import RateLimiter Eff.

Definition a_visitor : request :=
  {| req_user := None; req_ip := Some "203.0.113.7"; remoteAddress := "203.0.113.7" |}.

Definition a_customer : request :=
  {| req_user := Some {| user_id := "u1"; role := "user" |};
     req_ip := Some "203.0.113.8"; remoteAddress := "203.0.113.8" |}.

Definition idle : world :=
  {| zsets := ∅; strings := ∅; time := 0; steps := 0; commands := 0; log := [] |}.

(** A Free-tier identity sends one request each second. *)
Definition each_second (n : nat) : list arrival :=
  repeat {| wait := 1000; to := Api; req := a_visitor |} n.

(** The limiter after the first hundred of them. *)
Definition after_100 : world := snd (serve instantly never_fails (each_second 100) idle).

Lemma denial_details_witness :
  exists d w',
    handle instantly never_fails Api a_visitor after_100
      = (inr (TooMany "RATE_LIMIT_EXCEEDED" d), w')
    /\ d_remaining d = 0%Z
    /\ d_reset d = (time after_100 + window_of Api * 1000)%Z.
Proof.
  eexists _, _.
  assert (H : handle instantly never_fails Api a_visitor after_100
              = (inr (TooMany "RATE_LIMIT_EXCEEDED"
                        {| d_limit := 100; d_remaining := 0; d_reset := 1000000 |}),
                 snd (handle instantly never_fails Api a_visitor after_100)))
    by (vm_compute; reflexivity).
  split; [exact H|].
  apply (denial_details instantly never_fails Api a_visitor after_100 _ _ _ H).
  reflexivity.
Defined.

(** Every command fails: the request goes on. *)
Definition always_fails (n : nat) : bool := true.

Lemma fail_open_witness :
  fst (handle instantly always_fails Api a_visitor idle) = inr (Next None).
Proof.
  destruct (fail_open instantly always_fails Api a_visitor idle
              (fst (handle instantly always_fails Api a_visitor idle))
              (snd (handle instantly always_fails Api a_visitor idle))) as [H _].
  - apply surjective_pairing.
  - apply H. exists 0. split; [|reflexivity]. vm_compute. lia.
Defined.

(** Twelve uploads of one visitor, a second apart. *)
Definition uploads : list arrival :=
  repeat {| wait := 1000; to := Files; req := a_visitor |} 12.

Lemma admitted_within_quota_witness :
  (Z.of_nat (List.length
     (List.filter (within (window_of Files) 0)
        (admitted_times Files (getClientIdentifier a_visitor)
           (match fst (serve instantly never_fails uploads idle) with
            | inr out => out
            | inl _ => []
            end)))) <= 10)%Z.
Proof.
  assert (H : exists out,
             serve instantly never_fails uploads idle
             = (inr out, snd (serve instantly never_fails uploads idle))
             /\ List.NoDup (admitted_times Files (getClientIdentifier a_visitor) out)).
  { eexists. split; [vm_compute; reflexivity|].
    vm_compute. repeat (constructor; [cbn; lia|]). constructor. }
  destruct H as (out & H & Hnd). rewrite H. cbn [fst].
  apply (admitted_within_quota uploads idle out _ Files a_visitor 10 0 H).
  - intros k tier Hk. cbn [strings idle] in Hk. rewrite lookup_empty in Hk. discriminate.
  - reflexivity.
  - exact Hnd.
Defined.

End LimiterRuns.

(* ===================================================================== *)
(** * More of JavaScript's strings: [split] and [join] *)
(* ===================================================================== *)

Module Text.
Import JS.

(** The scan of [s.split(sep)] for a separator that is not empty: [acc]
    is the piece being read (reversed), [skip] the characters left of an
    occurrence of the separator that was just found.  Occurrences are
    taken from the left and do not overlap. *)
Fixpoint split_go (sep : list ascii) (skip : nat) (acc s : list ascii) : list (list ascii) :=
  match s with
  | [] => [rev acc]
  | c :: s' =>
      match skip with
      | S k => split_go sep k acc s'
      | 0 =>
          if is_prefix sep s
          then rev acc :: split_go sep (List.length sep - 1) [] s'
          else split_go sep 0 (c :: acc) s'
      end
  end.

(** [s.split(sep)], [sep] not empty (as in every call of the repository). *)
Definition split (s sep : string) : list string :=
  map str (split_go (chars sep) 0 [] (chars s)).

(** [pieces.join(sep)] *)
Fixpoint join (sep : string) (pieces : list string) : string :=
  match pieces with
  | [] => ""
  | p :: rest =>
      match rest with
      | [] => p
      | _ :: _ => p ++ sep ++ join sep rest
      end
  end.

(** [array[i]] read as text: [undefined] off the array. *)
Definition at_index (l : list string) (i : nat) : option string := nth_error l i.

End Text.

Section TextFacts.
Import JS Text.

Fixpoint joinl (sep : list ascii) (pieces : list (list ascii)) : list ascii :=
  match pieces with
  | [] => []
  | p :: rest =>
      match rest with
      | [] => p
      | _ :: _ => p ++ sep ++ joinl sep rest
      end
  end.

Lemma chars_app (a b : string) : chars (a ++ b)%string = chars a ++ chars b.
Proof.
  unfold chars. induction a as [|c a IH]; [reflexivity|].
  change (String c a ++ b)%string with (String c (a ++ b)%string).
  cbn [list_ascii_of_string app]. rewrite IH. reflexivity.
Qed.

Lemma chars_str (l : list ascii) : chars (str l) = l.
Proof. apply list_ascii_of_string_of_list_ascii. Qed.

Lemma str_chars (s : string) : str (chars s) = s.
Proof. apply string_of_list_ascii_of_string. Qed.

Lemma chars_join (sep : string) (pieces : list (list ascii)) :
  chars (join sep (map str pieces)) = joinl (chars sep) pieces.
Proof.
  induction pieces as [|p rest IH]; [reflexivity|].
  cbn [map join joinl]. destruct rest as [|q rest]; [apply chars_str|].
  cbn [map] in *. rewrite !chars_app, chars_str, IH. reflexivity.
Qed.

Lemma is_prefix_app (p l : list ascii) :
  is_prefix p l = true -> exists rest, l = p ++ rest.
Proof.
  revert l. induction p as [|a p IH]; intros l H; [exists l; reflexivity|].
  destruct l as [|b l]; [discriminate|]. cbn [is_prefix] in H.
  apply andb_true_iff in H as [Hab H]. apply Ascii.eqb_eq in Hab as ->.
  destruct (IH l H) as (rest & ->). exists rest. reflexivity.
Qed.

Lemma split_go_nonempty (sep : list ascii) (s : list ascii) :
  forall skip acc, split_go sep skip acc s <> [].
Proof.
  induction s as [|c s IH]; intros skip acc; cbn [split_go]; [discriminate|].
  destruct skip; [|apply IH]. destruct (is_prefix sep (c :: s)); [discriminate | apply IH].
Qed.

Lemma split_go_skip (sep pre rest acc : list ascii) :
  split_go sep (List.length pre) acc (pre ++ rest) = split_go sep 0 acc rest.
Proof.
  induction pre as [|c pre IH]; [reflexivity|]. cbn [List.length app split_go]. exact IH.
Qed.

Lemma joinl_cons (sep p : list ascii) (rest : list (list ascii)) :
  rest <> [] -> joinl sep (p :: rest) = p ++ sep ++ joinl sep rest.
Proof. destruct rest; [congruence | reflexivity]. Qed.

Lemma joinl_split_go (sep : list ascii) (n : nat) :
  sep <> [] ->
  forall s acc, List.length s <= n -> joinl sep (split_go sep 0 acc s) = rev acc ++ s.
Proof.
  intros Hsep. induction n as [|n IH]; intros s acc Hn.
  - destruct s; [|cbn in Hn; lia]. cbn. rewrite app_nil_r. reflexivity.
  - destruct s as [|c s]; [cbn; rewrite app_nil_r; reflexivity|].
    cbn [split_go]. destruct (is_prefix sep (c :: s)) eqn:Hp.
    + destruct (is_prefix_app _ _ Hp) as (rest & Hrest).
      destruct sep as [|a sep]; [congruence|].
      cbn [app] in Hrest. injection Hrest as -> ->.
      replace (List.length (a :: sep) - 1) with (List.length sep) by (cbn [List.length]; lia).
      rewrite split_go_skip.
      rewrite joinl_cons by apply split_go_nonempty.
      rewrite IH; [reflexivity|]. cbn [List.length] in Hn. rewrite length_app in Hn. lia.
    + rewrite IH by (cbn [List.length] in Hn; lia).
      cbn [rev]. rewrite <- app_assoc. reflexivity.
Qed.

(** Splitting a text at a separator and joining the pieces with it gives
    the text back. *)
Lemma join_split (s sep : string) : sep <> ""%string -> join sep (split s sep) = s.
Proof.
  intros Hsep. rewrite <- (str_chars (join sep (split s sep))). unfold split.
  rewrite chars_join, (joinl_split_go (chars sep) (List.length (chars s))); [apply str_chars | | lia].
  intros Hnil. apply Hsep. rewrite <- (str_chars sep), Hnil. reflexivity.
Qed.

(** No piece of a split at one character holds that character. *)
Lemma split_go_char (c : ascii) (s : list ascii) :
  forall acc, ~ In c acc -> Forall (fun p => ~ In c p) (split_go [c] 0 acc s).
Proof.
  induction s as [|x s IH]; intros acc Hacc; cbn [split_go].
  - constructor; [|constructor]. rewrite <- in_rev. exact Hacc.
  - cbn [is_prefix List.length Nat.sub]. rewrite andb_true_r.
    destruct (Ascii.eqb_spec c x) as [->|Hne].
    + constructor; [rewrite <- in_rev; exact Hacc|]. apply IH. intros [].
    + apply IH. intros [<- | H]; [congruence | exact (Hacc H)].
Qed.

Lemma split_char (s : string) (c : ascii) (p : string) :
  In p (split s (String c "")) -> ~ In c (chars p).
Proof.
  unfold split. intros H. apply in_map_iff in H as (l & <- & Hl).
  rewrite chars_str.
  pose proof (split_go_char c (chars s) [] (fun H => H)) as HF.
  rewrite List.Forall_forall in HF. exact (HF l Hl).
Qed.

End TextFacts.

(* ===================================================================== *)
(** * More of the rate limiter *)
(* ===================================================================== *)

Section LimiterMore.
Import RateLimiter Eff.

Variable elapse : nat -> nat.
Variable fault : nat -> bool.

(** A request that is answered 429 or 403 is not recorded: the sorted sets
    and the stored tiers are what they were, whatever time passes and
    whichever commands fail; a 403 leaves the whole world as it was. *)
Theorem rejected_request_is_not_recorded (b : bucket) (r : request) (w : world)
        (res : response) (w' : world) :
  handle elapse fault b r w = (inr res, w') ->
  (forall h, res <> Next h) ->
  zsets w' = zsets w /\ strings w' = strings w /\ (res = Forbidden -> w' = w).
Proof.
  rewrite handle_shape. unfold try_catch.
  destruct (guarded elapse fault b r w) as [[e|res1] w1] eqn:E.
  - unfold bind, console_error, modify, ret. intros [= <- <-] Hno.
    destruct (Hno None). reflexivity.
  - intros [= -> ->] Hno. unfold guarded in E.
    apply with_settings_spec in E as [[-> ->] | (limit & w2 & E & Hz & Hs & _)];
      [repeat split|].
    apply gate_spec in E as [(d & -> & P & _) | (w3 & _ & _ & _ & E)].
    + destruct P. repeat split; [congruence | congruence | discriminate].
    + apply admit_tail_spec in E as ((h & ->) & _). destruct (Hno h). reflexivity.
Qed.

Lemma tiers_nonempty (t : string) : is_Some (tiers t) -> nonempty t = true.
Proof.
  destruct t; [intros [c H]; discriminate | reflexivity].
Qed.

(** A tier stored by [setUserTier] is the tier the next lookup of that
    user yields, when the two commands go through; this needs a user id
    that is not empty, which is never looked up. *)
Theorem setUserTier_then_getUserTier (uid tier : string) (w : world) :
  nonempty uid = true ->
  is_Some (tiers tier) ->
  fault (commands w) = false ->
  fault (S (commands w)) = false ->
  exists w1 w2,
    setUserTier elapse fault uid tier w = (inr tt, w1)
    /\ getUserTier elapse fault (Some uid) w1 = (inr tier, w2)
    /\ strings w2 = <[("user:" ++ uid ++ ":tier")%string := tier]> (strings w)
    /\ zsets w2 = zsets w.
Proof.
  intros Hu Ht F0 F1. pose proof (tiers_nonempty tier Ht) as Hne.
  destruct Ht as [c Hc].
  eexists _, _. split.
  { unfold setUserTier, tiers_at. rewrite Hc.
    unfold redis_set, command, step, bind, ret, get, modify, throw.
    cbn [commands next_step]. rewrite F0. reflexivity. }
  unfold getUserTier. rewrite Hu.
  unfold redis_get, try_catch, command, step, console_error, bind, ret, get, modify, throw.
  cbn [commands steps strings next_step next_command set_strings]. rewrite F1.
  cbn [commands steps strings next_step next_command set_strings].
  rewrite lookup_insert_eq, Hne. repeat split.
Qed.

Lemma getUserTier_stored (uid tier : string) (w : world) :
  nonempty uid = true ->
  nonempty tier = true ->
  strings w !! ("user:" ++ uid ++ ":tier")%string = Some tier ->
  fault (commands w) = false ->
  getUserTier elapse fault (Some uid) w
  = (inr tier, next_command (next_step (elapse (steps w)) w)).
Proof.
  intros Hu Hne Hs F. unfold getUserTier. rewrite Hu.
  unfold redis_get, try_catch, command, step, console_error, bind, ret, get, modify, throw.
  cbn [commands steps strings next_step next_command set_strings]. rewrite F.
  cbn [commands steps strings next_step next_command set_strings].
  rewrite Hs, Hne. reflexivity.
Qed.

Lemma inherited_nonempty (tier : string) : tiers_at tier = Inherited -> nonempty tier = true.
Proof.
  destruct tier; [discriminate | reflexivity].
Qed.

(** [setUserTier] accepts more than the tiers of the table.  What it
    tests is [this.tiers[tier]], and for a name every object inherits
    ([constructor], [toString], ...) that is a function: such a name is
    stored.  From then on the limits of the user read [undefined], and
    the api and the file upload middleware pass a request of the user on
    whenever the tier is looked up, with an error logged and nothing
    counted.  A name that is neither a tier nor inherited is refused with
    nothing done. *)
Theorem inherited_name_is_accepted_as_tier
        (uid tier : string) (u : user) (r : request) (b : bucket) (w : world) :
  nonempty uid = true ->
  tiers_at tier = Inherited ->
  req_user r = Some u ->
  user_id u = uid ->
  b = Api \/ b = Files ->
  fault (commands w) = false ->
  fault (S (commands w)) = false ->
  (exists w1 w2,
     setUserTier elapse fault uid tier w = (inr tt, w1)
     /\ strings w1 = <[("user:" ++ uid ++ ":tier")%string := tier]> (strings w)
     /\ handle elapse fault b r w1 = (inr (Next None), w2)
     /\ zsets w2 = zsets w
     /\ strings w2 = strings w1
     /\ log w2 = log w ++ [("error: " ++ message_of b)%string])
  /\ (forall other, tiers_at other = Undefined ->
        setUserTier elapse fault uid other w = (inl ("Invalid tier: " ++ other)%string, w)).
Proof.
  intros Hu Hi Hr Hid Hb F0 F1. pose proof (inherited_nonempty tier Hi) as Hne.
  split; [|intros other Ho; unfold setUserTier; rewrite Ho; reflexivity].
  assert (E1 : setUserTier elapse fault uid tier w
               = (inr tt,
                  set_strings (<[("user:" ++ uid ++ ":tier")%string := tier]> (strings w))
                    (next_command (next_step (elapse (steps w)) w)))).
  { unfold setUserTier. rewrite Hi.
    unfold redis_set, command, step, bind, ret, get, modify, throw.
    cbn [commands next_step]. rewrite F0. reflexivity. }
  set (w1 := set_strings _ _) in E1.
  assert (E2 : getUserTier elapse fault (option_map user_id (req_user r)) w1
               = (inr tier, next_command (next_step (elapse (steps w1)) w1))).
  { rewrite Hr. cbn [option_map]. rewrite Hid.
    apply getUserTier_stored; try assumption. apply lookup_insert_eq. }
  set (w2 := next_command _) in E2.
  assert (E3 : forall A (k : tierConfig -> M world A),
             exists e, bind (tier_config elapse fault tier) k w2
                       = (inl e, next_command (next_step (elapse (S (steps w2)))
                                                 (next_step (elapse (steps w2)) w2)))).
  { intros A k. unfold tier_config. rewrite Hi.
    unfold Date_now, command, step, bind, ret, get, modify, throw.
    match goal with
    | |- context [if fault ?n then _ else _] => destruct (fault n)
    end; eexists; reflexivity. }
  destruct Hb as [-> | ->];
    (exists w1; eexists; split; [exact E1|]; split; [reflexivity|]; split;
     [ cbn [handle]; unfold middleware, fileUploadMiddleware;
       unfold try_catch; unfold bind at 1; rewrite E2;
       match goal with
       | |- context [bind (tier_config elapse fault tier) ?k w2] =>
           destruct (E3 _ k) as (e & ->)
       end;
       unfold console_error, bind, ret, modify; reflexivity
     | repeat split; reflexivity ]).
Qed.

End LimiterMore.

Section LimiterMoreRuns.
Import RateLimiter Eff.

Lemma rejected_request_is_not_recorded_witness :
  zsets (snd (handle instantly never_fails Api a_visitor after_100)) = zsets after_100.
Proof.
  assert (H : exists d,
             handle instantly never_fails Api a_visitor after_100
             = (inr (TooMany "RATE_LIMIT_EXCEEDED" d),
                snd (handle instantly never_fails Api a_visitor after_100)))
    by (eexists; vm_compute; reflexivity).
  destruct H as (d & H).
  apply (rejected_request_is_not_recorded instantly never_fails Api a_visitor after_100 _ _ H).
  discriminate.
Defined.

Lemma setUserTier_then_getUserTier_witness :
  exists w1 w2,
    setUserTier instantly never_fails "u1" "pro" idle = (inr tt, w1)
    /\ getUserTier instantly never_fails (Some "u1") w1 = (inr "pro", w2).
Proof.
  destruct (setUserTier_then_getUserTier instantly never_fails "u1" "pro" idle)
    as (w1 & w2 & H1 & H2 & _); [reflexivity | eexists; reflexivity | reflexivity | reflexivity |].
  exists w1, w2. split; assumption.
Defined.

(** A user whose tier was set to [constructor]. *)
Definition a_constructor : request :=
  {| req_user := Some {| user_id := "u1"; role := "user" |};
     req_ip := None; remoteAddress := "10.0.0.1" |}.

Lemma inherited_name_is_accepted_as_tier_witness :
  exists w1 w2,
    setUserTier instantly never_fails "u1" "constructor" idle = (inr tt, w1)
    /\ handle instantly never_fails Api a_constructor w1 = (inr (Next None), w2).
Proof.
  destruct (inherited_name_is_accepted_as_tier instantly never_fails "u1" "constructor"
              {| user_id := "u1"; role := "user" |} a_constructor Api idle)
    as [(w1 & w2 & H1 & _ & H2 & _) _];
    [reflexivity | reflexivity | reflexivity | reflexivity | left; reflexivity
    | reflexivity | reflexivity |].
  exists w1, w2. split; assumption.
Defined.

End LimiterMoreRuns.

Section SameMillisecond.
Import RateLimiter Eff.

Lemma recorded_again (t window : Z) (es : list (Z * Z)) :
  (0 < window)%Z ->
  recorded t window (entries (recorded t window es)) = recorded t window es.
Proof.
  intros Hw. unfold recorded. cbn [entries]. f_equal.
  set (P := fun e : Z * Z => (t - window * 1000 <? snd e)%Z).
  set (Q := fun e : Z * Z => negb (fst e =? t)%Z).
  assert (HP : P (t, t) = true) by (apply Z.ltb_lt; cbn [snd]; lia).
  assert (HQ : Q (t, t) = false) by (unfold Q; cbn [fst]; rewrite Z.eqb_refl; reflexivity).
  rewrite !List.filter_app. cbn [List.filter]. rewrite HP.
  cbn [List.filter]. rewrite HQ, app_nil_r.
  f_equal.
  induction es as [|e es IH]; [reflexivity|]. cbn [List.filter].
  destruct (Q e) eqn:Eq; [|exact IH]. cbn [List.filter].
  destruct (P e) eqn:Ep; [|exact IH]. cbn [List.filter]. rewrite Eq. cbn [List.filter].
  rewrite Ep. f_equal. exact IH.
Qed.

(** The member of a recorded request is its millisecond, so a request
    recorded in the millisecond of another adds nothing: recording twice at
    one time leaves the sorted sets, and so the count of the window, as
    after the first. *)
Theorem recordRequest_same_millisecond (key : string) (window : Z) (w : world) :
  (0 < window)%Z ->
  exists w1 w2,
    recordRequest instantly never_fails key window w = (inr tt, w1)
    /\ recordRequest instantly never_fails key window w1 = (inr tt, w2)
    /\ zsets w2 = zsets w1
    /\ count_in w2 key (time w2 - window * 1000) = count_in w1 key (time w1 - window * 1000).
Proof.
  intros Hw.
  destruct (recordRequest_run key window w Hw) as (w1 & E1 & S1 & T1 & Z1).
  destruct (recordRequest_run key window w1 Hw) as (w2 & E2 & S2 & T2 & Z2).
  exists w1, w2. split; [exact E1|]. split; [exact E2|].
  assert (Hlive : live w1 key = entries (recorded (time w) window (live w key))).
  { unfold live. rewrite Z1, lookup_insert_eq. cbn [expires_at recorded].
    destruct (Z.ltb_spec (time w + window * 1000) (time w1)); [lia | reflexivity]. }
  assert (Hz : zsets w2 = zsets w1).
  { rewrite Z2, Hlive, T1, (recorded_again _ _ _ Hw), Z1, insert_insert_eq. reflexivity. }
  split; [exact Hz|].
  unfold count_in. rewrite (live_same w1 w2 key Hz T2), T2. reflexivity.
Qed.

Lemma recordRequest_same_millisecond_witness :
  exists w1 w2,
    recordRequest instantly never_fails "rate_limit:api:ip:203.0.113.7" 900 idle = (inr tt, w1)
    /\ recordRequest instantly never_fails "rate_limit:api:ip:203.0.113.7" 900 w1 = (inr tt, w2)
    /\ zsets w2 = zsets w1.
Proof.
  destruct (recordRequest_same_millisecond "rate_limit:api:ip:203.0.113.7" 900 idle)
    as (w1 & w2 & H1 & H2 & H3 & _); [lia|].
  exists w1, w2. repeat split; assumption.
Defined.

End SameMillisecond.

(* ===================================================================== *)
(** * The limiter's reports: usage, reset and statistics *)
(* ===================================================================== *)

Module LimiterReports.
Import JS Text Eff Eff.Notations RateLimiter.

Record bucketUsage := {
  used : Z;
  u_limit : Z;
  u_remaining : Z;
  u_reset : Z
}.

Record usage := {
  u_tier : string;
  u_api : bucketUsage;
  u_files : bucketUsage
}.

Record resetResult := {
  success : bool;
  r_error : option string
}.

(** The keys Redis holds: the sorted sets that have not expired and the
    texts. *)
Definition zset_keys (w : world) : list string :=
  List.filter (fun k => match live w k with [] => false | _ :: _ => true end)
              (map fst (map_to_list (zsets w))).

Definition string_keys (w : world) : list string := map fst (map_to_list (strings w)).

Section Reports.

(** The surroundings of [RateLimiter.Limiter], and: the order in which
    [KEYS] lists the keys it found; the plain objects used as counters,
    with [{}] and what [if (!o[name]) o[name] = 0; o[name]++] makes of
    one. *)
Variable elapse : nat -> nat.
Variable fault : nat -> bool.
Variable listing : list string -> list string.
Variable counters : Type.
Variable no_counters : counters.
Variable count_up : string -> counters -> counters.

Abbreviation W := (M world).

(** [DEL key ...]: the keys are gone, whatever they held. *)
Definition redis_del (keys : list string) : W unit :=
  command elapse fault ;;;
  modify (fun w =>
    set_strings (foldr delete (strings w) keys) (set_zsets (foldr delete (zsets w) keys) w)).

(** [KEYS prefix*] *)
Definition redis_keys (prefix : string) : W (list string) :=
  command elapse fault ;;;
  w <- get ;;
  ret (listing (List.filter (fun k => startsWith k prefix) (zset_keys w ++ string_keys w))).

(** *** getUserUsage: [null] ([None]) when anything throws. *)
Definition getUserUsage (userId : string) : W (option usage) :=
  try_catch
    (userTier <- getUserTier elapse fault (Some userId) ;;
     tierConfig <- tier_config elapse fault userTier ;;
     let apiKey := generateKey "api" ("user:" ++ userId) in
     let fileKey := generateKey "files" ("user:" ++ userId) in
     apiUsage <- getRateLimitInfo elapse fault apiKey (window tierConfig) ;;
     fileUsage <- getRateLimitInfo elapse fault fileKey (fileWindow tierConfig) ;;
     ret (Some {| u_tier := userTier;
                  u_api := {| used := count apiUsage;
                              u_limit := requests tierConfig;
                              u_remaining := Z.max 0 (requests tierConfig - count apiUsage);
                              u_reset := reset apiUsage |};
                  u_files := {| used := count fileUsage;
                                u_limit := files tierConfig;
                                u_remaining := Z.max 0 (files tierConfig - count fileUsage);
                                u_reset := reset fileUsage |} |}))
    (fun _ => console_error "Error getting user usage" ;;; ret None).

(** *** resetUserLimits *)
Definition resetUserLimits (userId : string) : W resetResult :=
  try_catch
    (let apiKey := generateKey "api" ("user:" ++ userId) in
     let fileKey := generateKey "files" ("user:" ++ userId) in
     redis_del [apiKey; fileKey] ;;;
     ret {| success := true; r_error := None |})
    (fun error =>
       console_error "Error resetting user limits" ;;;
       ret {| success := false; r_error := Some error |}).

Record globalStats := {
  totalKeys : nat;
  byType : counters;
  byTier : counters
}.

(** A property name: [undefined] names the property ["undefined"]. *)
Definition property_name (o : option string) : string :=
  match o with
  | Some s => s
  | None => "undefined"
  end.

(** The loop of [getGlobalStats] over the keys. *)
Fixpoint tally_keys (keys : list string) (stats : globalStats) : W globalStats :=
  match keys with
  | [] => ret stats
  | key :: rest =>
      let parts := split key ":" in
      let type := at_index parts 2 in
      let stats1 := {| totalKeys := totalKeys stats;
                       byType := count_up (property_name type) (byType stats);
                       byTier := byTier stats |} in
      match at_index parts 3 with
      | None => throw "TypeError: Cannot read properties of undefined"
      | Some identifier =>
          stats2 <-
            (if startsWith identifier "user:" then
               let userId := at_index (split identifier ":") 1 in
               tier <- getUserTier elapse fault userId ;;
               ret {| totalKeys := totalKeys stats1;
                      byType := byType stats1;
                      byTier := count_up tier (byTier stats1) |}
             else ret stats1) ;;
          tally_keys rest stats2
      end
  end.

(** *** getGlobalStats: [null] ([None]) when anything throws. *)
Definition getGlobalStats : W (option globalStats) :=
  try_catch
    (keys <- redis_keys "rate_limit:" ;;
     stats <- tally_keys keys {| totalKeys := List.length keys;
                                 byType := no_counters;
                                 byTier := no_counters |} ;;
     ret (Some stats))
    (fun _ => console_error "Error getting global stats" ;;; ret None).

End Reports.

End LimiterReports.

Section ReportFacts.
Import JS Text RateLimiter Eff LimiterReports.

(** A request handled when nothing fails is admitted when the members of
    its key in the window are fewer than its quota, and answered 429
    otherwise (a request that passes the admin check, in the admin
    bucket). *)
Lemma handle_decision (b : bucket) (r : request) (w : world) (limit : Z) :
  tiers_valid (strings w) ->
  quota (strings w) b r = Some limit ->
  (b = Admin -> exists u, req_user r = Some u /\ role u = "admin") ->
  exists res w',
    handle instantly never_fails b r w = (inr res, w')
    /\ if (count_in w (key_of b r) (time w - window_of b * 1000) <? limit)%Z
       then exists h, res = Next h
       else exists d, res = TooMany (code_of b) d.
Proof.
  intros Hv Hq Hadmin.
  assert (Hk : forall w1, same w w1 ->
               exists res w',
                 try_catch
                   (gate instantly never_fails (key_of b r) limit (window_of b) (code_of b)
                      (admit_tail instantly never_fails b (key_of b r) limit (window_of b)))
                   (fun _ => bind (console_error (message_of b)) (fun _ => ret (Next None))) w1
                   = (inr res, w')
                 /\ if (count_in w (key_of b r) (time w - window_of b * 1000) <? limit)%Z
                    then exists h, res = Next h
                    else exists d, res = TooMany (code_of b) d).
  { intros w1 S1.
    destruct (gate_run (key_of b r) limit (window_of b) (code_of b)
                (admit_tail instantly never_fails b (key_of b r) limit (window_of b)) w1)
      as (w2 & S2 & Hg).
    rewrite (count_in_same w w1 _ _ S1) in Hg.
    destruct S1 as (_ & _ & T1). rewrite T1 in Hg.
    destruct (count_in w (key_of b r) (time w - window_of b * 1000) <? limit)%Z.
    - destruct (admit_tail_run b (key_of b r) limit (window_of b) w2 (window_of_positive b))
        as (h & w3 & E3 & _).
      exists (Next h), w3. unfold try_catch. rewrite Hg, E3. eauto.
    - destruct Hg as (d & Hg).
      exists (TooMany (code_of b) d), w2. unfold try_catch. rewrite Hg. eauto. }
  rewrite handle_shape. unfold guarded.
  destruct b; cbn [with_settings].
  - destruct (getUserTier_run r w) as (w1 & E & S1).
    cbn [quota] in Hq. destruct (tiers (tier_of (strings w) r)) as [c|] eqn:Hc; [|discriminate].
    injection Hq as <-.
    destruct (tiers_windows _ _ Hc) as [Hwin _].
    destruct (Hk w1 S1) as (res & w' & E' & Hrest).
    exists res, w'. split; [|exact Hrest].
    rewrite <- E'. unfold try_catch, bind at 1. rewrite E.
    unfold bind at 1, tier_config, tiers_at. rewrite Hc. unfold ret at 1. rewrite Hwin. reflexivity.
  - destruct (getUserTier_run r w) as (w1 & E & S1).
    cbn [quota] in Hq. destruct (tiers (tier_of (strings w) r)) as [c|] eqn:Hc; [|discriminate].
    injection Hq as <-.
    destruct (tiers_windows _ _ Hc) as [_ Hwin].
    destruct (Hk w1 S1) as (res & w' & E' & Hrest).
    exists res, w'. split; [|exact Hrest].
    rewrite <- E'. unfold try_catch, bind at 1. rewrite E.
    unfold bind at 1, tier_config, tiers_at. rewrite Hc. unfold ret at 1. rewrite Hwin. reflexivity.
  - injection Hq as <-. exact (Hk w (same_refl w)).
  - injection Hq as <-. destruct (Hadmin eq_refl) as (u & -> & ->). cbn [String.eqb].
    exact (Hk w (same_refl w)).
Qed.

Definition request_of (uid ro : string) (ip : option string) (addr : string) : request :=
  {| req_user := Some {| user_id := uid; role := ro |}; req_ip := ip; remoteAddress := addr |}.

Lemma key_of_user (b : bucket) (uid ro : string) (ip : option string) (addr : string) :
  nonempty uid = true ->
  key_of b (request_of uid ro ip addr) = generateKey (bucket_name b) ("user:" ++ uid)%string.
Proof.
  intros Hu. unfold key_of, getClientIdentifier. cbn [request_of req_user user_id].
  rewrite Hu. reflexivity.
Qed.

Lemma remaining_positive (limit c : Z) : (0 < Z.max 0 (limit - c))%Z <-> (c <? limit)%Z = true.
Proof. rewrite Z.ltb_lt. lia. Qed.

(** The usage report and the middlewares agree: for a user whose id is
    not empty, when nothing fails, the report shows requests remaining in
    a bucket exactly when the middleware of that bucket admits the user's
    next request. *)
Theorem getUserUsage_agrees_with_middleware
        (uid ro : string) (ip : option string) (addr : string) (w : world) :
  nonempty uid = true ->
  tiers_valid (strings w) ->
  exists u w1,
    getUserUsage instantly never_fails uid w = (inr (Some u), w1)
    /\ ((0 < u_remaining (u_api u))%Z <->
        exists h w2,
          handle instantly never_fails Api (request_of uid ro ip addr) w = (inr (Next h), w2))
    /\ ((0 < u_remaining (u_files u))%Z <->
        exists h w2,
          handle instantly never_fails Files (request_of uid ro ip addr) w = (inr (Next h), w2)).
Proof.
  intros Hu Hv. set (r := request_of uid ro ip addr).
  destruct (getUserTier_run r w) as (w1 & E & S1).
  destruct (tier_of_valid (strings w) r Hv) as [c Hc].
  destruct (tiers_windows _ _ Hc) as [Hwin Hfwin].
  destruct (getRateLimitInfo_run (generateKey "api" ("user:" ++ uid)%string) (window c) w1)
    as (w2 & E2 & S2).
  destruct (getRateLimitInfo_run (generateKey "files" ("user:" ++ uid)%string) (fileWindow c) w2)
    as (w3 & E3 & S3).
  pose proof (same_trans _ _ _ S1 S2) as S12.
  eexists _, w3. split.
  { unfold getUserUsage, try_catch. unfold bind at 1.
    change (Some uid) with (option_map user_id (req_user r)). rewrite E.
    unfold bind at 1, tier_config, tiers_at. rewrite Hc. unfold ret at 1.
    unfold bind at 1. rewrite E2. unfold bind at 1. rewrite E3. reflexivity. }
  cbn [u_api u_files u_remaining count].
  rewrite (count_in_same w w1 _ _ S1), (count_in_same w w2 _ _ S12).
  destruct S1 as (_ & _ & T1). destruct S12 as (_ & _ & T12). rewrite T1, T12, Hwin, Hfwin.
  rewrite !remaining_positive.
  split.
  - destruct (handle_decision Api r w (requests c) Hv) as (res & w' & Eh & Hd);
      [cbn [quota]; rewrite Hc; reflexivity | discriminate |].
    unfold r in Hd at 1. rewrite (key_of_user Api uid ro ip addr Hu) in Hd.
    cbn [bucket_name window_of] in Hd. split.
    + intros Hlt. rewrite Hlt in Hd. destruct Hd as (h & ->). eauto.
    + intros (h & w4 & Eh'). rewrite Eh in Eh'. injection Eh' as -> _.
      destruct (_ <? _)%Z; [reflexivity|]. destruct Hd as (d & Hd). discriminate.
  - destruct (handle_decision Files r w (files c) Hv) as (res & w' & Eh & Hd);
      [cbn [quota]; rewrite Hc; reflexivity | discriminate |].
    unfold r in Hd at 1. rewrite (key_of_user Files uid ro ip addr Hu) in Hd.
    cbn [bucket_name window_of] in Hd. split.
    + intros Hlt. rewrite Hlt in Hd. destruct Hd as (h & ->). eauto.
    + intros (h & w4 & Eh'). rewrite Eh in Eh'. injection Eh' as -> _.
      destruct (_ <? _)%Z; [reflexivity|]. destruct Hd as (d & Hd). discriminate.
Qed.

Lemma quota_positive (strs : gmap string string) (b : bucket) (r : request) (limit : Z) :
  quota strs b r = Some limit -> (0 < limit)%Z.
Proof.
  unfold quota, tiers.
  destruct b; try (intros [= <-]; lia);
    destruct (String.eqb (tier_of strs r) "free"); try (intros [= <-]; cbn; lia);
    destruct (String.eqb (tier_of strs r) "pro"); try (intros [= <-]; cbn; lia);
    destruct (String.eqb (tier_of strs r) "enterprise"); try (intros [= <-]; cbn; lia);
    discriminate.
Qed.

Lemma tiers_valid_delete (strs : gmap string string) (k : string) :
  tiers_valid strs -> tiers_valid (delete k strs).
Proof.
  intros Hv k' t Hk. apply lookup_delete_Some in Hk as [_ Hk]. exact (Hv k' t Hk).
Qed.

Lemma count_in_no_key (w : world) (key : string) (lo : Z) :
  zsets w !! key = None -> count_in w key lo = 0%Z.
Proof. intros H. unfold count_in, live. rewrite H. reflexivity. Qed.

(** After [resetUserLimits], when nothing fails, the user's next request
    is admitted in the api bucket and in the files bucket, however many
    were recorded before. *)
Theorem resetUserLimits_then_admitted
        (uid ro : string) (ip : option string) (addr : string) (w : world) (b : bucket) :
  nonempty uid = true ->
  tiers_valid (strings w) ->
  b = Api \/ b = Files ->
  exists w1 h w2,
    resetUserLimits instantly never_fails uid w
      = (inr {| success := true; r_error := None |}, w1)
    /\ handle instantly never_fails b (request_of uid ro ip addr) w1 = (inr (Next h), w2).
Proof.
  intros Hu Hv Hb. set (r := request_of uid ro ip addr).
  set (apiKey := generateKey "api" ("user:" ++ uid)%string).
  set (fileKey := generateKey "files" ("user:" ++ uid)%string).
  eexists _. 
  assert (E : resetUserLimits instantly never_fails uid w
              = (inr {| success := true; r_error := None |},
                 set_strings (delete apiKey (delete fileKey (strings w)))
                   (set_zsets (delete apiKey (delete fileKey (zsets w)))
                      (next_command (next_step 0 w))))) by reflexivity.
  rewrite E. clear E.
  set (w1 := set_strings _ _).
  assert (Hv1 : tiers_valid (strings w1))
    by (cbn [w1 strings set_strings]; apply tiers_valid_delete, tiers_valid_delete, Hv).
  destruct (tier_of_valid (strings w1) r Hv1) as [c Hc].
  assert (Hq : exists limit, quota (strings w1) b r = Some limit)
    by (destruct Hb as [-> | ->]; cbn [quota]; rewrite Hc; eexists; reflexivity).
  destruct Hq as (limit & Hq).
  destruct (handle_decision b r w1 limit Hv1 Hq) as (res & w2 & Eh & Hd);
    [destruct Hb as [-> | ->]; discriminate|].
  assert (Hne : apiKey <> fileKey).
  { unfold apiKey, fileKey, generateKey. intros H. apply append_cancel in H. discriminate. }
  assert (H0 : count_in w1 (key_of b r) (time w1 - window_of b * 1000) = 0%Z).
  { apply count_in_no_key. unfold r. rewrite (key_of_user b uid ro ip addr Hu).
    cbn [w1 zsets set_strings set_zsets].
    destruct Hb as [-> | ->]; cbn [bucket_name]; fold apiKey; fold fileKey.
    - apply lookup_delete_eq.
    - rewrite lookup_delete_ne by exact Hne. apply lookup_delete_eq. }
  rewrite H0 in Hd. pose proof (quota_positive _ _ _ _ Hq) as Hpos.
  destruct (Z.ltb_spec 0 limit); [|lia].
  destruct Hd as (h & ->). exists h, w2. split; [reflexivity | exact Eh].
Qed.

Lemma startsWith_has (s p : string) (c : ascii) :
  startsWith s p = true -> In c (chars p) -> In c (chars s).
Proof.
  unfold startsWith. intros H Hc. destruct (is_prefix_app _ _ H) as (rest & ->).
  apply in_app_iff. left. exact Hc.
Qed.

Section Stats.

Variable elapse : nat -> nat.
Variable fault : nat -> bool.
Variable listing : list string -> list string.
Variable counters : Type.
Variable no_counters : counters.
Variable count_up : string -> counters -> counters.

(** The loop over the keys issues no command and counts no tier. *)
Lemma tally_keys_spec (keys : list string) :
  forall (stats : globalStats counters) (w : world) res w',
    tally_keys elapse fault counters count_up keys stats w = (res, w') ->
    w' = w /\ forall st, res = inr st -> byTier counters st = byTier counters stats.
Proof.
  induction keys as [|key rest IH]; intros stats w res w'; cbn [tally_keys].
  - unfold ret. intros [= <- <-]. split; [reflexivity|]. intros st [= <-]. reflexivity.
  - destruct (at_index (split key ":") 3) as [identifier|] eqn:Hid.
    + assert (Hno : startsWith identifier "user:" = false).
      { destruct (startsWith identifier "user:") eqn:Hs; [|reflexivity].
        exfalso. apply nth_error_In in Hid.
        apply (split_char key ":"%char identifier Hid).
        apply (startsWith_has identifier "user:" ":"%char Hs). cbn. tauto. }
      rewrite Hno. unfold bind at 1, ret at 1. intros H.
      apply IH in H as [-> H]. split; [reflexivity|].
      intros st Hst. rewrite (H st Hst). reflexivity.
    + unfold throw. intros [= <- <-]. split; [reflexivity|]. discriminate.
Qed.

Lemma bind_run {A B} (c : M world A) (k : A -> M world B) (w : world)
      (r : exn + A) (w1 : world) :
  c w = (r, w1) ->
  bind c k w = match r with
               | inr a => k a w1
               | inl e => (inl e, w1)
               end.
Proof. unfold bind. intros ->. destruct r; reflexivity. Qed.

Lemma redis_keys_spec (prefix : string) (w : world) :
  exists r w1,
    redis_keys elapse fault listing prefix w = (r, w1)
    /\ commands w1 = S (commands w)
    /\ zsets w1 = zsets w /\ strings w1 = strings w.
Proof.
  unfold redis_keys, command, step, bind, modify, get, ret, throw.
  cbn [commands next_step].
  destruct (fault (commands w)); eexists _, _; (split; [reflexivity|]); repeat split.
Qed.

(** [getGlobalStats] never counts a tier: the identifier it takes from a
    key is a piece of the split at [:], so it never starts with [user:];
    no tier is looked up -- the one command issued is [KEYS] -- and
    [byTier] is the empty object in every report. *)
Theorem getGlobalStats_counts_no_tier (w : world) :
  commands (snd (getGlobalStats elapse fault listing counters no_counters count_up w))
    = S (commands w)
  /\ zsets (snd (getGlobalStats elapse fault listing counters no_counters count_up w)) = zsets w
  /\ strings (snd (getGlobalStats elapse fault listing counters no_counters count_up w))
     = strings w
  /\ forall st,
       fst (getGlobalStats elapse fault listing counters no_counters count_up w)
         = inr (Some st) ->
       byTier counters st = no_counters.
Proof.
  destruct (redis_keys_spec "rate_limit:" w) as (r & w1 & E & Hc & Hz & Hs).
  unfold getGlobalStats, try_catch. rewrite (bind_run _ _ _ _ _ E).
  destruct r as [e|ks].
  - unfold bind, console_error, modify, ret. cbn [fst snd commands zsets strings set_log].
    repeat split; try assumption. discriminate.
  - destruct (tally_keys elapse fault counters count_up ks
                {| totalKeys := List.length ks; byType := no_counters; byTier := no_counters |}
                w1) as [[e|st1] w2] eqn:E2;
      rewrite (bind_run _ _ _ _ _ E2);
      apply tally_keys_spec in E2 as [-> E2].
    + unfold bind, console_error, modify, ret. cbn [fst snd commands zsets strings set_log].
      repeat split; try assumption. discriminate.
    + unfold ret. cbn [fst snd]. repeat split; try assumption.
      intros st [= <-]. exact (E2 st1 eq_refl).
Qed.

End Stats.

Lemma empty_tiers_valid : tiers_valid (strings idle).
Proof. intros k t Hk. cbn [strings idle] in Hk. rewrite lookup_empty in Hk. discriminate. Qed.

Lemma getUserUsage_agrees_with_middleware_witness :
  exists u w1,
    getUserUsage instantly never_fails "u1" idle = (inr (Some u), w1)
    /\ (0 < u_remaining (u_api u))%Z.
Proof.
  destruct (getUserUsage_agrees_with_middleware "u1" "user" None "203.0.113.8" idle)
    as (u & w1 & E & Ha & _); [reflexivity | exact empty_tiers_valid |].
  exists u, w1. split; [exact E|]. apply Ha. eexists _, _. vm_compute. reflexivity.
Defined.

Lemma resetUserLimits_then_admitted_witness :
  exists w1 h w2,
    resetUserLimits instantly never_fails "u1" idle
      = (inr {| success := true; r_error := None |}, w1)
    /\ handle instantly never_fails Api (request_of "u1" "user" None "203.0.113.8") w1
       = (inr (Next h), w2).
Proof.
  apply (resetUserLimits_then_admitted "u1" "user" None "203.0.113.8" idle Api);
    [reflexivity | exact empty_tiers_valid | left; reflexivity].
Defined.

End ReportFacts.

(* ===================================================================== *)
(** * More of the webhook service: removal, lookup, clean-up, signatures *)
(* ===================================================================== *)

Module WebhookAdmin.
Import JS Text Eff Eff.Notations Webhook.

Definition set_isActive (b : bool) (h : webhook) : webhook :=
  {| id := id h; url := url h; events := events h; description := description h;
     userId := userId h; secret := secret h; isActive := b; createdAt := createdAt h;
     lastTriggered := lastTriggered h; stats := stats h |}.

(** *** unregisterWebhook
    The object is marked inactive where it lives, so whoever else holds
    it (a pending retry) sees the mark.  The result is the [success] of
    [{ success: true }]. *)
Definition unregisterWebhook (webhookId : string) : M world bool :=
  w <- get ;;
  match webhooks w !! webhookId with
  | None => throw "Webhook not found"
  | Some r =>
      update_stats r (set_isActive false) ;;;
      modify (fun w => set_webhooks (delete webhookId (webhooks w)) w) ;;;
      modify (fun w => set_emitted (emitted w ++ [("webhook:unregistered", r)]) w) ;;;
      ret true
  end.

(** *** getWebhook: [undefined] ([None]) for an id that is not registered. *)
Definition getWebhook (webhookId : string) (w : world) : option webhook :=
  match webhooks w !! webhookId with
  | Some r => heap w !! r
  | None => None
  end.

(** [!webhook.isActive && webhook.lastTriggered < cutoffDate]; [null]
    compares as 0. *)
Definition stale (cutoffDate : Z) (h : webhook) : bool :=
  negb (isActive h)
  && (match lastTriggered h with Some t => t | None => 0 end <? cutoffDate)%Z.

Definition kept_by_cleanup (cutoffDate : Z) (heap : gmap nat webhook) (entry : string * nat)
  : bool :=
  match heap !! snd entry with
  | Some h => negb (stale cutoffDate h)
  | None => true
  end.

(** The calls of the service that change it, as a client or the event
    loop makes them. *)
Inductive call :=
| Register (data : webhookData)
| Unregister (webhookId : string)
| Deliver (wh : nat) (p : payload) (attempt : nat)
| Timers (turns : nat)
| Cleanup.

(** *** cleanup: the entries of the map that are stale are deleted. *)
Definition cleanup : M world unit :=
  t <- Date_now ;;
  let cutoffDate := (t - 30 * 24 * 60 * 60 * 1000)%Z in
  modify (fun w =>
    set_webhooks
      (filter (fun entry => kept_by_cleanup cutoffDate (heap w) entry = true) (webhooks w)) w).

(** ** Signatures *)

(** The value of a hexadecimal digit. *)
Definition hex_digit (c : ascii) : option nat :=
  if is_digit c then Some (code c - 48)
  else if (97 <=? code c)%nat && (code c <=? 102)%nat then Some (code c - 87)
  else if (65 <=? code c)%nat && (code c <=? 70)%nat then Some (code c - 55)
  else None.

(** [Buffer.from(text, 'hex')]: one byte for each pair of digits, up to
    the first pair that is not one; a digit left alone at the end is
    dropped. *)
Fixpoint from_hex (l : list ascii) : list nat :=
  match l with
  | a :: b :: rest =>
      match hex_digit a, hex_digit b with
      | Some x, Some y => (16 * x + y) :: from_hex rest
      | _, _ => []
      end
  | _ => []
  end.

Definition Buffer_from_hex (s : string) : list nat := from_hex (chars s).

(** [crypto.timingSafeEqual]: a [RangeError] for buffers of different
    lengths. *)
Definition timingSafeEqual (a b : list nat) : exn + bool :=
  if (List.length a =? List.length b)%nat then inr (bool_decide (a = b))
  else inl "Input buffers must have the same byte length".

(** [String.prototype.toUpperCase] *)
Definition toUpperCase (s : string) : string := str (map upper (chars s)).

Section Signatures.

Variable JSON_stringify : payload -> string.
Variable hmac_sha256_hex : string -> string -> string.

(** *** verifySignature *)
Definition verifySignature (p : payload) (signature secret : string) : exn + bool :=
  let expectedSignature := createSignature JSON_stringify hmac_sha256_hex p secret in
  timingSafeEqual (Buffer_from_hex signature) (Buffer_from_hex expectedSignature).

End Signatures.

Section Calls.

Variable randomBytes_hex : nat -> nat -> string.
Variable new_URL : string -> option string.
Variable JSON_stringify : payload -> string.
Variable hmac_sha256_hex : string -> string -> string.
Variable axios_post : nat -> request -> reply.

(** The service after a call, whether it returned or threw. *)
Definition after_call (c : call) (w : world) : world :=
  match c with
  | Register data => snd (registerWebhook randomBytes_hex new_URL data w)
  | Unregister webhookId => snd (unregisterWebhook webhookId w)
  | Deliver wh p attempt =>
      snd (deliverWebhook randomBytes_hex JSON_stringify hmac_sha256_hex axios_post
             wh p attempt w)
  | Timers turns =>
      snd (run_timers randomBytes_hex JSON_stringify hmac_sha256_hex axios_post turns w)
  | Cleanup => snd (cleanup w)
  end.

Definition after_calls (cs : list call) (w : world) : world :=
  fold_left (fun w c => after_call c w) cs w.

End Calls.

End WebhookAdmin.

Section WebhookFacts.
Import JS Eff Webhook WebhookAdmin.

Variable randomBytes_hex : nat -> nat -> string.
Variable new_URL : string -> option string.
Variable JSON_stringify : payload -> string.
Variable hmac_sha256_hex : string -> string -> string.
Variable axios_post : nat -> request -> reply.

(** ** What each call does to the registry *)

Definition zero_stats : deliveryStats :=
  {| total := 0; successful := 0; failed := 0; lastDelivery := None |}.

Lemma registerWebhook_outcome (data : webhookData) (w : world) :
  (exists e w',
      registerWebhook randomBytes_hex new_URL data w = (inl e, w')
      /\ heap w' = heap w /\ webhooks w' = webhooks w /\ next_ref w' = next_ref w
      /\ timers w' = timers w)
  \/ (exists hook w',
        registerWebhook randomBytes_hex new_URL data w = (inr hook, w')
        /\ heap w' = <[next_ref w := hook]> (heap w)
        /\ webhooks w' = <[id hook := next_ref w]> (webhooks w)
        /\ next_ref w' = S (next_ref w)
        /\ timers w' = timers w
        /\ isActive hook = true
        /\ stats hook = zero_stats).
Proof.
  unfold registerWebhook, generateSecret, generateWebhookId, random_hex, Date_now.
  unfold bind, ret, get, modify, throw.
  destruct (isValidUrl new_URL (wd_url data)).
  - destruct (wd_events data) as [[|x l]|].
    + left. destruct (wd_secret data); cbn; eauto 10.
    + right. destruct (wd_secret data); cbn; eexists _, _; repeat split.
    + left. destruct (wd_secret data); cbn; eauto 10.
  - left. destruct (wd_secret data); cbn; eauto 10.
Qed.

Lemma unregisterWebhook_outcome (webhookId : string) (w : world) :
  match webhooks w !! webhookId with
  | None => unregisterWebhook webhookId w = (inl "Webhook not found", w)
  | Some r =>
      exists w',
        unregisterWebhook webhookId w = (inr true, w')
        /\ heap w' = alter (set_isActive false) r (heap w)
        /\ webhooks w' = delete webhookId (webhooks w)
        /\ next_ref w' = next_ref w
        /\ timers w' = timers w
        /\ sent w' = sent w
        /\ now w' = now w
        /\ randoms w' = randoms w
  end.
Proof.
  unfold unregisterWebhook, update_stats, bind, ret, get, modify, throw.
  destruct (webhooks w !! webhookId) as [r|]; [|reflexivity].
  eexists. repeat split.
Qed.

(** ** What the service keeps *)

(** The counters of a webhook add up. *)
Definition adds_up (h : webhook) : Prop :=
  total (stats h) = successful (stats h) + failed (stats h).

(** Every registered id has a webhook object of its own, which is active;
    and the counters of every webhook object add up. *)
Record sound (w : world) : Prop := {
  registered_active :
    forall i r, webhooks w !! i = Some r -> exists h, heap w !! r = Some h /\ isActive h = true;
  refs_in_use : forall i r, webhooks w !! i = Some r -> r < next_ref w;
  one_object_each :
    forall i1 i2 r, webhooks w !! i1 = Some r -> webhooks w !! i2 = Some r -> i1 = i2;
  counters_add_up : forall r h, heap w !! r = Some h -> adds_up h
}.

(** An object after deliveries were counted on it. *)
Definition counted_on (h h' : webhook) : Prop :=
  isActive h' = isActive h /\ url h' = url h /\ (adds_up h -> adds_up h').

Definition heap_counted (m m' : gmap nat webhook) : Prop :=
  forall r,
    match m !! r, m' !! r with
    | Some h, Some h' => counted_on h h'
    | None, None => True
    | _, _ => False
    end.

(** The registry is the same and the objects only had deliveries counted. *)
Definition touched (w w' : world) : Prop :=
  webhooks w' = webhooks w /\ next_ref w' = next_ref w /\ heap_counted (heap w) (heap w').

Lemma heap_counted_refl (m : gmap nat webhook) : heap_counted m m.
Proof. intros r. destruct (m !! r); [repeat split; auto | exact I]. Qed.

Lemma heap_counted_trans (m1 m2 m3 : gmap nat webhook) :
  heap_counted m1 m2 -> heap_counted m2 m3 -> heap_counted m1 m3.
Proof.
  intros H12 H23 r. specialize (H12 r). specialize (H23 r).
  destruct (m1 !! r), (m2 !! r), (m3 !! r); try tauto.
  destruct H12 as (A1 & U1 & C1), H23 as (A2 & U2 & C2).
  repeat split; [congruence | congruence | auto].
Qed.

Lemma touched_refl (w : world) : touched w w.
Proof. repeat split. apply heap_counted_refl. Qed.

Lemma touched_trans (w1 w2 w3 : world) : touched w1 w2 -> touched w2 w3 -> touched w1 w3.
Proof.
  intros (A1 & B1 & C1) (A2 & B2 & C2).
  repeat split; [congruence | congruence | eapply heap_counted_trans; eassumption].
Qed.

Lemma count_delivery_counted (t : Z) (ok touch : bool) (h : webhook) :
  counted_on h (count_delivery t ok touch h).
Proof.
  unfold counted_on, adds_up. cbn [count_delivery isActive url stats total successful failed].
  repeat split. destruct ok; lia.
Qed.

Lemma heap_counted_alter (t : Z) (ok touch : bool) (wh : nat) (m : gmap nat webhook) :
  heap_counted m (alter (count_delivery t ok touch) wh m).
Proof.
  intros r. destruct (decide (r = wh)) as [->|Hne].
  - rewrite lookup_alter_eq. destruct (m !! wh); [apply count_delivery_counted | exact I].
  - rewrite lookup_alter_ne by congruence. destruct (m !! r); [repeat split; auto | exact I].
Qed.

Lemma sound_touched (w w' : world) : sound w -> touched w w' -> sound w'.
Proof.
  intros [Ha Hr Ho Hc] (Hw & Hn & Hh). split.
  - intros i r Hi. rewrite Hw in Hi. destruct (Ha i r Hi) as (h & Hl & Hact).
    specialize (Hh r). rewrite Hl in Hh. destruct (heap w' !! r) as [h'|]; [|destruct Hh].
    exists h'. split; [reflexivity|]. destruct Hh as (-> & _). exact Hact.
  - intros i r Hi. rewrite Hw in Hi. rewrite Hn. eauto.
  - intros i1 i2 r. rewrite Hw. apply Ho.
  - intros r h' Hl. specialize (Hh r). rewrite Hl in Hh.
    destruct (heap w !! r) as [h|] eqn:E; [|destruct Hh].
    destruct Hh as (_ & _ & Hadd). eauto.
Qed.

(** A delivery, whatever its outcome. *)
Lemma deliverWebhook_touched (wh : nat) (p : payload) (attempt : nat) (w : world) :
  touched w (snd (deliverWebhook randomBytes_hex JSON_stringify hmac_sha256_hex axios_post
                    wh p attempt w)).
Proof.
  destruct (heap w !! wh) as [hook|] eqn:Hh.
  - destruct (deliverWebhook_run randomBytes_hex JSON_stringify hmac_sha256_hex axios_post
                wh p attempt w hook Hh) as (res & w' & E & _ & _ & _ & Hheap & _).
    rewrite E. cbn [snd].
    assert (Hw : webhooks w' = webhooks w /\ next_ref w' = next_ref w).
    { revert E.
      unfold deliverWebhook, generateDeliveryId, random_hex, Date_now, post, update_stats,
        console, scheduleRetry, when.
      unfold bind, ret, get, modify, throw, try_catch.
      cbn [heap set_randoms]. rewrite Hh.
      cbn [heap next_ref webhooks emitted randoms now timers sent log
           set_heap set_now set_sent set_log set_timers set_randoms].
      destruct (Webhook.answer _) as [msg|status].
      - destruct (attempt <? maxRetries)%nat; intros [= _ <-]; split; reflexivity.
      - destruct ((200 <=? status)%Z && (status <? 300)%Z);
          [|destruct (attempt <? maxRetries)%nat]; intros [= _ <-]; split; reflexivity. }
    destruct Hw as [Hw Hn]. repeat split; [exact Hw | exact Hn|].
    rewrite Hheap. apply heap_counted_alter.
  - unfold deliverWebhook, generateDeliveryId, random_hex, Date_now.
    unfold bind, ret, get, modify, throw. cbn [heap set_randoms]. rewrite Hh. cbn [snd].
    repeat split. apply heap_counted_refl.
Qed.

Lemma snd_try_catch {A} (c : M world A) (w : world) :
  snd (try_catch (bind c (fun _ => ret tt)) (fun _ => ret tt) w) = snd (c w).
Proof.
  unfold try_catch, bind, ret. destruct (c w) as [[e|a] w']; reflexivity.
Qed.

Lemma fire_next_touched (w : world) :
  touched w (snd (fire_next randomBytes_hex JSON_stringify hmac_sha256_hex axios_post w)).
Proof.
  unfold fire_next. unfold bind at 1, get.
  destruct (timers w) as [|t rest]; [apply touched_refl|].
  destruct (earliest t [] [] rest) as [t1 others].
  unfold bind at 1, modify.
  rewrite snd_try_catch.
  eapply touched_trans; [|apply deliverWebhook_touched].
  repeat split. apply heap_counted_refl.
Qed.

Lemma run_timers_touched (turns : nat) :
  forall w,
    touched w
      (snd (run_timers randomBytes_hex JSON_stringify hmac_sha256_hex axios_post turns w)).
Proof.
  induction turns as [|n IH]; intros w; cbn [run_timers]; [apply touched_refl|].
  unfold bind at 1, get. destruct (timers w) as [|t rest] eqn:Ht; [apply touched_refl|].
  pose proof (fire_next_touched w) as Hf.
  unfold bind.
  destruct (fire_next randomBytes_hex JSON_stringify hmac_sha256_hex axios_post w)
    as [[e|u] w1]; cbn [snd] in *; [exact Hf|].
  eapply touched_trans; [exact Hf | apply IH].
Qed.

Lemma cleanup_run (w : world) :
  cleanup w
  = (inr tt,
     set_webhooks
       (filter (fun entry =>
                  kept_by_cleanup (now w - 30 * 24 * 60 * 60 * 1000) (heap w) entry = true)
               (webhooks w)) w).
Proof. reflexivity. Qed.

Lemma set_webhooks_same (w : world) : set_webhooks (webhooks w) w = w.
Proof. destruct w; reflexivity. Qed.

Lemma cleanup_sound (w : world) : sound w -> cleanup w = (inr tt, w).
Proof.
  intros Hs. rewrite cleanup_run. f_equal.
  rewrite map_filter_id; [apply set_webhooks_same|].
  intros i r Hi. destruct (registered_active w Hs i r Hi) as (h & Hh & Hact).
  unfold kept_by_cleanup, stale. cbn [snd]. rewrite Hh, Hact. reflexivity.
Qed.

Lemma registerWebhook_sound (data : webhookData) (w : world) :
  sound w -> sound (snd (registerWebhook randomBytes_hex new_URL data w)).
Proof.
  intros Hs.
  destruct (registerWebhook_outcome data w)
    as [(e & w' & E & Hh & Hw & Hn & _) | (hook & w' & E & Hh & Hw & Hn & _ & Hact & Hst)];
    rewrite E; cbn [snd].
  - destruct Hs as [Ha Hr Ho Hc]. split; rewrite ?Hh, ?Hw, ?Hn; assumption.
  - destruct Hs as [Ha Hr Ho Hc]. split.
    + intros i r. rewrite Hw, Hh. intros Hi.
      destruct (decide (i = id hook)) as [->|Hne].
      * rewrite lookup_insert_eq in Hi. injection Hi as <-.
        exists hook. rewrite lookup_insert_eq. split; [reflexivity | exact Hact].
      * rewrite lookup_insert_ne in Hi by congruence.
        pose proof (Hr i r Hi) as Hlt.
        rewrite lookup_insert_ne by lia. exact (Ha i r Hi).
    + intros i r. rewrite Hw, Hn. intros Hi.
      destruct (decide (i = id hook)) as [->|Hne].
      * rewrite lookup_insert_eq in Hi. injection Hi as <-. lia.
      * rewrite lookup_insert_ne in Hi by congruence. pose proof (Hr i r Hi). lia.
    + intros i1 i2 r. rewrite Hw. intros H1 H2.
      destruct (decide (i1 = id hook)) as [->|Hne1], (decide (i2 = id hook)) as [->|Hne2];
        [reflexivity | | |].
      * rewrite lookup_insert_eq in H1. injection H1 as <-.
        rewrite lookup_insert_ne in H2 by congruence. pose proof (Hr i2 _ H2). lia.
      * rewrite lookup_insert_eq in H2. injection H2 as <-.
        rewrite lookup_insert_ne in H1 by congruence. pose proof (Hr i1 _ H1). lia.
      * rewrite lookup_insert_ne in H1, H2 by congruence. exact (Ho i1 i2 r H1 H2).
    + intros r h. rewrite Hh. intros Hl.
      destruct (decide (r = next_ref w)) as [->|Hne].
      * rewrite lookup_insert_eq in Hl. injection Hl as <-.
        unfold adds_up. rewrite Hst. reflexivity.
      * rewrite lookup_insert_ne in Hl by congruence. exact (Hc r h Hl).
Qed.

Lemma unregisterWebhook_sound (webhookId : string) (w : world) :
  sound w -> sound (snd (unregisterWebhook webhookId w)).
Proof.
  intros Hs. pose proof (unregisterWebhook_outcome webhookId w) as H.
  destruct (webhooks w !! webhookId) as [r0|] eqn:E0; [|rewrite H; exact Hs].
  destruct H as (w' & E & Hh & Hw & Hn & _). rewrite E. cbn [snd].
  destruct Hs as [Ha Hr Ho Hc]. split.
  - intros i r. rewrite Hw, Hh. intros Hi.
    apply lookup_delete_Some in Hi as [Hne Hi].
    assert (r <> r0) by (intros ->; apply Hne; exact (Ho _ _ _ E0 Hi)).
    rewrite lookup_alter_ne by congruence. exact (Ha i r Hi).
  - intros i r. rewrite Hw, Hn. intros Hi.
    apply lookup_delete_Some in Hi as [_ Hi]. exact (Hr i r Hi).
  - intros i1 i2 r. rewrite Hw. intros H1 H2.
    apply lookup_delete_Some in H1 as [_ H1]. apply lookup_delete_Some in H2 as [_ H2].
    exact (Ho i1 i2 r H1 H2).
  - intros r h. rewrite Hh. intros Hl.
    destruct (decide (r = r0)) as [->|Hne].
    + rewrite lookup_alter_eq in Hl. destruct (heap w !! r0) as [h0|] eqn:E1; [|discriminate].
      injection Hl as <-. exact (Hc r0 h0 E1).
    + rewrite lookup_alter_ne in Hl by congruence. exact (Hc r h Hl).
Qed.

Abbreviation then_call :=
  (after_call randomBytes_hex new_URL JSON_stringify hmac_sha256_hex axios_post).
Abbreviation then_calls :=
  (after_calls randomBytes_hex new_URL JSON_stringify hmac_sha256_hex axios_post).

Lemma after_call_sound (c : call) (w : world) : sound w -> sound (then_call c w).
Proof.
  intros Hs. destruct c as [data | webhookId | wh p attempt | turns |]; cbn [after_call].
  - apply registerWebhook_sound, Hs.
  - apply unregisterWebhook_sound, Hs.
  - eapply sound_touched; [exact Hs | apply deliverWebhook_touched].
  - eapply sound_touched; [exact Hs | apply run_timers_touched].
  - rewrite (cleanup_sound w Hs). exact Hs.
Qed.

Lemma after_calls_sound (cs : list call) : forall w, sound w -> sound (then_calls cs w).
Proof.
  induction cs as [|c cs IH]; intros w Hs; [exact Hs|].
  cbn [after_calls fold_left]. apply IH, after_call_sound, Hs.
Qed.

Lemma empty_service_sound : sound empty_service.
Proof.
  split; cbn [empty_service webhooks heap]; intros *; rewrite lookup_empty; discriminate.
Qed.

(** Whatever calls were made on a service that started empty, [cleanup]
    removes nothing: a webhook is marked inactive only by
    [unregisterWebhook], which takes it out of the map at once, so the map
    never holds an inactive webhook. *)
Theorem cleanup_removes_nothing (cs : list call) :
  cleanup (then_calls cs empty_service) = (inr tt, then_calls cs empty_service).
Proof.
  apply cleanup_sound, after_calls_sound, empty_service_sound.
Qed.

(** Whatever calls were made on a service that started empty, the counters
    of every webhook add up: each delivery attempt is counted once, as a
    success or as a failure. *)
Theorem delivery_counters_add_up (cs : list call) (r : nat) (h : webhook) :
  heap (then_calls cs empty_service) !! r = Some h ->
  total (stats h) = successful (stats h) + failed (stats h).
Proof.
  apply (counters_add_up _ (after_calls_sound cs _ empty_service_sound)).
Qed.

(** A registered webhook is found under its id until it is unregistered;
    unregistering it leaves the other registrations as they were, and
    unregistering it again throws with nothing done. *)
Theorem register_get_unregister (data : webhookData) (w : world) (hook : webhook) (w' : world) :
  registerWebhook randomBytes_hex new_URL data w = (inr hook, w') ->
  sound w ->
  getWebhook (id hook) w' = Some hook
  /\ exists w'',
       unregisterWebhook (id hook) w' = (inr true, w'')
       /\ getWebhook (id hook) w'' = None
       /\ (forall i, i <> id hook -> getWebhook i w'' = getWebhook i w)
       /\ unregisterWebhook (id hook) w'' = (inl "Webhook not found", w'').
Proof.
  intros E Hs.
  destruct (registerWebhook_outcome data w)
    as [(e & w1 & E1 & _) | (hook1 & w1 & E1 & Hh & Hw & Hn & _)];
    rewrite E1 in E; [discriminate|]. injection E as -> ->.
  assert (Hl : webhooks w' !! id hook = Some (next_ref w))
    by (rewrite Hw; apply lookup_insert_eq).
  split; [unfold getWebhook; rewrite Hl, Hh; apply lookup_insert_eq|].
  pose proof (unregisterWebhook_outcome (id hook) w') as Hu. rewrite Hl in Hu.
  destruct Hu as (w'' & Eu & Hh2 & Hw2 & _).
  exists w''. split; [exact Eu|].
  assert (Hgone : webhooks w'' !! id hook = None) by (rewrite Hw2; apply lookup_delete_eq).
  split; [unfold getWebhook; rewrite Hgone; reflexivity|]. split.
  - intros i Hi. unfold getWebhook.
    rewrite Hw2, lookup_delete_ne, Hw, lookup_insert_ne by congruence.
    destruct (webhooks w !! i) as [r|] eqn:Er; [|reflexivity].
    pose proof (refs_in_use w Hs i r Er) as Hlt.
    rewrite Hh2, lookup_alter_ne, Hh, lookup_insert_ne by lia. reflexivity.
  - pose proof (unregisterWebhook_outcome (id hook) w'') as Hu2. rewrite Hgone in Hu2. exact Hu2.
Qed.

(** Unregistering a webhook does not cancel a retry that is pending for
    it: the timer stays, and when it fires the request is still sent to the
    webhook's URL. *)
Theorem unregistered_webhook_is_still_retried
        (i : string) (r : nat) (hook : webhook) (t : timer) (w : world) :
  webhooks w !! i = Some r ->
  heap w !! r = Some hook ->
  timers w = [t] ->
  t_webhook t = r ->
  exists w1 w2 rq,
    unregisterWebhook i w = (inr true, w1)
    /\ getWebhook i w1 = None
    /\ fire_next randomBytes_hex JSON_stringify hmac_sha256_hex axios_post w1 = (inr tt, w2)
    /\ sent w2 = sent w ++ [rq]
    /\ r_url rq = url hook
    /\ r_attempt rq = t_attempt t + 1.
Proof.
  intros Hi Hh Ht Hr.
  pose proof (unregisterWebhook_outcome i w) as Hu. rewrite Hi in Hu.
  destruct Hu as (w1 & Eu & Hh1 & Hw1 & _ & Ht1 & Hs1 & _).
  assert (Hhook : heap w1 !! r = Some (set_isActive false hook))
    by (rewrite Hh1, lookup_alter_eq, Hh; reflexivity).
  set (w1' := set_now (Z.max (now w1) (due t)) (set_timers [] w1)).
  destruct (deliverWebhook_run randomBytes_hex JSON_stringify hmac_sha256_hex axios_post
              r (t_payload t) (t_attempt t) w1' (set_isActive false hook) Hhook)
    as (res & w2 & Ed & _ & Hsent & _).
  exists w1, w2. eexists. split; [exact Eu|].
  split; [unfold getWebhook; rewrite Hw1, lookup_delete_eq; reflexivity|].
  split.
  { unfold fire_next. unfold bind at 1, get. rewrite Ht1, Ht. cbn [earliest app].
    unfold bind at 1, modify. fold w1'. unfold try_catch, bind. rewrite Hr, Ed. reflexivity. }
  split; [rewrite Hsent; cbn [w1' sent set_now set_timers]; rewrite Hs1; reflexivity|].
  split; reflexivity.
Qed.

(** ** Signatures *)

Lemma hex_digit_upper (c : ascii) : hex_digit (upper c) = hex_digit c.
Proof.
  destruct c as [[] [] [] [] [] [] [] []]; vm_compute; reflexivity.
Qed.

Lemma from_hex_upper (l : list ascii) :
  from_hex (map upper l) = from_hex l
  /\ forall a, from_hex (map upper (a :: l)) = from_hex (a :: l).
Proof.
  induction l as [|b l [IH1 IH2]]; [split; [reflexivity | intros a; reflexivity]|].
  split; [apply IH2|].
  intros a. cbn [map from_hex]. rewrite !hex_digit_upper.
  destruct (hex_digit a); [|reflexivity]. destruct (hex_digit b); [|reflexivity].
  f_equal. exact IH1.
Qed.

Lemma Buffer_from_hex_upper (s : string) :
  Buffer_from_hex (toUpperCase s) = Buffer_from_hex s.
Proof.
  unfold Buffer_from_hex, toUpperCase. rewrite chars_str. apply from_hex_upper.
Qed.

Lemma timingSafeEqual_same (a : list nat) : timingSafeEqual a a = inr true.
Proof.
  unfold timingSafeEqual. rewrite Nat.eqb_refl. f_equal. apply bool_decide_eq_true. reflexivity.
Qed.

(** The signature [createSignature] makes for a payload verifies, and a
    signature verifies the same in capital letters: the two texts are
    compared as the bytes their hexadecimal digits spell. *)
Theorem verifySignature_accepts_own_signature (p : payload) (secret signature : string) :
  verifySignature JSON_stringify hmac_sha256_hex p
    (createSignature JSON_stringify hmac_sha256_hex p secret) secret = inr true
  /\ verifySignature JSON_stringify hmac_sha256_hex p (toUpperCase signature) secret
     = verifySignature JSON_stringify hmac_sha256_hex p signature secret.
Proof.
  unfold verifySignature. split; [apply timingSafeEqual_same|].
  rewrite Buffer_from_hex_upper. reflexivity.
Qed.

Definition is_hex (c : ascii) : bool :=
  match hex_digit c with
  | Some _ => true
  | None => false
  end.

(** The text is made of pairs of hexadecimal digits. *)
Fixpoint hex_pairs (l : list ascii) : bool :=
  match l with
  | [] => true
  | a :: rest =>
      match rest with
      | b :: rest' => is_hex a && is_hex b && hex_pairs rest'
      | [] => false
      end
  end.

Lemma from_hex_stops (c : ascii) (r l : list ascii) :
  hex_digit c = None ->
  (hex_pairs l = true -> from_hex (l ++ c :: r) = from_hex l)
  /\ forall a, hex_pairs (a :: l) = true -> from_hex ((a :: l) ++ c :: r) = from_hex (a :: l).
Proof.
  intros Hc. induction l as [|b l [IH1 IH2]].
  - split; [|discriminate]. intros _. cbn [app from_hex]. rewrite Hc. destruct r; reflexivity.
  - split; [apply IH2|].
    intros a. cbn [hex_pairs app from_hex]. unfold is_hex.
    destruct (hex_digit a); [|discriminate]. destruct (hex_digit b); [|discriminate].
    cbn [andb]. intros H. f_equal. exact (IH1 H).
Qed.

(** A signature followed by other text verifies as the signature alone:
    the text is read up to the first character that is not a hexadecimal
    digit. *)
Theorem verifySignature_ignores_what_follows
        (p : payload) (secret signature : string) (c : ascii) (rest : string) :
  hex_pairs (chars signature) = true ->
  hex_digit c = None ->
  verifySignature JSON_stringify hmac_sha256_hex p (signature ++ String c rest)%string secret
  = verifySignature JSON_stringify hmac_sha256_hex p signature secret.
Proof.
  intros Hs Hc. unfold verifySignature, Buffer_from_hex. rewrite chars_app.
  change (chars (String c rest)) with (c :: chars rest).
  rewrite (proj1 (from_hex_stops c (chars rest) (chars signature) Hc) Hs). reflexivity.
Qed.

End WebhookFacts.

Section WebhookRuns.
Import JS Eff Webhook WebhookAdmin.

Definition a_registration : webhookData :=
  {| wd_url := UrlText "https://example.com/hook";
     wd_events := EventsArray ["processing.completed"];
     wd_description := None;
     wd_userId := "user-1";
     wd_secret := Some "s3cret" |}.

Definition random_00 (k n : nat) : string := "00".
Definition json_braces (p : payload) : string := "{}".
Definition hmac_00ff (key message : string) : string := "00ff".

Lemma register_get_unregister_witness :
  exists hook w',
    registerWebhook random_00 prefix_URL a_registration empty_service = (inr hook, w')
    /\ getWebhook (id hook) w' = Some hook.
Proof.
  eassert (E : registerWebhook random_00 prefix_URL a_registration empty_service
               = (inr _, _)) by (vm_compute; reflexivity).
  destruct (register_get_unregister random_00 prefix_URL a_registration empty_service _ _ E
              empty_service_sound) as [Hg _].
  eexists _, _. split; [exact E | exact Hg].
Defined.

(** The service of [a_service] after a first delivery failed. *)
Definition retry_pending : world :=
  snd (deliverWebhook random_00 json_braces hmac_00ff always_500 0 an_event 0 a_service).

Lemma unregistered_webhook_is_still_retried_witness :
  exists w1 w2 rq,
    unregisterWebhook "wh_1" retry_pending = (inr true, w1)
    /\ getWebhook "wh_1" w1 = None
    /\ fire_next random_00 json_braces hmac_00ff always_500 w1 = (inr tt, w2)
    /\ sent w2 = sent retry_pending ++ [rq]
    /\ r_url rq = "https://example.com/hook".
Proof.
  eassert (Hh : heap retry_pending !! 0 = Some _) by (vm_compute; reflexivity).
  eassert (Ht : timers retry_pending = [_]) by (vm_compute; reflexivity).
  destruct (unregistered_webhook_is_still_retried random_00 json_braces hmac_00ff always_500
              "wh_1" 0 _ _ retry_pending eq_refl Hh Ht eq_refl)
    as (w1 & w2 & rq & H1 & H2 & H3 & H4 & H5 & _).
  exists w1, w2, rq. repeat split; assumption.
Defined.

Lemma delivery_counters_add_up_witness :
  exists h,
    heap (after_calls random_00 prefix_URL json_braces hmac_00ff always_500
            [Register a_registration; Deliver 0 an_event 0; Timers 2] empty_service) !! 0
      = Some h
    /\ total (stats h) = 3
    /\ total (stats h) = successful (stats h) + failed (stats h).
Proof.
  eassert (H : heap (after_calls random_00 prefix_URL json_braces hmac_00ff always_500
                       [Register a_registration; Deliver 0 an_event 0; Timers 2]
                       empty_service) !! 0 = Some _) by (vm_compute; reflexivity).
  eexists. split; [exact H|]. split; [reflexivity|].
  exact (delivery_counters_add_up random_00 prefix_URL json_braces hmac_00ff always_500 _ _ _ H).
Defined.

Lemma verifySignature_ignores_what_follows_witness :
  verifySignature json_braces hmac_00ff an_event "00ff; rm" "s3cret" = inr true.
Proof.
  change "00ff; rm" with ("00ff" ++ String ";" " rm")%string.
  rewrite (verifySignature_ignores_what_follows json_braces hmac_00ff an_event "s3cret"
             "00ff" ";" " rm" eq_refl eq_refl).
  reflexivity.
Defined.

End WebhookRuns.

(* ===================================================================== *)
(** * More of the worker *)
(* ===================================================================== *)

Section WorkerFacts.
Import Processor Eff.

Variable db_fault : nat -> bool.
Variable db_new_id : nat -> string.
Variable clock : nat -> Z.
Variable ps : parsers.
Variable uuidv4 : nat -> string.
Variable moment_iso : string -> option string.
Variable globalIO : bool.

Lemma update_file_missing (fileId : string) (f : file_row -> file_row) (d : database) :
  files d !! fileId = None -> update_file fileId f d = d.
Proof.
  intros H. destruct d as [p i fd fl]. unfold update_file. cbn [properties inspections findings files] in *.
  f_equal. apply map_eq. intros k. destruct (decide (k = fileId)) as [->|Hne].
  - rewrite lookup_alter_eq, H. reflexivity.
  - rewrite lookup_alter_ne by congruence. reflexivity.
Qed.

Lemma updateFileStatus_outcome (fileId status : string) (progress : option Z)
      (error : option string) (w : world) :
  exists w',
    updateFileStatus db_fault clock globalIO fileId status progress error w = (inr tt, w')
    /\ pending w' = pending w
    /\ properties (committed w') = properties (committed w)
    /\ inspections (committed w') = inspections (committed w)
    /\ findings (committed w') = findings (committed w)
    /\ (db_fault (statements w) = true ->
        committed w' = committed w /\ emitted w' = emitted w)
    /\ (files (committed w) !! fileId = None -> committed w' = committed w)
    /\ (db_fault (statements w) = false -> globalIO = true ->
        exists t data,
          emitted w' = emitted w ++ [("file-status-updated", ("timestamp", JNum t) :: data)]).
Proof.
  unfold updateFileStatus, emitStatusUpdate, db_run, statement, new_Date.
  unfold bind, ret, get, modify, throw, try_catch.
  cbn [committed pending statements clock_reads emitted set_pending set_committed
       next_statement next_clock_read add_emitted fst snd].
  destruct (db_fault (statements w)) eqn:F.
  - eexists. split; [reflexivity|].
    cbn [committed pending statements clock_reads emitted set_pending set_committed
         next_statement next_clock_read add_emitted].
    repeat split; try reflexivity; discriminate.
  - destruct globalIO; (eexists; split; [reflexivity|]);
      cbn [committed pending statements clock_reads emitted set_pending set_committed
           next_statement next_clock_read add_emitted properties inspections findings
           update_file];
      repeat split; try reflexivity; try discriminate;
      try (intros H; apply update_file_missing; exact H).
    intros _ _. eexists _, _. reflexivity.
Qed.

(** [updateFileStatus] never throws.  When the database refuses the
    update, the store is what it was and no event is sent; when no row has
    the file's id, the store is what it was too -- and the event is sent
    all the same. *)
Theorem updateFileStatus_never_throws (fileId status : string) (progress : option Z)
        (error : option string) (w : world) :
  exists w',
    updateFileStatus db_fault clock globalIO fileId status progress error w = (inr tt, w')
    /\ pending w' = pending w
    /\ properties (committed w') = properties (committed w)
    /\ inspections (committed w') = inspections (committed w)
    /\ findings (committed w') = findings (committed w)
    /\ (db_fault (statements w) = true ->
        committed w' = committed w /\ emitted w' = emitted w)
    /\ (files (committed w) !! fileId = None -> committed w' = committed w)
    /\ (db_fault (statements w) = false -> globalIO = true ->
        exists t data,
          emitted w' = emitted w ++ [("file-status-updated", ("timestamp", JNum t) :: data)]).
Proof. apply updateFileStatus_outcome. Qed.

Lemma emitStatusUpdate_outcome (event : string) (data : list (string * jsval)) (w : world) :
  exists w',
    emitStatusUpdate clock globalIO event data w = (inr tt, w')
    /\ committed w' = committed w
    /\ pending w' = pending w
    /\ emitted w' = emitted w ++ (if globalIO
                                  then [(event, ("timestamp", JNum (clock (clock_reads w))) :: data)]
                                  else []).
Proof.
  unfold emitStatusUpdate, new_Date, bind, ret, get, modify.
  destruct globalIO; eexists; (split; [reflexivity|]); cbn; rewrite ?app_nil_r; repeat split.
Qed.

(** The three tables of extracted data. *)
Definition same_records (d d' : database) : Prop :=
  properties d' = properties d /\ inspections d' = inspections d /\ findings d' = findings d.

Lemma same_records_refl (d : database) : same_records d d.
Proof. repeat split. Qed.

Lemma same_records_trans (d1 d2 d3 : database) :
  same_records d1 d2 -> same_records d2 d3 -> same_records d1 d3.
Proof. intros (? & ? & ?) (? & ? & ?). repeat split; congruence. Qed.

Lemma updateFileStatus_records (fileId status : string) (progress : option Z)
      (error : option string) (w : world) :
  exists w',
    updateFileStatus db_fault clock globalIO fileId status progress error w = (inr tt, w')
    /\ same_records (committed w) (committed w')
    /\ pending w' = pending w.
Proof.
  destruct (updateFileStatus_outcome fileId status progress error w)
    as (w' & E & Hp & H1 & H2 & H3 & _).
  exists w'. repeat split; assumption.
Qed.

(** A job whose file cannot be read -- the parser throws, or the type is
    not supported -- throws that very error, whatever the database does,
    and writes no property, inspection or finding. *)
Theorem failed_job_rethrows (job : jobData) (e : exn) (w : world) :
  (forall w0, processFile ps uuidv4 moment_iso (jd_filePath job) (jd_fileType job) w0
              = (inl e, w0)) ->
  exists w',
    processFileJob db_fault db_new_id clock ps uuidv4 moment_iso globalIO job w = (inl e, w')
    /\ properties (committed w') = properties (committed w)
    /\ inspections (committed w') = inspections (committed w)
    /\ findings (committed w') = findings (committed w)
    /\ pending w' = pending w
    /\ (globalIO = true ->
        exists l t,
          emitted w' = l ++ [("file-processing-failed",
                              [("timestamp", JNum t); ("fileId", JStr (jd_fileId job));
                               ("fileName", JStr (jd_originalName job)); ("error", JStr e)])]).
Proof.
  intros Hfail.
  destruct (updateFileStatus_records (jd_fileId job) "processing" (Some 10%Z) None w)
    as (w1 & E1 & R1 & P1).
  destruct (emitStatusUpdate_outcome "file-processing-started"
              [("fileId", JStr (jd_fileId job)); ("fileName", JStr (jd_originalName job));
               ("fileType", JStr (jd_fileType job))] w1) as (w2 & E2 & C2 & P2 & _).
  destruct (updateFileStatus_records (jd_fileId job) "processing" (Some 30%Z) None w2)
    as (w3 & E3 & R3 & P3).
  destruct (updateFileStatus_records (jd_fileId job) "failed" None (Some e) w3)
    as (w4 & E4 & R4 & P4).
  destruct (emitStatusUpdate_outcome "file-processing-failed"
              [("fileId", JStr (jd_fileId job)); ("fileName", JStr (jd_originalName job));
               ("error", JStr e)] w4) as (w5 & E5 & C5 & P5 & M5).
  exists w5. split.
  - unfold processFileJob, try_catch.
    rewrite (bind_returns _ _ _ _ _ E1), (bind_returns _ _ _ _ _ E2),
      (bind_returns _ _ _ _ _ E3).
    unfold bind at 1. rewrite Hfail.
    rewrite (bind_returns _ _ _ _ _ E4), (bind_returns _ _ _ _ _ E5). reflexivity.
  - rewrite C2 in R3.
    destruct (same_records_trans _ _ _ (same_records_trans _ _ _ R1 R3) R4) as (H1 & H2 & H3).
    rewrite C5. repeat split; try assumption; [congruence|].
    intros ->. eexists _, _. exact M5.
Qed.

(** When the database refuses nothing, the row of a file that could not
    be read says so: its status is [failed], its error is the message
    thrown, and its progress is the 30 it had when reading began. *)
Theorem failed_job_marks_the_file (job : jobData) (e : exn) (w : world) (r : file_row) :
  (forall w0, processFile ps uuidv4 moment_iso (jd_filePath job) (jd_fileType job) w0
              = (inl e, w0)) ->
  files (committed w) !! jd_fileId job = Some r ->
  exists w' t,
    processFileJob (fun _ => false) db_new_id clock ps uuidv4 moment_iso globalIO job w
      = (inl e, w')
    /\ files (committed w') !! jd_fileId job
       = Some {| fl_status := "failed"; fl_progress := Some 30%Z; fl_error := Some e;
                 fl_processedAt := fl_processedAt r; fl_updatedAt := t |}
    /\ forall other, other <> jd_fileId job ->
         files (committed w') !! other = files (committed w) !! other.
Proof.
  intros Hfail Hr.
  destruct (updateFileStatus_run clock globalIO (jd_fileId job) "processing" (Some 10%Z) None w)
    as (w1 & t1 & E1 & C1).
  destruct (emitStatusUpdate_run clock globalIO "file-processing-started"
              [("fileId", JStr (jd_fileId job)); ("fileName", JStr (jd_originalName job));
               ("fileType", JStr (jd_fileType job))] w1) as (w2 & E2 & C2).
  destruct (updateFileStatus_run clock globalIO (jd_fileId job) "processing" (Some 30%Z) None w2)
    as (w3 & t3 & E3 & C3).
  destruct (updateFileStatus_run clock globalIO (jd_fileId job) "failed" None (Some e) w3)
    as (w4 & t4 & E4 & C4).
  destruct (emitStatusUpdate_run clock globalIO "file-processing-failed"
              [("fileId", JStr (jd_fileId job)); ("fileName", JStr (jd_originalName job));
               ("error", JStr e)] w4) as (w5 & E5 & C5).
  exists w5, t4. split; [|split].
  - unfold processFileJob, try_catch.
    rewrite (bind_returns _ _ _ _ _ E1), (bind_returns _ _ _ _ _ E2),
      (bind_returns _ _ _ _ _ E3).
    unfold bind at 1. rewrite Hfail.
    rewrite (bind_returns _ _ _ _ _ E4), (bind_returns _ _ _ _ _ E5). reflexivity.
  - rewrite C5, C4, C3, C2, C1. cbn [files update_file].
    rewrite !lookup_alter_eq, Hr. reflexivity.
  - intros other Hne. rewrite C5, C4, C3, C2, C1. cbn [files update_file].
    rewrite !lookup_alter_ne by congruence. reflexivity.
Qed.

Lemma saveProcessedData_throws (fileId userId : string) (d : processedData) (w : world)
      (e : exn) (w' : world) :
  saveProcessedData db_fault db_new_id clock fileId userId d w = (inl e, w') ->
  committed w' = committed w.
Proof.
  intros H.
  pose proof (saveProcessedData_outcome db_fault db_new_id clock fileId userId d w) as Ho.
  rewrite H in Ho. apply Ho.
Qed.

(** A job that throws, for whatever reason -- the file could not be read,
    or the database refused a statement at any point -- has written no
    property, no inspection and no finding. *)
Theorem thrown_job_writes_no_record (job : jobData) (w : world) (e : exn) (w' : world) :
  processFileJob db_fault db_new_id clock ps uuidv4 moment_iso globalIO job w = (inl e, w') ->
  properties (committed w') = properties (committed w)
  /\ inspections (committed w') = inspections (committed w)
  /\ findings (committed w') = findings (committed w).
Proof.
  destruct (updateFileStatus_records (jd_fileId job) "processing" (Some 10%Z) None w)
    as (w1 & E1 & R1 & _).
  destruct (emitStatusUpdate_outcome "file-processing-started"
              [("fileId", JStr (jd_fileId job)); ("fileName", JStr (jd_originalName job));
               ("fileType", JStr (jd_fileType job))] w1) as (w2 & E2 & C2 & _).
  destruct (updateFileStatus_records (jd_fileId job) "processing" (Some 30%Z) None w2)
    as (w3 & E3 & R3 & _).
  rewrite C2 in R3. pose proof (same_records_trans _ _ _ R1 R3) as R13.
  assert (Hhandler : forall err w4 err' w'',
             same_records (committed w) (committed w4) ->
             bind (updateFileStatus db_fault clock globalIO (jd_fileId job) "failed" None
                     (Some err))
               (fun _ => bind (emitStatusUpdate clock globalIO "file-processing-failed"
                                 [("fileId", JStr (jd_fileId job));
                                  ("fileName", JStr (jd_originalName job));
                                  ("error", JStr err)])
                           (fun _ => throw err)) w4 = (@inl exn jobResult err', w'') ->
             same_records (committed w) (committed w'')).
  { intros err w4 err' w'' R4 H.
    destruct (updateFileStatus_records (jd_fileId job) "failed" None (Some err) w4)
      as (w5 & E5 & R5 & _).
    destruct (emitStatusUpdate_outcome "file-processing-failed"
                [("fileId", JStr (jd_fileId job)); ("fileName", JStr (jd_originalName job));
                 ("error", JStr err)] w5) as (w6 & E6 & C6 & _).
    rewrite (bind_returns _ _ _ _ _ E5), (bind_returns _ _ _ _ _ E6) in H.
    unfold throw in H. injection H as _ <-. rewrite C6.
    eapply same_records_trans; eassumption. }
  unfold processFileJob, try_catch.
  rewrite (bind_returns _ _ _ _ _ E1), (bind_returns _ _ _ _ _ E2), (bind_returns _ _ _ _ _ E3).
  unfold bind at 1.
  destruct (processFile ps uuidv4 moment_iso (jd_filePath job) (jd_fileType job) w3)
    as [[err|d] w4] eqn:E4.
  - assert (w4 = w3).
    { revert E4. unfold processFile, pdfParser_parse, lift_parser, bind, ret, throw.
      repeat match goal with
             | |- context [if ?b then _ else _] => destruct b
             | |- context [match ?x with inl _ => _ | inr _ => _ end] => destruct x
             end; congruence. }
    subst w4. intros H. exact (Hhandler _ _ _ _ R13 H).
  - assert (w4 = w3).
    { revert E4. unfold processFile, pdfParser_parse, lift_parser, bind, ret, throw.
      repeat match goal with
             | |- context [if ?b then _ else _] => destruct b
             | |- context [match ?x with inl _ => _ | inr _ => _ end] => destruct x
             end; congruence. }
    subst w4.
    destruct (updateFileStatus_records (jd_fileId job) "processing" (Some 70%Z) None w3)
      as (w5 & E5 & R5 & _).
    rewrite (bind_returns _ _ _ _ _ E5). unfold bind at 1.
    destruct (saveProcessedData db_fault db_new_id clock (jd_fileId job) (jd_userId job) d w5)
      as [[err|r] w6] eqn:E6.
    + apply saveProcessedData_throws in E6. intros H.
      refine (Hhandler err w6 e w' _ H). rewrite E6.
      eapply same_records_trans; eassumption.
    + destruct (updateFileStatus_records (jd_fileId job) "processed" (Some 100%Z) None w6)
        as (w7 & E7 & _).
      rewrite (bind_returns _ _ _ _ _ E7).
      match goal with
      | |- context [emitStatusUpdate clock globalIO ?ev ?data] =>
          destruct (emitStatusUpdate_outcome ev data w7) as (w8 & E8 & _)
      end.
      rewrite (bind_returns _ _ _ _ _ E8). unfold ret. discriminate.
Qed.

End WorkerFacts.

Section WorkerRuns.
Import Processor Eff.

(** A job for an archive, which the worker does not read. *)
Definition zip_job : jobData :=
  {| jd_fileId := "file-1"; jd_userId := "user-1";
     jd_filePath := "uploads/photos.zip"; jd_fileType := "zip";
     jd_originalName := "photos.zip" |}.

Definition row_ids (n : nat) : string := "row".
Definition ticks (n : nat) : Z := Z.of_nat n.
Definition uuids (n : nat) : string := "uuid".
Definition iso_same (s : string) : option string := Some s.
Definition never_refuses (n : nat) : bool := false.
Definition always_refuses (n : nat) : bool := true.

Lemma zip_is_not_supported (w0 : world) :
  processFile S1_parsers uuids iso_same (jd_filePath zip_job) (jd_fileType zip_job) w0
  = (inl "Unsupported file type: zip", w0).
Proof. reflexivity. Qed.

Lemma failed_job_rethrows_witness :
  exists w',
    processFileJob always_refuses row_ids ticks S1_parsers uuids iso_same true zip_job S1_world
      = (inl "Unsupported file type: zip", w')
    /\ committed w' = committed S1_world.
Proof.
  destruct (failed_job_rethrows always_refuses row_ids ticks S1_parsers uuids iso_same true
              zip_job "Unsupported file type: zip" S1_world zip_is_not_supported)
    as (w' & E & _).
  exists w'. split; [exact E|].
  assert (H : snd (processFileJob always_refuses row_ids ticks S1_parsers uuids iso_same true
                     zip_job S1_world) = w') by (rewrite E; reflexivity).
  rewrite <- H. vm_compute. reflexivity.
Defined.

Lemma failed_job_marks_the_file_witness :
  exists w' t,
    processFileJob (fun _ => false) row_ids ticks S1_parsers uuids iso_same true zip_job S1_world
      = (inl "Unsupported file type: zip", w')
    /\ files (committed w') !! "file-1"
       = Some {| fl_status := "failed"; fl_progress := Some 30%Z;
                 fl_error := Some "Unsupported file type: zip";
                 fl_processedAt := None; fl_updatedAt := t |}.
Proof.
  destruct (failed_job_marks_the_file row_ids ticks S1_parsers uuids iso_same true
              zip_job "Unsupported file type: zip" S1_world _ zip_is_not_supported eq_refl)
    as (w' & t & E & Hrow & _).
  exists w', t. split; [exact E | exact Hrow].
Defined.

Lemma thrown_job_writes_no_record_witness :
  inspections (committed (snd (processFileJob always_refuses row_ids ticks S1_parsers uuids
                                 iso_same true S1_job S1_world))) = [].
Proof.
  eassert (E : processFileJob always_refuses row_ids ticks S1_parsers uuids iso_same true
                 S1_job S1_world = (inl _, _)) by (vm_compute; reflexivity).
  destruct (thrown_job_writes_no_record always_refuses row_ids ticks S1_parsers uuids iso_same
              true S1_job S1_world _ _ E) as (_ & Hi & _).
  rewrite E. cbn [snd]. rewrite Hi. reflexivity.
Defined.

End WorkerRuns.

(* ===================================================================== *)
(** * The findings table (migration [create_findings_table]) *)
(* ===================================================================== *)

Module FindingsTable.

(** [table.enum('category', [...]).notNullable()] *)
Definition category_values : list string :=
  ["structural"; "electrical"; "plumbing"; "hvac"; "roofing"; "exterior"; "interior";
   "insulation"; "ventilation"; "foundation"; "safety"; "other"].

(** [table.enum('severity', [...]).notNullable()] *)
Definition severity_values : list string :=
  ["critical"; "major"; "minor"; "informational"].

(** The enum is a CHECK on the column: the value must be listed. *)
Definition category_ok (v : string) : bool := existsb (String.eqb v) category_values.
Definition severity_ok (v : string) : bool := existsb (String.eqb v) severity_values.

End FindingsTable.

Section FindingsFacts.
Import JS Processor.

Variable uuidv4 : nat -> string.

Lemma classify_in (table : list (string * list string)) (default descr : string) :
  In (classify table default descr) (default :: map fst table).
Proof.
  induction table as [|[label keywords] rest IH]; cbn [classify map fst]; [left; reflexivity|].
  destruct (some_keyword descr keywords); [right; left; reflexivity|].
  destruct IH as [IH|IH]; [left; exact IH | right; right; exact IH].
Qed.

Definition category_labels : list string :=
  ["general"; "electrical"; "plumbing"; "structural"; "hvac"; "roofing"; "exterior"; "interior"].

(** What every extracted finding looks like. *)
Definition well_shaped (f : finding) : Prop :=
  In (severity f) ["high"; "medium"; "low"]
  /\ In (category f) category_labels
  /\ priority f = "medium"
  /\ recommendation f = None
  /\ estimatedCost f = None.

Lemma make_finding_shaped (new_id : string) (mt : nat -> string) :
  well_shaped (make_finding new_id mt).
Proof.
  unfold well_shaped, make_finding. cbn [severity category priority recommendation estimatedCost].
  split; [|split; [apply (classify_in categoryKeywords "general") | repeat split]].
  pose proof (classify_in severityKeywords "medium" (trim (mt 1))) as H.
  unfold severity_of. cbn [map fst severityKeywords] in H. cbn [In] in *. tauto.
Qed.

Lemma imap_Forall {A B} (P : B -> Prop) (l : list A) :
  forall f : nat -> A -> B, (forall n a, P (f n a)) -> List.Forall P (imap f l).
Proof.
  induction l as [|x l IH]; intros f Hf; cbn [imap]; constructor; [apply Hf|].
  apply IH. intros n a. apply Hf.
Qed.

Lemma imap_ids (l : list (nat -> string)) :
  forall k, map id (imap (fun n mt => make_finding (uuidv4 (k + n)) mt) l)
            = map uuidv4 (seq k (List.length l)).
Proof.
  induction l as [|x l IH]; intros k; [reflexivity|].
  cbn [imap map seq List.length make_finding id]. rewrite Nat.add_0_r. f_equal.
  rewrite <- (IH (S k)). f_equal. apply imap_ext. intros n a _. cbn.
  replace (k + S n) with (S (k + n)) by lia. reflexivity.
Qed.

Lemma extracted_shaped (content : string) :
  List.Forall well_shaped (extractFindings uuidv4 content).
Proof.
  unfold extractFindings. apply imap_Forall. intros n a. apply make_finding_shaped.
Qed.

(** The findings the worker extracts, whatever the text: each has one of
    the severities high, medium, low and one of the eight categories,
    priority medium, and neither recommendation nor estimated cost; and
    they carry the identifiers [uuidv4] hands out, in order. *)
Theorem extracted_findings_shape (content : string) :
  List.Forall well_shaped (extractFindings uuidv4 content)
  /\ map id (extractFindings uuidv4 content)
     = map uuidv4 (seq 0 (List.length (extractFindings uuidv4 content))).
Proof.
  split; [apply extracted_shaped|].
  unfold extractFindings. rewrite length_imap. apply (imap_ids _ 0).
Qed.

(** No finding the worker extracts passes the checks of the findings
    table: its severity (high, medium or low) is none of the table's
    (critical, major, minor, informational); its category is one of the
    table's unless it stayed [general]. *)
Theorem extracted_findings_fail_the_table (content : string) :
  List.Forall (fun f =>
            FindingsTable.severity_ok (severity f) = false
            /\ (FindingsTable.category_ok (category f) = true <-> category f <> "general"))
         (extractFindings uuidv4 content).
Proof.
  eapply List.Forall_impl; [|apply extracted_shaped].
  intros f (Hs & Hc & _). split.
  - cbn [In] in Hs. destruct Hs as [<- | [<- | [<- | []]]]; reflexivity.
  - unfold category_labels in Hc. cbn [In] in Hc.
    destruct Hc as [<- | [<- | [<- | [<- | [<- | [<- | [<- | [<- | []]]]]]]]];
      (split; [intros H; try discriminate; vm_compute in H; discriminate
              | intros H; try reflexivity; destruct H; reflexivity]).
Qed.

Lemma some_keyword_false (descr : string) (keywords : list string) (k : string) :
  some_keyword descr keywords = false -> In k keywords ->
  includes (toLowerCase descr) k = false.
Proof.
  unfold some_keyword. intros H Hk.
  destruct (includes (toLowerCase descr) k) eqn:E; [|reflexivity].
  assert (existsb (fun keyword => includes (toLowerCase descr) keyword) keywords = true)
    by (apply existsb_exists; exists k; split; assumption).
  congruence.
Qed.

(** The category table is read top down, so its earlier rows shadow the
    later ones: a description that mentions a roof is never [roofing]
    (the structural row has [roof] first), and one in which the letters
    [ac] occur -- as in surface, crack, replace -- is never [roofing],
    [exterior], [interior] or [general] (the hvac row has [ac]). *)
Theorem category_rows_shadow (descr : string) :
  (category_of descr = "roofing" -> includes (toLowerCase descr) "roof" = false)
  /\ (In (category_of descr) ["roofing"; "exterior"; "interior"; "general"] ->
      includes (toLowerCase descr) "ac" = false).
Proof.
  unfold category_of, categoryKeywords. cbn [classify].
  destruct (some_keyword descr ["electrical"; "wiring"; "outlet"; "circuit"; "breaker"; "panel"]);
    [split; [discriminate | cbn [In]; intros [H|[H|[H|[H|[]]]]]; discriminate]|].
  destruct (some_keyword descr ["plumbing"; "pipe"; "leak"; "drain"; "faucet"; "toilet"]);
    [split; [discriminate | cbn [In]; intros [H|[H|[H|[H|[]]]]]; discriminate]|].
  destruct (some_keyword descr ["structural"; "foundation"; "wall"; "roof"; "beam"; "support"])
    eqn:Hstructural;
    [split; [discriminate | cbn [In]; intros [H|[H|[H|[H|[]]]]]; discriminate]|].
  destruct (some_keyword descr ["hvac"; "heating"; "cooling"; "furnace"; "ac"; "air conditioning"])
    eqn:Hhvac;
    [split; [discriminate | cbn [In]; intros [H|[H|[H|[H|[]]]]]; discriminate]|].
  split; intros _.
  - apply (some_keyword_false _ _ _ Hstructural). cbn [In]. tauto.
  - apply (some_keyword_false _ _ _ Hhvac). cbn [In]. tauto.
Qed.

End FindingsFacts.

(* ===================================================================== *)
(** * What a match of a pattern is made of *)
(* ===================================================================== *)

Section RegexFacts.
Import JS Regex.

(** The texts a pattern matches, read off its syntax (the groups play no
    part). *)
Fixpoint lang (icase : bool) (r : re) (u : list ascii) {struct r} : Prop :=
  match r with
  | Eps => u = []
  | Chr c => exists x, u = [x] /\ cset_mem icase c x = true
  | Seq a b => exists u1 u2, u = u1 ++ u2 /\ lang icase a u1 /\ lang icase b u2
  | Alt a b => lang icase a u \/ lang icase b u
  | Rep mn mx a =>
      exists us,
        u = concat us
        /\ List.Forall (lang icase a) us
        /\ mn <= List.length us
        /\ match mx with
           | Some n => List.length us <= n
           | None => True
           end
  | Grp _ a => lang icase a u
  end.

(** The groups every match of the pattern fills. *)
Fixpoint fills (r : re) : list nat :=
  match r with
  | Grp i a => i :: fills a
  | Seq a b => fills a ++ fills b
  | Rep mn _ a => if (mn =? 0)%nat then [] else fills a
  | _ => []
  end.

Variable icase : bool.

(** What is known of the text of each group. *)
Variable Q : nat -> list ascii -> Prop.

Fixpoint grp_ok (r : re) : Prop :=
  match r with
  | Grp i a => (forall u, lang icase a u -> Q i u) /\ grp_ok a
  | Seq a b => grp_ok a /\ grp_ok b
  | Alt a b => grp_ok a /\ grp_ok b
  | Rep _ _ a => grp_ok a
  | _ => True
  end.

Definition good (cs : caps) : Prop := forall i u, In (i, u) cs -> Q i u.

(** What the matcher hands to its continuation when it succeeds. *)
Definition sound_at (r : re) (mn0 : bool) (s : list ascii) (cs : caps) (k : cont)
           (res : list ascii * caps) (P : list ascii -> Prop) : Prop :=
  exists u s' cs',
    s = u ++ s'
    /\ P u
    /\ good cs'
    /\ incl cs cs'
    /\ (mn0 = false -> forall i, In i (fills r) -> exists v, In (i, v) cs')
    /\ k s' cs' = Some res.

Definition matcher_sound (r : re) : Prop :=
  forall s cs k res,
    good cs -> m icase r s cs k = Some res -> sound_at r false s cs k res (lang icase r).

Lemma firstn_consumed (u s' : list ascii) :
  firstn (List.length (u ++ s') - List.length s') (u ++ s') = u.
Proof.
  rewrite length_app. replace (List.length u + List.length s' - List.length s')
    with (List.length u) by lia.
  rewrite firstn_app, Nat.sub_diag, firstn_all. cbn [firstn]. apply app_nil_r.
Qed.

Lemma rep_sound (a : re) :
  matcher_sound a ->
  forall budget mn mx s cs k res,
    good cs ->
    rep (m icase a) budget mn mx s cs k = Some res ->
    sound_at a (mn =? 0)%nat s cs k res (lang icase (Rep mn mx a)).
Proof.
  intros Ha. induction budget as [|b IH]; intros mn mx s cs k res Hg H; [discriminate|].
  cbn [rep] in H.
  assert (Hmore : forall k1 : cont,
             (forall s' cs',
                 k1 s' cs' =
                 if (mn =? 0)%nat && (List.length s' =? List.length s)%nat then None
                 else rep (m icase a) b (Nat.pred mn) (option_map Nat.pred mx) s' cs' k) ->
             m icase a s cs k1 = Some res -> mx <> Some 0 ->
             sound_at a (mn =? 0)%nat s cs k res (lang icase (Rep mn mx a))).
  { intros k1 Hk1eq Hm Hmx.
    destruct (Ha s cs k1 res Hg Hm) as (u1 & s1 & cs1 & -> & Hu1 & Hg1 & Hi1 & Hf1 & Hk1).
    rewrite Hk1eq in Hk1.
    destruct ((mn =? 0)%nat && (List.length s1 =? List.length (u1 ++ s1))%nat);
      [discriminate|].
    destruct (IH _ _ _ _ _ _ Hg1 Hk1) as (u2 & s2 & cs2 & -> & Hu2 & Hg2 & Hi2 & _ & Hk2).
    exists (u1 ++ u2), s2, cs2. split; [apply app_assoc|]. split.
    - cbn [lang] in Hu2 |- *. destruct Hu2 as (us & -> & Hus & Hmn & Hmx2).
      exists (u1 :: us). split; [reflexivity|]. split; [constructor; assumption|].
      cbn [List.length]. split; [lia|].
      destruct mx as [n|]; [|exact I]. cbn [option_map] in Hmx2.
      destruct n; [congruence | cbn [Nat.pred] in Hmx2; lia].
    - split; [exact Hg2|]. split; [intros x Hx; apply Hi2, Hi1, Hx|].
      split; [|exact Hk2].
      intros _ i Hin. destruct (Hf1 eq_refl i Hin) as (v & Hv). exists v. apply Hi2, Hv. }
  assert (Hnone : mn = 0 -> k s cs = Some res ->
                  sound_at a (mn =? 0)%nat s cs k res (lang icase (Rep mn mx a))).
  { intros -> Hk. exists [], s, cs. split; [reflexivity|]. split.
    - cbn [lang]. exists []. split; [reflexivity|]. split; [constructor|].
      cbn [List.length]. split; [lia|]. destruct mx; [lia | exact I].
    - split; [exact Hg|]. split; [apply incl_refl|]. split; [discriminate | exact Hk]. }
  destruct mx as [[|n]|].
  - destruct (Nat.eqb_spec mn 0) as [E0|E0]; [|discriminate]. apply Hnone; assumption.
  - destruct (Nat.eqb_spec mn 0) as [E0|E0].
    + destruct (m icase a s cs _) as [r1|] eqn:Em in H.
      * injection H as ->. eapply Hmore; [|exact Em | discriminate].
        intros s' cs'. subst mn. reflexivity.
      * apply Hnone; assumption.
    + eapply Hmore; [|exact H | discriminate].
      intros s' cs'. destruct (Nat.eqb_spec mn 0); [congruence | reflexivity].
  - destruct (Nat.eqb_spec mn 0) as [E0|E0].
    + destruct (m icase a s cs _) as [r1|] eqn:Em in H.
      * injection H as ->. eapply Hmore; [|exact Em | discriminate].
        intros s' cs'. subst mn. reflexivity.
      * apply Hnone; assumption.
    + eapply Hmore; [|exact H | discriminate].
      intros s' cs'. destruct (Nat.eqb_spec mn 0); [congruence | reflexivity].
Qed.

Lemma m_sound (r : re) : grp_ok r -> matcher_sound r.
Proof.
  induction r as [|c|a IHa b IHb|a IHa b IHb|mn mx a IHa|i a IHa];
    intros Hok s cs k res Hg H; cbn [m] in H.
  - exists [], s, cs. repeat split; try assumption; try apply incl_refl.
    intros _ i [].
  - destruct s as [|x s']; [discriminate|].
    destruct (cset_mem icase c x) eqn:Hc; [|discriminate].
    exists [x], s', cs. split; [reflexivity|]. split; [exists x; split; [reflexivity | exact Hc]|].
    split; [exact Hg|]. split; [apply incl_refl|]. split; [intros _ i [] | exact H].
  - destruct Hok as [Hoka Hokb].
    destruct (IHa Hoka _ _ _ _ Hg H) as (u1 & s1 & cs1 & -> & Hu1 & Hg1 & Hi1 & Hf1 & Hk1).
    destruct (IHb Hokb _ _ _ _ Hg1 Hk1) as (u2 & s2 & cs2 & -> & Hu2 & Hg2 & Hi2 & Hf2 & Hk2).
    exists (u1 ++ u2), s2, cs2. split; [apply app_assoc|].
    split; [exists u1, u2; repeat split; assumption|].
    split; [exact Hg2|]. split; [intros x Hx; apply Hi2, Hi1, Hx|].
    split; [|exact Hk2].
    intros _ i Hin. cbn [fills] in Hin. apply in_app_iff in Hin as [Hin|Hin].
    + destruct (Hf1 eq_refl i Hin) as (v & Hv). exists v. apply Hi2, Hv.
    + exact (Hf2 eq_refl i Hin).
  - destruct Hok as [Hoka Hokb].
    destruct (m icase a s cs k) as [r1|] eqn:Ea.
    + injection H as ->.
      destruct (IHa Hoka _ _ _ _ Hg Ea) as (u & s' & cs' & -> & Hu & Hg' & Hi & _ & Hk).
      exists u, s', cs'. repeat split; try assumption; [left; exact Hu | intros _ i []].
    + destruct (IHb Hokb _ _ _ _ Hg H) as (u & s' & cs' & -> & Hu & Hg' & Hi & _ & Hk).
      exists u, s', cs'. repeat split; try assumption; [right; exact Hu | intros _ i []].
  - cbn [grp_ok] in Hok.
    destruct (rep_sound a (IHa Hok) _ _ _ _ _ _ _ Hg H)
      as (u & s' & cs' & -> & Hu & Hg' & Hi & Hf & Hk).
    exists u, s', cs'. repeat split; try assumption.
    intros _ i Hin. cbn [fills] in Hin.
    destruct (mn =? 0)%nat; [destruct Hin | exact (Hf eq_refl i Hin)].
  - destruct Hok as [Hq Hok].
    destruct (IHa Hok _ _ _ _ Hg H) as (u & s' & cs' & -> & Hu & Hg' & Hi & Hf & Hk).
    rewrite firstn_consumed in Hk.
    exists u, s', ((i, u) :: cs'). split; [reflexivity|]. split; [exact Hu|].
    split; [intros j v [[= <- <-] | Hin]; [apply Hq, Hu | exact (Hg' j v Hin)]|].
    split; [intros x Hx; right; apply Hi, Hx|].
    split; [|exact Hk].
    intros _ j [<- | Hin]; [exists u; left; reflexivity|].
    destruct (Hf eq_refl j Hin) as (v & Hv). exists v. right. exact Hv.
Qed.

(** A match that was found: its text is in the language of the pattern,
    its groups hold what is known of them, and the groups every match
    fills are there. *)
Definition found_ok (r : re) (fd : found) : Prop :=
  lang icase r (f_text fd)
  /\ good (f_caps fd)
  /\ forall i, In i (fills r) -> exists v, In (i, v) (f_caps fd).

Lemma match_here_sound (r : re) (s rest : list ascii) (cs : caps) :
  grp_ok r ->
  match_here icase r s = Some (rest, cs) ->
  exists u,
    s = u ++ rest /\ lang icase r u /\ good cs
    /\ forall i, In i (fills r) -> exists v, In (i, v) cs.
Proof.
  intros Hok H. unfold match_here in H.
  destruct (m_sound r Hok s [] _ _ (fun i u (Hin : In (i, u) []) => match Hin with end) H)
    as (u & s' & cs' & -> & Hu & Hg & _ & Hf & Hk).
  injection Hk as -> ->. exists u. repeat split; try assumption. exact (Hf eq_refl).
Qed.

Lemma found_of_match (r : re) (s rest : list ascii) (cs : caps) (idx : nat) :
  grp_ok r ->
  match_here icase r s = Some (rest, cs) ->
  found_ok r {| f_index := idx;
                f_text := firstn (List.length s - List.length rest) s;
                f_caps := cs;
                f_rest := rest |}.
Proof.
  intros Hok E. destruct (match_here_sound _ _ _ _ Hok E) as (u & Hs & Hu & Hg & Hf).
  unfold found_ok. cbn [f_text f_caps]. rewrite Hs, firstn_consumed. auto.
Qed.

Lemma search_from_sound (r : re) (s : list ascii) :
  grp_ok r -> forall idx fd, search_from icase r s idx = Some fd -> found_ok r fd.
Proof.
  intros Hok. induction s as [|x s IH]; intros idx fd; cbn [search_from];
    destruct (match_here icase r _) as [[rest cs]|] eqn:E; try discriminate.
  - intros [= <-]. exact (found_of_match r [] rest cs idx Hok E).
  - intros [= <-]. exact (found_of_match r (x :: s) rest cs idx Hok E).
  - apply IH.
Qed.

Lemma all_matches_sound (r : re) (fuel : nat) :
  grp_ok r -> forall s idx, List.Forall (found_ok r) (all_matches fuel icase r s idx).
Proof.
  intros Hok. induction fuel as [|f IH]; intros s idx; cbn [all_matches]; [constructor|].
  destruct (search_from icase r s idx) as [fd|] eqn:E; [|constructor].
  pose proof (search_from_sound r s Hok idx fd E) as Hfd.
  destruct (f_text fd); [destruct (f_rest fd)|]; constructor; auto.
Qed.

(** The text of a group that every match fills. *)
Lemma nth_of_ok (r : re) (fd : found) (i : nat) :
  found_ok r fd -> In i (fills r) -> i <> 0 ->
  exists u, nth_of fd i = str u /\ Q i u.
Proof.
  intros (_ & Hg & Hf) Hin Hi. destruct (Hf i Hin) as (v & Hv).
  unfold nth_of. destruct i as [|j]; [congruence|].
  destruct (List.find (fun p => (fst p =? S j)%nat) (f_caps fd)) as [[i' u]|] eqn:E.
  - apply List.find_some in E as [Hp He]. cbn [fst] in He. apply Nat.eqb_eq in He. subst i'.
    exists u. split; [reflexivity | exact (Hg _ _ Hp)].
  - pose proof (List.find_none _ _ E _ Hv) as Hnone. cbn [fst] in Hnone.
    rewrite Nat.eqb_refl in Hnone. discriminate.
Qed.

(** A repetition of one character class. *)
Lemma lang_rep_chr (mn : nat) (mx : option nat) (c : cset) (u : list ascii) :
  lang icase (Rep mn mx (Chr c)) u ->
  mn <= List.length u
  /\ match mx with
     | Some n => List.length u <= n
     | None => True
     end
  /\ List.Forall (fun x => cset_mem icase c x = true) u.
Proof.
  cbn [lang]. intros (us & -> & Hus & Hmn & Hmx).
  assert (H : List.length (concat us) = List.length us
              /\ List.Forall (fun x => cset_mem icase c x = true) (concat us)).
  { clear Hmn Hmx. induction Hus as [|u us (x & -> & Hx) _ [IH1 IH2]]; [split; [reflexivity | constructor]|].
    cbn [concat app List.length]. split; [congruence | constructor; assumption]. }
  destruct H as [Hlen Hall]. rewrite Hlen. auto.
Qed.

End RegexFacts.

(* ===================================================================== *)
(** * The format of extracted fields *)
(* ===================================================================== *)

Section FieldFormats.
Import JS Regex Processor.

Lemma str_match_found (p : regexp) (content : string) (mt : nat -> string) :
  global p = false ->
  str_match content p = Some mt ->
  exists fd,
    mt = nth_of fd
    /\ search_from (ignoreCase p) (compile (source p)) (chars content) 0 = Some fd.
Proof.
  unfold str_match, first_match. intros ->.
  destruct (search_from _ _ _ 0) as [fd|]; [|discriminate].
  intros [= <-]. exists fd. split; reflexivity.
Qed.

(** A run of one character class, as the body of a group. *)
Lemma lang_class_run (icase : bool) (mn : nat) (mx : option nat) (c : cset) (u : list ascii) :
  lang icase (Seq (Rep mn mx (Chr c)) Eps) u ->
  mn <= List.length u
  /\ match mx with
     | Some n => List.length u <= n
     | None => True
     end
  /\ List.Forall (fun x => cset_mem icase c x = true) u.
Proof.
  intros (u1 & u2 & -> & H1 & H2). cbn [lang] in H2. subst u2. rewrite app_nil_r.
  apply lang_rep_chr, H1.
Qed.

(** The conjuncts of [grp_ok] for a pattern, one goal for each group. *)
Ltac each_group :=
  repeat match goal with
         | |- _ /\ _ => split
         | |- True => exact I
         end.

Lemma digit_class (x : ascii) : cset_mem false (CSet false [(48, 57)]) x = is_digit x.
Proof. destruct x as [[] [] [] [] [] [] [] []]; vm_compute; reflexivity. Qed.

Lemma digit_class_i (x : ascii) : cset_mem true (CSet false [(48, 57)]) x = is_digit x.
Proof. destruct x as [[] [] [] [] [] [] [] []]; vm_compute; reflexivity. Qed.

Lemma capital_class (x : ascii) : cset_mem false (CSet false [(65, 90)]) x = is_upper x.
Proof. destruct x as [[] [] [] [] [] [] [] []]; vm_compute; reflexivity. Qed.

Lemma Forall_class (icase : bool) (c : cset) (P : ascii -> bool) (u : list ascii) :
  (forall x, cset_mem icase c x = P x) ->
  List.Forall (fun x => cset_mem icase c x = true) u ->
  List.Forall (fun x => P x = true) u.
Proof.
  intros H Hu. eapply List.Forall_impl; [|exact Hu].
  intros x Hx. cbn beta in Hx. rewrite <- H. exact Hx.
Qed.

(** What is known of groups 2 and 3 of [cityStateZipPattern]. *)
Definition place_groups (i : nat) (u : list ascii) : Prop :=
  match i with
  | 2 => List.length u = 2 /\ List.Forall (fun x => is_upper x = true) u
  | 3 => List.length u = 5 /\ List.Forall (fun x => is_digit x = true) u
  | _ => True
  end.

Lemma cityStateZip_groups :
  grp_ok false place_groups (compile (source cityStateZipPattern))
  /\ fills (compile (source cityStateZipPattern)) = [1; 2; 3].
Proof.
  split; [|vm_compute; reflexivity].
  remember (compile (source cityStateZipPattern)) as r eqn:Hr. vm_compute in Hr. subst r.
  cbn [grp_ok place_groups]. each_group.
  - intros _ _. exact I.
  - intros u Hu. apply lang_class_run in Hu as (H1 & H2 & H3).
    split; [lia|]. exact (Forall_class _ _ _ _ capital_class H3).
  - intros u Hu. apply lang_class_run in Hu as (H1 & H2 & H3).
    split; [lia|]. exact (Forall_class _ _ _ _ digit_class H3).
Qed.

(** Whatever the text, an extracted ZIP code is five decimal digits and
    an extracted state is two capital letters. *)
Theorem extracted_zip_and_state (content : string) :
  (forall z, zipCode (extractPropertyInfo content) = Some z ->
             List.length (chars z) = 5
             /\ List.Forall (fun x => is_digit x = true) (chars z))
  /\ (forall st, state (extractPropertyInfo content) = Some st ->
                 List.length (chars st) = 2
                 /\ List.Forall (fun x => is_upper x = true) (chars st)).
Proof.
  destruct cityStateZip_groups as [Hok Hfills].
  unfold extractPropertyInfo. cbn [zipCode state].
  destruct (str_match content cityStateZipPattern) as [mt|] eqn:E;
    [|split; intros ? H; discriminate].
  apply str_match_found in E as (fd & -> & Hfd); [|reflexivity].
  apply (search_from_sound false place_groups _ _ Hok) in Hfd.
  split; intros v Hv; cbn [option_map] in Hv; injection Hv as <-.
  - destruct (nth_of_ok false place_groups _ fd 3 Hfd) as (u & Heq & Hq);
      [rewrite Hfills; cbn; tauto | discriminate|].
    unfold nth_of in Heq. rewrite Heq, chars_str. exact Hq.
  - destruct (nth_of_ok false place_groups _ fd 2 Hfd) as (u & Heq & Hq);
      [rewrite Hfills; cbn; tauto | discriminate|].
    unfold nth_of in Heq. rewrite Heq, chars_str. exact Hq.
Qed.

(** ** Findings *)

Definition in_sentence (x : ascii) : bool := negb (Ascii.eqb x "." || Ascii.eqb x "010").

Lemma sentence_class (x : ascii) :
  cset_mem true (CSet true [(46, 46); (10, 10)]) x = in_sentence x.
Proof. destruct x as [[] [] [] [] [] [] [] []]; vm_compute; reflexivity. Qed.

Definition finding_groups (i : nat) (u : list ascii) : Prop :=
  match i with
  | 1 => u <> [] /\ List.Forall (fun x => in_sentence x = true) u
  | _ => True
  end.

Lemma findingPatterns_groups :
  List.Forall (fun p =>
            ignoreCase p = true
            /\ grp_ok true finding_groups (compile (source p))
            /\ fills (compile (source p)) = [1])
         findingPatterns.
Proof.
  unfold findingPatterns.
  apply List.Forall_cons; [|apply List.Forall_cons; [|apply List.Forall_cons; [|apply List.Forall_nil]]];
    (split; [reflexivity|]; split; [|vm_compute; reflexivity]);
    match goal with
    | |- grp_ok _ _ ?c => remember c as r eqn:Hr; vm_compute in Hr; subst r
    end;
    cbn [grp_ok finding_groups]; each_group;
    intros u Hu; apply lang_class_run in Hu as (H1 & _ & H3);
    (split; [intros ->; cbn [List.length] in H1; lia
            | exact (Forall_class _ _ _ _ sentence_class H3)]).
Qed.

Lemma drop_space_In (c : ascii) (l : list ascii) : In c (drop_space l) -> In c l.
Proof.
  induction l as [|x l IH]; cbn [drop_space]; [auto|].
  destruct (is_space x); [intros H; right; exact (IH H) | auto].
Qed.

Lemma trim_In (c : ascii) (s : string) : In c (chars (trim s)) -> In c (chars s).
Proof.
  unfold trim. rewrite chars_str. intros H.
  apply in_rev, drop_space_In, in_rev, drop_space_In in H. exact H.
Qed.

Lemma imap_Forall_in {A B} (P : A -> Prop) (R : B -> Prop) (l : list A) :
  forall f : nat -> A -> B,
    (forall n a, P a -> R (f n a)) -> List.Forall P l -> List.Forall R (imap f l).
Proof.
  induction l as [|x l IH]; intros f Hf Hl; cbn [imap]; [constructor|].
  inversion Hl as [|? ? Hx Hl']; subst. constructor; [apply Hf, Hx|].
  apply IH; [intros n a; apply Hf | exact Hl'].
Qed.

Lemma Forall_concat_map {A B} (P : B -> Prop) (f : A -> list B) (l : list A) :
  List.Forall (fun a => List.Forall P (f a)) l -> List.Forall P (concat (map f l)).
Proof.
  induction 1 as [|a l Ha _ IH]; cbn [map concat]; [constructor|].
  apply List.Forall_app. split; assumption.
Qed.

(** Whatever the text, the description of an extracted finding holds no
    full stop and no line feed: it is (a part of) one sentence on one
    line. *)
Theorem finding_descriptions_are_one_sentence (uuidv4 : nat -> string) (content : string) :
  List.Forall (fun f => forall c, In c (chars (description f)) ->
                                  c <> "."%char /\ c <> "010"%char)
         (extractFindings uuidv4 content).
Proof.
  unfold extractFindings.
  apply (imap_Forall_in
           (fun mt : nat -> string =>
              exists u, mt 1 = str u /\ List.Forall (fun x => in_sentence x = true) u)).
  - intros n mt (u & Hmt & Hu) c Hc. cbn [make_finding description] in Hc.
    apply trim_In in Hc. rewrite Hmt, chars_str in Hc.
    rewrite List.Forall_forall in Hu. specialize (Hu c Hc). unfold in_sentence in Hu.
    apply negb_true_iff, orb_false_iff in Hu as [H1 H2].
    apply Ascii.eqb_neq in H1, H2. split; assumption.
  - apply Forall_concat_map.
    eapply List.Forall_impl; [|exact findingPatterns_groups].
    intros p (Hi & Hok & Hfills). unfold str_matchAll, matches. rewrite Hi.
    apply List.Forall_map.
    eapply List.Forall_impl; [|apply (all_matches_sound true finding_groups _ _ Hok)].
    intros fd Hfd.
    destruct (nth_of_ok true finding_groups _ fd 1 Hfd) as (u & Heq & _ & Hq);
      [rewrite Hfills; left; reflexivity | discriminate|].
    exists u. split; assumption.
Qed.

(** ** Numbers and the address *)

(** The text begins with a decimal digit. *)
Definition starts_with_digit (u : list ascii) : Prop :=
  exists d t, u = d :: t /\ is_digit d = true.

Lemma lang_starts (icase : bool) (mn : nat) (mx : option nat) (c : cset) (rest : re)
      (u : list ascii) :
  lang icase (Seq (Rep (S mn) mx (Chr c)) rest) u ->
  exists d t, u = d :: t /\ cset_mem icase c d = true.
Proof.
  intros (u1 & u2 & -> & H1 & _). apply lang_rep_chr in H1 as (Hlen & _ & Hall).
  destruct u1 as [|d t]; [cbn [List.length] in Hlen; lia|].
  inversion Hall; subst. exists d, (t ++ u2). split; [reflexivity | assumption].
Qed.

Definition number_groups (i : nat) (u : list ascii) : Prop :=
  match i with
  | 1 => starts_with_digit u
  | _ => True
  end.

Definition year_groups (i : nat) (u : list ascii) : Prop :=
  match i with
  | 1 => List.length u = 4 /\ List.Forall (fun x => is_digit x = true) u
  | _ => True
  end.

Ltac group_starts_with_digit :=
  match goal with
  | |- grp_ok _ _ ?c => remember c as r eqn:Hr; vm_compute in Hr; subst r
  end;
  cbn [grp_ok number_groups]; each_group;
  intros u Hu; apply lang_starts in Hu as (d & t & -> & Hd);
  exists d, t; (split; [reflexivity|]);
  first [rewrite digit_class_i in Hd | rewrite digit_class in Hd]; exact Hd.

Lemma number_patterns_groups :
  List.Forall (fun p =>
            ignoreCase p = true
            /\ global p = false
            /\ grp_ok true number_groups (compile (source p))
            /\ fills (compile (source p)) = [1])
         [sqftPattern; yearPattern; bedroomPattern; bathroomPattern].
Proof.
  apply List.Forall_cons;
    [|apply List.Forall_cons;
      [|apply List.Forall_cons; [|apply List.Forall_cons; [|apply List.Forall_nil]]]];
    (split; [reflexivity|]; split; [reflexivity|]; split; [|vm_compute; reflexivity]);
    group_starts_with_digit.
Qed.

Lemma yearPattern_groups :
  grp_ok true year_groups (compile (source yearPattern))
  /\ fills (compile (source yearPattern)) = [1].
Proof.
  split; [|vm_compute; reflexivity].
  remember (compile (source yearPattern)) as r eqn:Hr. vm_compute in Hr. subst r.
  cbn [grp_ok year_groups]. each_group.
  intros u Hu. apply lang_class_run in Hu as (H1 & H2 & H3).
  split; [lia | exact (Forall_class _ _ _ _ digit_class_i H3)].
Qed.

Lemma digit_not_space (d : ascii) : is_digit d = true -> is_space d = false.
Proof. destruct d as [[] [] [] [] [] [] [] []]; vm_compute; congruence. Qed.

Lemma digit_not_comma (d : ascii) : is_digit d = true -> Ascii.eqb d "," = false.
Proof. destruct d as [[] [] [] [] [] [] [] []]; vm_compute; congruence. Qed.

Lemma to_double_exact (n : N) : (n < 2 ^ 53)%N -> to_double n = Finite n.
Proof.
  intros H. unfold to_double. apply N.ltb_lt in H. rewrite H. reflexivity.
Qed.

Lemma parseInt_digit (u : list ascii) :
  starts_with_digit u -> parseInt (str u) = Some (to_double (fst (digits_value 0%N u))).
Proof.
  intros (d & t & -> & Hd). unfold parseInt. rewrite chars_str.
  cbn [drop_space]. rewrite (digit_not_space d Hd), Hd. reflexivity.
Qed.

Lemma parseFloat_digit (u : list ascii) :
  starts_with_digit u -> parseFloat (str u) <> None.
Proof.
  intros (d & t & -> & Hd). unfold parseFloat. rewrite chars_str.
  cbn [drop_space]. rewrite (digit_not_space d Hd), Hd.
  destruct (digits_value 0%N (d :: t)) as [i [|c rest]]; [discriminate|].
  destruct (Ascii.eqb_spec c "."%char) as [->|Hne].
  - destruct (digits_value 0%N rest). discriminate.
  - destruct c as [[] [] [] [] [] [] [] []]; try discriminate. congruence.
Qed.

Lemma remove_comma_digit (u : list ascii) :
  starts_with_digit u -> starts_with_digit (chars (remove_char "," (str u))).
Proof.
  intros (d & t & -> & Hd). unfold remove_char. rewrite !chars_str.
  cbn [List.filter]. rewrite (digit_not_comma d Hd). cbn [negb].
  eexists _, _. split; [reflexivity | exact Hd].
Qed.

Lemma digits_value_bound (l : list ascii) :
  List.Forall (fun x => is_digit x = true) l ->
  forall acc, (fst (digits_value acc l) < (acc + 1) * 10 ^ N.of_nat (List.length l))%N.
Proof.
  induction 1 as [|c l Hc _ IH]; intros acc; cbn [digits_value List.length].
  - cbn. lia.
  - rewrite Hc. specialize (IH (10 * acc + N.of_nat (code c - 48))%N).
    assert (Hv : (N.of_nat (code c - 48) <= 9)%N).
    { unfold is_digit in Hc. apply andb_true_iff in Hc as [_ Hc]. apply Nat.leb_le in Hc. lia. }
    rewrite Nat2N.inj_succ, N.pow_succ_r'.
    eapply N.lt_le_trans; [exact IH|]. nia.
Qed.

Lemma matched_group_1 (Qg : nat -> list ascii -> Prop) (p : regexp) (content : string)
      (mt : nat -> string) :
  global p = false ->
  grp_ok (ignoreCase p) Qg (compile (source p)) ->
  fills (compile (source p)) = [1] ->
  str_match content p = Some mt ->
  exists u, mt 1 = str u /\ Qg 1 u.
Proof.
  intros Hg Hok Hfills E. apply str_match_found in E as (fd & -> & Hfd); [|exact Hg].
  apply (search_from_sound _ Qg _ _ Hok) in Hfd.
  apply (nth_of_ok _ Qg _ fd 1 Hfd); [rewrite Hfills; left; reflexivity | discriminate].
Qed.

(** A number that was matched is a number: the text [parseInt] or
    [parseFloat] is given begins with a digit, so the result is never
    [NaN], and a field is [null] only when its pattern has no match.  A
    year that was matched is below 10000. *)
Theorem matched_numbers_are_numbers (content : string) :
  (is_Some (str_match content sqftPattern) ->
   is_Some (squareFootage (extractPropertyInfo content)))
  /\ (is_Some (str_match content yearPattern) ->
      exists n, yearBuilt (extractPropertyInfo content) = Some (Finite n) /\ (n < 10000)%N)
  /\ (is_Some (str_match content bedroomPattern) ->
      is_Some (bedrooms (extractPropertyInfo content)))
  /\ (is_Some (str_match content bathroomPattern) ->
      is_Some (bathrooms (extractPropertyInfo content))).
Proof.
  pose proof number_patterns_groups as Hn.
  inversion Hn as [|? ? (Hi1 & Hg1 & Hok1 & Hf1) Hn1]; subst. clear Hn.
  inversion Hn1 as [|? ? _ Hn2]; subst. clear Hn1.
  inversion Hn2 as [|? ? (Hi3 & Hg3 & Hok3 & Hf3) Hn3]; subst. clear Hn2.
  inversion Hn3 as [|? ? (Hi4 & Hg4 & Hok4 & Hf4) _]; subst. clear Hn3.
  destruct yearPattern_groups as [Hok2 Hf2].
  unfold extractPropertyInfo. cbn [squareFootage yearBuilt bedrooms bathrooms].
  split; [|split; [|split]]; intros [mt E]; rewrite E.
  - destruct (matched_group_1 number_groups sqftPattern content mt Hg1 Hok1 Hf1 E)
      as (u & -> & Hu).
    apply remove_comma_digit in Hu.
    rewrite <- (str_chars (remove_char "," (str u))), (parseInt_digit _ Hu). eexists; reflexivity.
  - destruct (matched_group_1 year_groups yearPattern content mt eq_refl Hok2 Hf2 E)
      as (u & -> & Hlen & Hu).
    assert (Hs : starts_with_digit u).
    { destruct u as [|d t]; [discriminate|]. inversion Hu; subst. exists d, t. auto. }
    rewrite (parseInt_digit _ Hs).
    pose proof (digits_value_bound u Hu 0%N) as Hb. rewrite Hlen in Hb.
    assert (Hb' : (fst (digits_value 0%N u) < 10000)%N) by exact Hb.
    rewrite to_double_exact by (eapply N.lt_trans; [exact Hb' | reflexivity]).
    eexists. split; [reflexivity | exact Hb'].
  - destruct (matched_group_1 number_groups bedroomPattern content mt Hg3 Hok3 Hf3 E)
      as (u & -> & Hu).
    rewrite (parseInt_digit _ Hu). eexists; reflexivity.
  - destruct (matched_group_1 number_groups bathroomPattern content mt Hg4 Hok4 Hf4 E)
      as (u & -> & Hu).
    destruct (parseFloat (str u)) eqn:Ef; [eexists; reflexivity|].
    destruct (parseFloat_digit u Hu Ef).
Qed.

Lemma drop_space_last (d : ascii) (l : list ascii) :
  is_space d = false -> exists l', drop_space (l ++ [d]) = l' ++ [d].
Proof.
  intros Hd. induction l as [|x l IH]; cbn [app drop_space].
  - rewrite Hd. exists []. reflexivity.
  - destruct (is_space x); [exact IH|]. exists (x :: l). reflexivity.
Qed.

Lemma trim_starts_with_digit (u : list ascii) :
  starts_with_digit u -> starts_with_digit (chars (trim (str u))).
Proof.
  intros (d & t & -> & Hd). pose proof (digit_not_space d Hd) as Hs.
  unfold trim. rewrite !chars_str. cbn [drop_space]. rewrite Hs. cbn [rev].
  destruct (drop_space_last d (rev t) Hs) as (l' & ->).
  rewrite rev_app_distr. cbn [rev app]. eexists _, _. split; [reflexivity | exact Hd].
Qed.

Lemma lang_group_starts (icase : bool) (i mn : nat) (mx : option nat) (c : cset)
      (rest rest' : re) (u : list ascii) :
  lang icase (Seq (Grp i (Seq (Rep (S mn) mx (Chr c)) rest)) rest') u ->
  exists d t, u = d :: t /\ cset_mem icase c d = true.
Proof.
  intros (u1 & u2 & -> & Hu & _).
  change (lang icase (Seq (Rep (S mn) mx (Chr c)) rest) u1) in Hu.
  apply lang_starts in Hu as (d & t & -> & Hd).
  exists d, (t ++ u2). split; [reflexivity | exact Hd].
Qed.

Lemma addressPatterns_groups :
  List.Forall (fun p =>
            global p = true
            /\ forall u, lang (ignoreCase p) (compile (source p)) u -> starts_with_digit u)
         addressPatterns.
Proof.
  unfold addressPatterns.
  apply List.Forall_cons; [|apply List.Forall_cons; [|apply List.Forall_nil]];
    (split; [reflexivity|]);
    match goal with
    | |- forall u, lang _ ?c u -> _ => remember c as r eqn:Hr; vm_compute in Hr; subst r
    end;
    intros u Hu; apply lang_group_starts in Hu as (d & t & -> & Hd);
    exists d, t; (split; [reflexivity|]);
    cbn [ignoreCase rx_gi] in Hd; rewrite digit_class_i in Hd; exact Hd.
Qed.

Lemma grp_ok_trivial (icase : bool) (r : re) : grp_ok icase (fun _ _ => True) r.
Proof. induction r; cbn [grp_ok]; auto. Qed.

(** The first match of a pattern with the [g] flag. *)
Lemma str_match_global (p : regexp) (content : string) (mt : nat -> string) :
  global p = true ->
  str_match content p = Some mt ->
  exists u, mt 0 = str u /\ lang (ignoreCase p) (compile (source p)) u.
Proof.
  unfold str_match, matches. intros ->.
  pose proof (all_matches_sound (ignoreCase p) (fun _ _ => True) (compile (source p))
                (S (List.length (chars content))) (grp_ok_trivial _ _) (chars content) 0) as H.
  destruct (all_matches _ _ _ _ 0) as [|fd ms]; [discriminate|].
  intros [= <-]. inversion H as [|? ? (Hl & _) _]; subst.
  exists (f_text fd). split; [reflexivity | exact Hl].
Qed.

(** Whatever the text, an extracted address begins with a decimal digit;
    so it is never the empty text, and [if (propertyInfo.address)] in
    [saveProcessedData] tests exactly whether an address was found. *)
Theorem extracted_address_begins_with_a_digit (content : string) (a : string) :
  address (extractPropertyInfo content) = Some a ->
  starts_with_digit (chars a) /\ truthy (Some a) = true.
Proof.
  unfold extractPropertyInfo. cbn [address].
  assert (H : forall ps, List.Forall (fun p =>
                global p = true
                /\ forall u, lang (ignoreCase p) (compile (source p)) u -> starts_with_digit u) ps ->
              forall mt, first_matching content ps = Some mt ->
                         exists u, mt 0 = str u /\ starts_with_digit u).
  { induction 1 as [|p ps (Hg & Hl) _ IH]; intros mt; cbn [first_matching]; [discriminate|].
    destruct (str_match content p) as [mt'|] eqn:E; [|apply IH].
    intros [= <-]. destruct (str_match_global p content mt' Hg E) as (u & Hu & Hlang).
    exists u. split; [exact Hu | exact (Hl u Hlang)]. }
  destruct (first_matching content addressPatterns) as [mt|] eqn:E; [|discriminate].
  cbn [option_map]. intros [= <-].
  destruct (H _ addressPatterns_groups mt E) as (u & -> & Hu).
  pose proof (trim_starts_with_digit u Hu) as Ht. split; [exact Ht|].
  destruct Ht as (d & t & Hc & _). unfold truthy.
  destruct (String.eqb_spec (trim (str u)) "") as [He|]; [|reflexivity].
  rewrite He in Hc. discriminate.
Qed.

End FieldFormats.

(** The sample report of scenario S1 has an address, [123 Main St]. *)
Section FieldFormatRuns.
Import JS Regex Processor.

Lemma extracted_address_begins_with_a_digit_witness :
  address (extractPropertyInfo S1_text) = Some "123 Main St"
  /\ (starts_with_digit (chars "123 Main St") /\ truthy (Some "123 Main St") = true).
Proof.
  split; [vm_compute; reflexivity|].
  apply (extracted_address_begins_with_a_digit S1_text "123 Main St").
  vm_compute; reflexivity.
Defined.

End FieldFormatRuns.

(* ===================================================================== *)
(** * pdfParser.js: the pages of a document *)
(* ===================================================================== *)

Module PdfParser.
Import JS Text Processor.

(** ['\n\n'] *)
Definition blank_line : string := String "010" (String "010" "").

(** [pageNum > 0 && pageNum <= pages.length], for a page number that is
    an integer. *)
Definition on_a_page (pages : list string) (pageNum : Z) : bool :=
  (0 <? pageNum)%Z && (pageNum <=? Z.of_nat (List.length pages))%Z.

(** [join] writes an element that is [undefined] as the empty text. *)
Definition joined (o : option string) : string :=
  match o with
  | Some s => s
  | None => ""
  end.

(** The text [extractPages] returns once the document is read. *)
Definition extractedPages (text : string) (pageNumbers : list Z) : string :=
  let pages := split text blank_line in
  join blank_line
    (map (fun pageNum => joined (at_index pages (Z.to_nat (pageNum - 1))))
       (List.filter (on_a_page pages) pageNumbers)).

(** [extractPages(filePath, pageNumbers)]: the text or the message of
    the error thrown. *)
Definition extractPages (ps : parsers) (filePath : string) (pageNumbers : list Z)
  : string + string :=
  match readFile ps filePath with
  | inl msg => inl ("Failed to extract pages from PDF: " ++ msg)%string
  | inr dataBuffer =>
      match pdfParse ps dataBuffer with
      | inl msg => inl ("Failed to extract pages from PDF: " ++ msg)%string
      | inr text => inr (extractedPages text pageNumbers)
      end
  end.

(** The page numbers [1 .. n]. *)
Definition pages_up_to (n : nat) : list Z := map Z.of_nat (seq 1 n).

End PdfParser.

Section PdfFacts.
Import JS Text Processor PdfParser.

Lemma filter_all {A : Type} (f : A -> bool) (l : list A) :
  List.Forall (fun x => f x = true) l -> List.filter f l = l.
Proof.
  induction 1 as [|x l Hx _ IH]; [reflexivity|].
  cbn [List.filter]. rewrite Hx, IH. reflexivity.
Qed.

Lemma filter_drops {A : Type} (f : A -> bool) (before after : list A) (x : A) :
  f x = false -> List.filter f (before ++ x :: after) = List.filter f (before ++ after).
Proof.
  intros Hx. rewrite !List.filter_app. cbn [List.filter]. rewrite Hx. reflexivity.
Qed.

Lemma pages_up_to_on_a_page (pages : list string) :
  List.Forall (fun n => on_a_page pages n = true) (pages_up_to (List.length pages)).
Proof.
  unfold pages_up_to. apply List.Forall_map, List.Forall_forall. intros n Hn.
  apply in_seq in Hn. unfold on_a_page.
  apply andb_true_intro; split; [apply Z.ltb_lt | apply Z.leb_le]; lia.
Qed.

Lemma read_in_order (before pages : list string) :
  map (fun pageNum => joined (at_index (before ++ pages) (Z.to_nat (pageNum - 1))))
    (map Z.of_nat (seq (S (List.length before)) (List.length pages))) = pages.
Proof.
  revert before. induction pages as [|p pages IH]; intros before; [reflexivity|].
  cbn [List.length seq map]. f_equal.
  - replace (Z.to_nat (Z.of_nat (S (List.length before)) - 1)) with (List.length before) by lia.
    unfold at_index. rewrite nth_error_app2 by lia. rewrite Nat.sub_diag. reflexivity.
  - specialize (IH (before ++ [p])). rewrite <- List.app_assoc in IH. cbn [app] in IH.
    rewrite List.length_app in IH. cbn [List.length] in IH.
    replace (List.length before + 1) with (S (List.length before)) in IH by lia.
    exact IH.
Qed.

Lemma blank_line_not_empty : blank_line <> ""%string.
Proof. discriminate. Qed.

Lemma extractedPages_all (text : string) :
  extractedPages text (pages_up_to (List.length (split text blank_line))) = text.
Proof.
  unfold extractedPages. cbv zeta.
  rewrite (filter_all _ _ (pages_up_to_on_a_page _)).
  unfold pages_up_to.
  pose proof (read_in_order [] (split text blank_line)) as H.
  cbn [app List.length] in H. rewrite H.
  apply join_split, blank_line_not_empty.
Qed.

(** Asked for every page from the first to the last, in order,
    [extractPages] returns the text of the document unchanged: cutting
    the text at blank lines and joining the pieces again loses nothing. *)
Theorem extractPages_of_every_page (ps : parsers) (filePath dataBuffer text : string) :
  readFile ps filePath = inr dataBuffer ->
  pdfParse ps dataBuffer = inr text ->
  extractPages ps filePath (pages_up_to (List.length (split text blank_line))) = inr text.
Proof.
  intros Hr Hp. unfold extractPages. rewrite Hr, Hp, extractedPages_all. reflexivity.
Qed.

(** A page number that is zero, negative or beyond the last page is
    passed over: the call returns what it returns without that number,
    and raises no error for it. *)
Theorem extractPages_skips_missing_pages (ps : parsers) (filePath dataBuffer text : string)
        (before after : list Z) (n : Z) :
  readFile ps filePath = inr dataBuffer ->
  pdfParse ps dataBuffer = inr text ->
  (n <= 0 \/ Z.of_nat (List.length (split text blank_line)) < n)%Z ->
  extractPages ps filePath (before ++ n :: after) = extractPages ps filePath (before ++ after)
  /\ exists pages, extractPages ps filePath (before ++ n :: after) = inr pages.
Proof.
  intros Hr Hp Hn. unfold extractPages. rewrite Hr, Hp. split; [|eexists; reflexivity].
  unfold extractedPages. cbv zeta. rewrite filter_drops; [reflexivity|].
  unfold on_a_page. destruct Hn as [Hn|Hn].
  - apply andb_false_intro1, Z.ltb_ge. exact Hn.
  - apply andb_false_intro2, Z.leb_gt. exact Hn.
Qed.

End PdfFacts.

Section PdfRuns.
Import JS Text Processor PdfParser.

(** A document of two pages. *)
Definition two_pages : string := ("Roof" ++ blank_line ++ "Walls")%string.

Definition two_page_parsers : parsers :=
  {| readFile := fun _ => inr "%PDF-1.4";
     pdfParse := fun _ => inr two_pages;
     wordParser_parse := fun _ => inl "not a Word document";
     excelParser_parse := fun _ => inl "not a workbook";
     ocrParser_parse := fun _ => inl "not an image" |}.

Lemma extractPages_of_every_page_witness :
  readFile two_page_parsers "report.pdf" = inr "%PDF-1.4"
  /\ pdfParse two_page_parsers "%PDF-1.4" = inr two_pages
  /\ extractPages two_page_parsers "report.pdf"
       (pages_up_to (List.length (split two_pages blank_line))) = inr two_pages.
Proof.
  split; [reflexivity|]. split; [reflexivity|].
  apply (extractPages_of_every_page two_page_parsers "report.pdf" "%PDF-1.4" two_pages);
    reflexivity.
Defined.

Lemma extractPages_skips_missing_pages_witness :
  readFile two_page_parsers "report.pdf" = inr "%PDF-1.4"
  /\ pdfParse two_page_parsers "%PDF-1.4" = inr two_pages
  /\ (3 <= 0 \/ Z.of_nat (List.length (split two_pages blank_line)) < 3)%Z
  /\ (extractPages two_page_parsers "report.pdf" ([2] ++ 3 :: [1])%Z
      = extractPages two_page_parsers "report.pdf" ([2] ++ [1])%Z
      /\ exists pages, extractPages two_page_parsers "report.pdf" ([2] ++ 3 :: [1])%Z = inr pages).
Proof.
  split; [reflexivity|]. split; [reflexivity|].
  split; [right; vm_compute; reflexivity|].
  apply (extractPages_skips_missing_pages two_page_parsers "report.pdf" "%PDF-1.4" two_pages);
    [reflexivity | reflexivity | right; vm_compute; reflexivity].
Defined.

End PdfRuns.

(* ===================================================================== *)
(** * White space before the text *)
(* ===================================================================== *)

(** The text pdf-parse hands over starts with two line feeds.  No
    pattern of the worker but [cityStateZipPattern] has a match that
    begins with white space, so white space in front of a text moves the
    matches and changes none. *)
Section LeadingSpace.
Import JS Regex Processor.

(** The characters [is_space] holds of. *)
Definition space_chars : list ascii := map ascii_of_nat [9; 10; 11; 12; 13; 32; 160].


(** Every word of the pattern is empty or begins with a character that
    is not white space. *)
Fixpoint solid_or_empty (icase : bool) (r : re) : bool :=
  match r with
  | Eps => true
  | Chr c => forallb (fun x => negb (cset_mem icase c x)) space_chars
  | Seq a b => solid_or_empty icase a && solid_or_empty icase b
  | Alt a b => solid_or_empty icase a && solid_or_empty icase b
  | Rep _ _ a => solid_or_empty icase a
  | Grp _ a => solid_or_empty icase a
  end.

(** Every word of the pattern begins with a character that is not white
    space. *)
Fixpoint solid (icase : bool) (r : re) : bool :=
  match r with
  | Eps => false
  | Chr c => forallb (fun x => negb (cset_mem icase c x)) space_chars
  | Seq a b => solid icase a || (solid_or_empty icase a && solid icase b)
  | Alt a b => solid icase a && solid icase b
  | Rep mn _ a => negb (mn =? 0)%nat && solid icase a
  | Grp _ a => solid icase a
  end.

Definition begins_solid (allow_empty : bool) (u : list ascii) : Prop :=
  match u with
  | [] => allow_empty = true
  | x :: _ => is_space x = false
  end.

Lemma begins_solid_app (e1 e2 : bool) (u1 u2 : list ascii) :
  begins_solid e1 u1 -> begins_solid e2 u2 ->
  (e1 = true \/ u1 <> []) ->
  begins_solid (e1 && e2) (u1 ++ u2) /\ (e1 = false -> begins_solid false (u1 ++ u2)).
Proof.
  destruct u1 as [|x u1]; cbn [app begins_solid].
  - intros -> H2 _. cbn [andb]. split; [exact H2 | discriminate].
  - intros H1 _ _. split; intros; exact H1.
Qed.



















End LeadingSpace.

(** ** What the worker reads off a text that starts with white space *)

Section LeadingSpaceOfFields.
Import JS Regex Processor.

Definition solid_pattern (p : regexp) : bool := solid (ignoreCase p) (compile (source p)).

(** Every pattern of the worker but [cityStateZipPattern] begins its
    matches with a character that is not white space. *)
Lemma worker_patterns_solid :
  forallb solid_pattern
    (addressPatterns ++ propertyTypePatterns
     ++ [sqftPattern; yearPattern; bedroomPattern; bathroomPattern]
     ++ namePatterns ++ licensePatterns ++ companyPatterns
     ++ [phonePattern; emailPattern] ++ datePatterns ++ findingPatterns) = true
  /\ solid_pattern cityStateZipPattern = false.
Proof. vm_compute. split; reflexivity. Qed.

















End LeadingSpaceOfFields.

(* ===================================================================== *)
(** * Scenario S1 through the worker *)
(* ===================================================================== *)

Section S1Job.
Import JS Processor Eff.

Variable db_new_id : nat -> string.
Variable clock : nat -> Z.
Variable ps : parsers.
Variable uuidv4 : nat -> string.
Variable moment_iso : string -> option string.
Variable globalIO : bool.

(** What the worker reads off the three S1 lines. *)
Definition S1_propertyInfo : propertyInfo :=
  {| address := Some "123 Main St"; city := Some "Anytown"; state := Some "CA";
     zipCode := Some "90210"; propertyType := None; squareFootage := None;
     yearBuilt := None; bedrooms := None; bathrooms := None |}.

Definition S1_inspectorInfo : inspectorInfo :=
  {| name := Some "Jane Smith"; license := Some "NY789012"; company := None;
     phone := None; email := None; inspectionDate := None |}.






End S1Job.

Section S1Runs.
Import JS Processor Eff.




Definition numbered_rows (n : nat) : string := ("row-" ++ Number_toString (Z.of_nat n))%string.



End S1Runs.

(** ** One call of [saveProcessedData] *)

Section PersistenceRuns.
Import JS Processor Eff.

(** A processed file with an address and one finding. *)
Definition a_processed : processedData :=
  {| content := "Finding: critical electrical hazard at main panel";
     extractedData := "{}";
     pd_propertyInfo := S1_propertyInfo;
     pd_inspectorInfo := S1_inspectorInfo;
     pd_findings :=
       [{| id := "uuid"; description := "critical electrical hazard at main panel";
           severity := "high"; category := "electrical"; recommendation := None;
           estimatedCost := None; priority := "medium" |}] |}.

Lemma saveProcessedData_atomic_witness :
  (exists r w',
     saveProcessedData never_refuses numbered_rows ticks "file-1" "user-1" a_processed S1_world
     = (inr r, w')
     /\ fully_written ticks "file-1" "user-1" a_processed r 0
          (committed S1_world) (committed w')
     /\ map fr_createdAt (findings (committed w')) = [4%Z]
     /\ map fr_updatedAt (findings (committed w')) = [5%Z])
  /\ committed (snd (saveProcessedData always_refuses numbered_rows ticks "file-1" "user-1"
                       a_processed S1_world))
     = committed S1_world.
Proof.
  split.
  - destruct (saveProcessedData_atomic never_refuses numbered_rows ticks "file-1" "user-1"
                a_processed S1_world) as [Hall Hiff].
    destruct (proj2 Hiff) as (r & w' & E); [intros n _; reflexivity|].
    rewrite E in Hall. destruct Hall as [Hw _].
    exists r, w'. split; [exact E|]. split; [exact Hw|].
    destruct Hw as (_ & _ & _ & Hf & _). rewrite Hf. split; reflexivity.
  - pose proof (saveProcessedData_atomic always_refuses numbered_rows ticks "file-1" "user-1"
                  a_processed S1_world) as [Hall _].
    destruct (saveProcessedData always_refuses numbered_rows ticks "file-1" "user-1"
                a_processed S1_world) as [[e|r] w'] eqn:E.
    + exact Hall.
    + vm_compute in E. discriminate.
Defined.

End PersistenceRuns.
